(** * worlds-end: the simulation core of [services/GameEngine.ts]

    A shallow embedding of the game engine (terrain oracle, A* pathfinder,
    blocking-wall heuristic, economy operations and the tick loop) together
    with the properties stated about it.

    Numbers.  The source computes with JavaScript numbers.  Continuous
    quantities (positions, radii, ranges, speeds, timers) are modelled as
    real numbers [R], i.e. finite values without rounding; integer-valued
    quantities (gold, population, hit points, damage, tile indices) are
    modelled as [Z].  The A* scores, which are sums of the step costs 1.0
    and 1.4, are kept exactly, in tenths of a tile (10 and 14).  Where the
    rounding of a product decides an integer result (the hit points and the
    damage of a spawned zombie) the arithmetic is that of IEEE 754 binary64
    numbers, see [Double]. *)

From Stdlib Require Import Reals Lra ZArith Lia.
From Stdlib Require Import Floats.SpecFloat.
From stdpp Require Import gmap strings list fin_maps pretty.

Local Open Scope Z_scope.

(** ** JavaScript numbers as reals: comparisons and rounding *)

Definition Rltb (a b : R) : bool := if Rlt_dec a b then true else false.
Definition Rleb (a b : R) : bool := if Rle_dec a b then true else false.
Definition Reqb (a b : R) : bool := if Req_dec_T a b then true else false.

(** [Math.floor] and [Math.round] (round half up) on finite numbers. *)
Definition Math_floor (v : R) : Z := Int_part v.
Definition Math_round (v : R) : Z := Int_part (v + 0.5)%R.

(** ** constants.ts *)

Definition MAP_SIZE : Z := 64.
Definition ZOMBIE_BOUNTY : Z := 10.
Definition BUILD_RADIUS : R := 8.
Definition MINE_COST : Z := 250.
Definition WALL_COST : Z := 30.

(** ** types.ts: Vector2 *)

Module Vector2.
Record t : Type := mk { x : R; y : R }.
End Vector2.

Abbreviation Vector2 := Vector2.t.

(** ** utils/isometric.ts and the geometry helpers of the engine *)

Definition getDistance (a b : Vector2) : R :=
  sqrt ((Vector2.x a - Vector2.x b) ^ 2 + (Vector2.y a - Vector2.y b) ^ 2).

Definition distancePointToSegment (px py ax ay bx b_y : R) : R :=
  let dx := (bx - ax)%R in
  let dy := (b_y - ay)%R in
  if Reqb dx 0 && Reqb dy 0 then
    sqrt ((px - ax) ^ 2 + (py - ay) ^ 2)
  else
    let t := (((px - ax) * dx + (py - ay) * dy) / (dx * dx + dy * dy))%R in
    let clamped := Rmax 0 (Rmin 1 t) in
    let cx := (ax + clamped * dx)%R in
    let cy := (ay + clamped * dy)%R in
    sqrt ((px - cx) ^ 2 + (py - cy) ^ 2).

(** Base positions for up to 8 players, and the enemy base. *)
Definition BASE_POSITIONS : list Vector2 :=
  [ Vector2.mk 10 54; Vector2.mk 20 44; Vector2.mk 8 44; Vector2.mk 18 54;
    Vector2.mk 12 48; Vector2.mk 22 50; Vector2.mk 6 50; Vector2.mk 16 42 ].

Definition enemyBasePos : Vector2 := Vector2.mk 54 10.

(** Snap a fractional cartesian coordinate to the nearest tile center. *)
Definition snapToTileCoord (v : R) : R := (IZR (Math_round (v - 0.5)) + 0.5)%R.

(** ** The terrain oracle *)

Definition isValidTerrain (x y : R) : bool :=
  if Rltb x 0 || Rleb (IZR MAP_SIZE) x || Rltb y 0 || Rleb (IZR MAP_SIZE) y
  then false
  else
    let centerX := x in
    let centerY := y in
    let distFromDiagonal := Rabs (centerX + centerY - IZR MAP_SIZE) in
    let roominess := (sin (centerX * 0.15) * 6 + cos (centerY * 0.15) * 6)%R in
    let distP1 := getDistance (Vector2.mk x y) (Vector2.mk 10 54) in
    let distP2 := getDistance (Vector2.mk x y) (Vector2.mk 20 44) in
    let distEnemy := getDistance (Vector2.mk x y) (Vector2.mk 54 10) in
    if Rltb distP1 8 || Rltb distP2 8 || Rltb distEnemy 8 then true
    else Rltb distFromDiagonal (14 + roominess).

(** The base anchors of a session with [playerCount] players: the first
    [playerCount] entries of [BASE_POSITIONS] and the enemy base. *)
Definition sessionAnchors (playerCount : nat) : list Vector2 :=
  take playerCount BASE_POSITIONS ++ [enemyBasePos].

Definition inBoundsR (x y : R) : Prop :=
  (0 <= x < IZR MAP_SIZE /\ 0 <= y < IZR MAP_SIZE)%R.

(** ** Terrain near the bases *)

(** The three anchors that the oracle tests: player 1, player 2 and the
    enemy base. *)
Definition testedAnchors : list Vector2 :=
  [ Vector2.mk 10 54; Vector2.mk 20 44; Vector2.mk 54 10 ].

(** ** types.ts: entities, players and the game state *)

Inductive EntityType : Type :=
  UNIT | ZOMBIE | BASE | HOUSE | ENEMY_BASE | MINE | WALL.

#[global] Instance EntityType_eq_dec : EqDecision EntityType.
Proof. solve_decision. Defined.

(** Optional fields ([f?: T]) are options; [None] is [undefined]. *)
Module Entity.
Record t : Type := mk {
  id : string;
  type : EntityType;
  x : R;
  y : R;
  hp : Z;
  maxHp : Z;
  radius : R;
  ownerId : string;
  targetId : option string;
  attackCooldown : option R;
  lastAttackerId : option string;
  vx : option R;
  vy : option R;
  facing : option Z;
  path : option (list Vector2);
  pathIndex : option nat;
  pathCooldown : option R;
  damage : option Z;
  range : option R;
  speed : option R;
  unitType : option string
}.

(** Field assignments [e.f = v]; the other fields are kept. *)
Definition set_x (v : R) (e : t) : t :=
  let 'mk f0 f1 _ f3 f4 f5 f6 f7 f8 f9 f10 f11 f12 f13 f14 f15 f16 f17 f18
    f19 f20 := e in mk f0 f1 v f3 f4 f5 f6 f7 f8 f9 f10 f11 f12 f13 f14 f15
    f16 f17 f18 f19 f20.
Definition set_y (v : R) (e : t) : t :=
  let 'mk f0 f1 f2 _ f4 f5 f6 f7 f8 f9 f10 f11 f12 f13 f14 f15 f16 f17 f18
    f19 f20 := e in mk f0 f1 f2 v f4 f5 f6 f7 f8 f9 f10 f11 f12 f13 f14 f15
    f16 f17 f18 f19 f20.
Definition set_hp (v : Z) (e : t) : t :=
  let 'mk f0 f1 f2 f3 _ f5 f6 f7 f8 f9 f10 f11 f12 f13 f14 f15 f16 f17 f18
    f19 f20 := e in mk f0 f1 f2 f3 v f5 f6 f7 f8 f9 f10 f11 f12 f13 f14 f15
    f16 f17 f18 f19 f20.
Definition set_targetId (v : option string) (e : t) : t :=
  let 'mk f0 f1 f2 f3 f4 f5 f6 f7 _ f9 f10 f11 f12 f13 f14 f15 f16 f17 f18
    f19 f20 := e in mk f0 f1 f2 f3 f4 f5 f6 f7 v f9 f10 f11 f12 f13 f14 f15
    f16 f17 f18 f19 f20.
Definition set_attackCooldown (v : option R) (e : t) : t :=
  let 'mk f0 f1 f2 f3 f4 f5 f6 f7 f8 _ f10 f11 f12 f13 f14 f15 f16 f17 f18
    f19 f20 := e in mk f0 f1 f2 f3 f4 f5 f6 f7 f8 v f10 f11 f12 f13 f14 f15
    f16 f17 f18 f19 f20.
Definition set_lastAttackerId (v : option string) (e : t) : t :=
  let 'mk f0 f1 f2 f3 f4 f5 f6 f7 f8 f9 _ f11 f12 f13 f14 f15 f16 f17 f18
    f19 f20 := e in mk f0 f1 f2 f3 f4 f5 f6 f7 f8 f9 v f11 f12 f13 f14 f15
    f16 f17 f18 f19 f20.
Definition set_vx (v : option R) (e : t) : t :=
  let 'mk f0 f1 f2 f3 f4 f5 f6 f7 f8 f9 f10 _ f12 f13 f14 f15 f16 f17 f18
    f19 f20 := e in mk f0 f1 f2 f3 f4 f5 f6 f7 f8 f9 f10 v f12 f13 f14 f15
    f16 f17 f18 f19 f20.
Definition set_vy (v : option R) (e : t) : t :=
  let 'mk f0 f1 f2 f3 f4 f5 f6 f7 f8 f9 f10 f11 _ f13 f14 f15 f16 f17 f18
    f19 f20 := e in mk f0 f1 f2 f3 f4 f5 f6 f7 f8 f9 f10 f11 v f13 f14 f15
    f16 f17 f18 f19 f20.
Definition set_facing (v : option Z) (e : t) : t :=
  let 'mk f0 f1 f2 f3 f4 f5 f6 f7 f8 f9 f10 f11 f12 _ f14 f15 f16 f17 f18
    f19 f20 := e in mk f0 f1 f2 f3 f4 f5 f6 f7 f8 f9 f10 f11 f12 v f14 f15
    f16 f17 f18 f19 f20.
Definition set_path (v : option (list Vector2)) (e : t) : t :=
  let 'mk f0 f1 f2 f3 f4 f5 f6 f7 f8 f9 f10 f11 f12 f13 _ f15 f16 f17 f18
    f19 f20 := e in mk f0 f1 f2 f3 f4 f5 f6 f7 f8 f9 f10 f11 f12 f13 v f15
    f16 f17 f18 f19 f20.
Definition set_pathIndex (v : option nat) (e : t) : t :=
  let 'mk f0 f1 f2 f3 f4 f5 f6 f7 f8 f9 f10 f11 f12 f13 f14 _ f16 f17 f18
    f19 f20 := e in mk f0 f1 f2 f3 f4 f5 f6 f7 f8 f9 f10 f11 f12 f13 f14 v
    f16 f17 f18 f19 f20.
Definition set_pathCooldown (v : option R) (e : t) : t :=
  let 'mk f0 f1 f2 f3 f4 f5 f6 f7 f8 f9 f10 f11 f12 f13 f14 f15 _ f17 f18
    f19 f20 := e in mk f0 f1 f2 f3 f4 f5 f6 f7 f8 f9 f10 f11 f12 f13 f14 f15
    v f17 f18 f19 f20.
End Entity.

Abbreviation Entity := Entity.t.

Module PlayerState.
Record t : Type := mk {
  id : string;
  name : string;
  gold : Z;
  currentPop : Z;
  maxPop : Z;
  basePosition : Vector2;
  color : string;
  defeated : bool
}.

Definition set_gold (v : Z) (p : t) : t :=
  let 'mk f0 f1 _ f3 f4 f5 f6 f7 := p in mk f0 f1 v f3 f4 f5 f6 f7.
Definition set_currentPop (v : Z) (p : t) : t :=
  let 'mk f0 f1 f2 _ f4 f5 f6 f7 := p in mk f0 f1 f2 v f4 f5 f6 f7.
Definition set_maxPop (v : Z) (p : t) : t :=
  let 'mk f0 f1 f2 f3 _ f5 f6 f7 := p in mk f0 f1 f2 f3 v f5 f6 f7.
Definition set_defeated (v : bool) (p : t) : t :=
  let 'mk f0 f1 f2 f3 f4 f5 f6 _ := p in mk f0 f1 f2 f3 f4 f5 f6 v.
End PlayerState.

Abbreviation PlayerState := PlayerState.t.

Module LobbyPlayer.
Record t : Type := mk {
  id : string;
  peerId : string;
  name : string;
  color : string;
  isHost : bool
}.
End LobbyPlayer.

Abbreviation LobbyPlayer := LobbyPlayer.t.

(** [players] is a JavaScript object used as a map from player id to
    player state; [winner] is [string | null]. *)
Module GameState.
Record t : Type := mk {
  players : gmap string PlayerState;
  entities : list Entity;
  lastTick : Z;
  gameOver : bool;
  winner : option string;
  waveNumber : Z;
  playerCount : option nat
}.

Definition set_players (v : gmap string PlayerState) (s : t) : t :=
  let 'mk _ f1 f2 f3 f4 f5 f6 := s in mk v f1 f2 f3 f4 f5 f6.
Definition set_entities (v : list Entity) (s : t) : t :=
  let 'mk f0 _ f2 f3 f4 f5 f6 := s in mk f0 v f2 f3 f4 f5 f6.
Definition set_gameOver (v : bool) (s : t) : t :=
  let 'mk f0 f1 f2 _ f4 f5 f6 := s in mk f0 f1 f2 v f4 f5 f6.
Definition set_winner (v : option string) (s : t) : t :=
  let 'mk f0 f1 f2 f3 _ f5 f6 := s in mk f0 f1 f2 f3 v f5 f6.
End GameState.

Abbreviation GameState := GameState.t.

(** ** constants.ts: unit types *)

Inductive UnitTypeKey : Type := SOLDIER | TANK.

Definition unitTypeKey_string (k : UnitTypeKey) : string :=
  match k with SOLDIER => "SOLDIER" | TANK => "TANK" end.

Module UnitStats.
Record t : Type := mk {
  name : string;
  cost : Z;
  hp : Z;
  damage : Z;
  speed : R;
  range : R;
  color : string;
  radius : R;
  popCost : Z
}.
End UnitStats.

Definition UNIT_TYPES (k : UnitTypeKey) : UnitStats.t :=
  match k with
  | SOLDIER => UnitStats.mk "Soldier" 20 50 10 2 1.5 "#3b82f6" 0.3 1
  | TANK => UnitStats.mk "Tank" 60 300 25 1 1.1 "#1d4ed8" 0.5 2
  end.

(** ** JavaScript truthiness and defaults *)

(** A string is truthy when it is defined and not empty. *)
Definition truthyStr (o : option string) : bool :=
  match o with
  | Some s => negb (String.eqb s "")
  | None => false
  end.

(** A number is truthy when it is defined and not zero. *)
Definition truthyNum (o : option R) : bool :=
  match o with
  | Some v => negb (Reqb v 0)
  | None => false
  end.

(** [s || d] on strings and [v || d] on numbers. *)
Definition strOr (s d : string) : string := if String.eqb s "" then d else s.
Definition numOr (v d : R) : R := if Reqb v 0 then d else v.

(** ** The engine: session factory *)

Definition PLAYER_COLORS : list string :=
  [ "#3b82f6"; "#ef4444"; "#22c55e"; "#f59e0b";
    "#8b5cf6"; "#ec4899"; "#06b6d4"; "#f97316" ].

Definition playerIdOf (i : nat) : string := "p" +:+ pretty (S i).

Definition mkBuilding (id : string) (ty : EntityType) (x y : R) (hp : Z)
    (radius : R) (ownerId : string) : Entity :=
  Entity.mk id ty x y hp hp radius ownerId
    None None None None None None None None None None None None None.

(** One round of the player loop of [createInitialState].  Reading
    [basePos.x] of a missing [BASE_POSITIONS[i]] throws; [None] stands for
    that exception. *)
Definition addPlayer (lobbyPlayers : list LobbyPlayer) (i : nat)
    (acc : gmap string PlayerState * list Entity)
    : option (gmap string PlayerState * list Entity) :=
  let playerId := playerIdOf i in
  match BASE_POSITIONS !! i with
  | None => None
  | Some basePos =>
    let lobbyPlayer :=
      List.find (fun lp => String.eqb (LobbyPlayer.id lp) playerId) lobbyPlayers in
    let name :=
      strOr (default "" (LobbyPlayer.name <$> lobbyPlayer))
            ("Player " +:+ pretty (S i)) in
    let color :=
      strOr (default "" (LobbyPlayer.color <$> lobbyPlayer))
            (default "" (PLAYER_COLORS !! i)) in
    let player := PlayerState.mk playerId name 100 0 5 basePos color false in
    let base :=
      mkBuilding ("base_" +:+ playerId) BASE (Vector2.x basePos)
        (Vector2.y basePos) 1000 1.5 playerId in
    Some (<[playerId := player]> (fst acc), snd acc ++ [base])
  end.

Fixpoint addPlayers (lobbyPlayers : list LobbyPlayer) (indices : list nat)
    (acc : gmap string PlayerState * list Entity)
    : option (gmap string PlayerState * list Entity) :=
  match indices with
  | [] => Some acc
  | i :: rest =>
    match addPlayer lobbyPlayers i acc with
    | None => None
    | Some acc' => addPlayers lobbyPlayers rest acc'
    end
  end.

(** [now] is the value of [Date.now()]. *)
Definition createInitialState (now : Z) (playerCount : nat)
    (lobbyPlayers : list LobbyPlayer) : option GameState :=
  match addPlayers lobbyPlayers (seq 0 playerCount) (∅, []) with
  | None => None
  | Some (players, entities) =>
    let enemyBaseHp := 3000 + Z.of_nat playerCount * 1000 in
    let enemyBase :=
      mkBuilding "enemy_base" ENEMY_BASE (Vector2.x enemyBasePos)
        (Vector2.y enemyBasePos) enemyBaseHp 2 "enemy" in
    Some (GameState.mk players (entities ++ [enemyBase]) now false None 1
            (Some playerCount))
  end.

(** ** The engine: economy operations

    [generateId()] and [Math.random()] are inputs of the model: [newId] is
    the generated id and [rnd] the random number. *)

Definition entityPos (e : Entity) : Vector2 :=
  Vector2.mk (Entity.x e) (Entity.y e).

Definition spawnUnit (newId : string) (rnd : R) (playerId : string)
    (unitTypeKey : UnitTypeKey) (s : GameState) : GameState :=
  match GameState.players s !! playerId with
  | None => s
  | Some player =>
    if PlayerState.defeated player then s
    else
      let unitStats := UNIT_TYPES unitTypeKey in
      if (UnitStats.cost unitStats <=? PlayerState.gold player)
         && (PlayerState.currentPop player <? PlayerState.maxPop player)
      then
        let player' :=
          PlayerState.set_currentPop (PlayerState.currentPop player + 1)
            (PlayerState.set_gold
               (PlayerState.gold player - UnitStats.cost unitStats) player) in
        let angle := (rnd * PI * 2)%R in
        let spawnX :=
          (Vector2.x (PlayerState.basePosition player) + cos angle * 2)%R in
        let spawnY :=
          (Vector2.y (PlayerState.basePosition player) + sin angle * 2)%R in
        let unit :=
          Entity.mk newId UNIT spawnX spawnY (UnitStats.hp unitStats)
            (UnitStats.hp unitStats) (UnitStats.radius unitStats) playerId
            None (Some 0%R) None None None None None None None
            (Some (UnitStats.damage unitStats))
            (Some (UnitStats.range unitStats))
            (Some (UnitStats.speed unitStats))
            (Some (unitTypeKey_string unitTypeKey)) in
        GameState.set_entities (GameState.entities s ++ [unit])
          (GameState.set_players
             (<[playerId := player']> (GameState.players s)) s)
      else s
  end.

(** [entities.some(e => |e.x - sx| < 0.8 && |e.y - sy| < 0.8)] *)
Definition occupied (entities : list Entity) (sx sy : R) : bool :=
  existsb (fun e => Rltb (Rabs (Entity.x e - sx)) 0.8
                    && Rltb (Rabs (Entity.y e - sy)) 0.8) entities.

Definition buildHouse (newId : string) (playerId : string) (x y : R)
    (s : GameState) : GameState :=
  match GameState.players s !! playerId with
  | None => s
  | Some player =>
    if PlayerState.defeated player then s
    else
      let houseCost := 50 in
      let sx := snapToTileCoord x in
      let sy := snapToTileCoord y in
      let dist := getDistance (Vector2.mk sx sy) (PlayerState.basePosition player) in
      let occ := occupied (GameState.entities s) sx sy in
      if (houseCost <=? PlayerState.gold player)
         && Rleb dist BUILD_RADIUS && negb occ && isValidTerrain sx sy
      then
        let player' :=
          PlayerState.set_maxPop (PlayerState.maxPop player + 5)
            (PlayerState.set_gold (PlayerState.gold player - houseCost) player) in
        GameState.set_entities
          (GameState.entities s ++ [mkBuilding newId HOUSE sx sy 100 1.0 playerId])
          (GameState.set_players
             (<[playerId := player']> (GameState.players s)) s)
      else s
  end.

Definition buildMine (newId : string) (playerId : string) (x y : R)
    (s : GameState) : GameState :=
  match GameState.players s !! playerId with
  | None => s
  | Some player =>
    if PlayerState.defeated player then s
    else
      let sx := snapToTileCoord x in
      let sy := snapToTileCoord y in
      let dist := getDistance (Vector2.mk sx sy) (PlayerState.basePosition player) in
      let occ := occupied (GameState.entities s) sx sy in
      if (MINE_COST <=? PlayerState.gold player)
         && Rleb dist BUILD_RADIUS && negb occ && isValidTerrain sx sy
      then
        let player' :=
          PlayerState.set_gold (PlayerState.gold player - MINE_COST) player in
        GameState.set_entities
          (GameState.entities s ++ [mkBuilding newId MINE sx sy 150 1.0 playerId])
          (GameState.set_players
             (<[playerId := player']> (GameState.players s)) s)
      else s
  end.

Definition buildWall (newId : string) (playerId : string) (x y : R)
    (s : GameState) : GameState :=
  match GameState.players s !! playerId with
  | None => s
  | Some player =>
    if PlayerState.defeated player then s
    else
      let sx := snapToTileCoord x in
      let sy := snapToTileCoord y in
      let occ := occupied (GameState.entities s) sx sy in
      if (WALL_COST <=? PlayerState.gold player)
         && negb occ && isValidTerrain sx sy
      then
        let player' :=
          PlayerState.set_gold (PlayerState.gold player - WALL_COST) player in
        GameState.set_entities
          (GameState.entities s ++ [mkBuilding newId WALL sx sy 200 0.8 playerId])
          (GameState.set_players
             (<[playerId := player']> (GameState.players s)) s)
      else s
  end.

(** ** Sample session used to exercise the operations

    The state that [createInitialState] builds for one player, and a
    variant in which that player has been defeated. *)

Definition samplePlayer : PlayerState :=
  PlayerState.mk "p1" "Player 1" 100 0 5 (Vector2.mk 10 54) "#3b82f6" false.

Definition sampleState : GameState :=
  GameState.mk {[ "p1" := samplePlayer ]}
    [ mkBuilding "base_p1" BASE 10 54 1000 1.5 "p1";
      mkBuilding "enemy_base" ENEMY_BASE 54 10 4000 2 "enemy" ]
    0 false None 1 (Some 1%nat).

Definition defeatedState : GameState :=
  GameState.mk {[ "p1" := PlayerState.set_defeated true samplePlayer ]}
    [ mkBuilding "enemy_base" ENEMY_BASE 54 10 4000 2 "enemy" ]
    0 true (Some "ZOMBIES") 1 (Some 1%nat).

(** ** The engine: dynamic blocking *)

Definition blockingTypes : list EntityType :=
  [WALL; HOUSE; MINE; BASE; ENEMY_BASE].

Definition isIgnored (ignoreId : option string)
    (ignoreTypes : option (list EntityType)) (e : Entity) : bool :=
  (truthyStr ignoreId && bool_decide (Some (Entity.id e) = ignoreId))
  || bool_decide (Entity.type e ∈ default [] ignoreTypes).

(** Check whether a world position is blocked by an entity. *)
Definition isPositionBlocked (entities : list Entity) (x y : R)
    (ignoreId : option string) (ignoreTypes : option (list EntityType)) : bool :=
  existsb (fun e =>
    negb (isIgnored ignoreId ignoreTypes e)
    && negb (Entity.hp e <=? 0)
    && bool_decide (Entity.type e ∈ blockingTypes)
    && Rltb (getDistance (Vector2.mk x y) (entityPos e))
            (numOr (Entity.radius e) 0.5 + 0.5)) entities.

(** A tile is the pair of its integer coordinates; the source keys its maps
    and sets by the string [`${x},${y}`], which determines the pair. *)
Definition Tile : Type := Z * Z.

Definition inBounds (x y : Z) : bool :=
  (0 <=? x) && (x <? MAP_SIZE) && (0 <=? y) && (y <? MAP_SIZE).

Definition buildBlockedTiles (entities : list Entity)
    (ignoreTypes : option (list EntityType)) (ignoreId : option string)
    : gset Tile :=
  fold_left (fun (blocked : gset Tile) e =>
    if isIgnored ignoreId ignoreTypes e then blocked
    else if Entity.hp e <=? 0 then blocked
    else if bool_decide (Entity.type e ∈ blockingTypes) then
      let tx := Math_floor (Entity.x e) in
      let ty := Math_floor (Entity.y e) in
      if inBounds tx ty then blocked ∪ {[ (tx, ty) ]} else blocked
    else blocked) entities ∅.

(** ** The engine: A* pathfinding on the integer tile grid *)

Definition tileCenter (t : Tile) : Vector2 :=
  Vector2.mk (IZR (fst t) + 0.5) (IZR (snd t) + 0.5).

(** Manhattan distance, in tiles. *)
Definition heuristic (a b : Tile) : Z :=
  Z.abs (fst a - fst b) + Z.abs (snd a - snd b).

Definition neighbors : list Tile :=
  [ (1, 0); (-1, 0); (0, 1); (0, -1); (1, 1); (1, -1); (-1, 1); (-1, -1) ].

(** Step cost in tenths of a tile: 1 for an orthogonal step, 1.4 for a
    diagonal one. *)
Definition stepCost (n : Tile) : Z :=
  if (fst n =? 0) || (snd n =? 0) then 10 else 14.

Module OpenEntry.
Record t : Type := mk { node : Tile; f : Z }.
End OpenEntry.

Module AStar.
Record t : Type := mk {
  openSet : list OpenEntry.t;
  cameFrom : gmap Tile Tile;
  gScore : gmap Tile Z
}.
End AStar.

(** The scan of [popLowest]: the first entry of least [f] and its index. *)
Fixpoint lowestFrom (i : nat) (rest : list OpenEntry.t) (idx : nat)
    (best : OpenEntry.t) : nat * OpenEntry.t :=
  match rest with
  | [] => (idx, best)
  | o :: rest' =>
    if OpenEntry.f o <? OpenEntry.f best
    then lowestFrom (S i) rest' i o
    else lowestFrom (S i) rest' idx best
  end.

Definition popLowest (openSet : list OpenEntry.t)
    : option (OpenEntry.t * list OpenEntry.t) :=
  match openSet with
  | [] => None
  | o0 :: rest =>
    let '(idx, best) := lowestFrom 1 rest 0%nat o0 in
    Some (best, delete idx openSet)
  end.

(** The path reconstruction loop
    [while (curK && curK !== startKey) { path.push(..); curK = cameFrom.get(curK) }].
    [None] means that [fuel] rounds did not reach the end of the loop. *)
Fixpoint reconstructLoop (fuel : nat) (cameFrom : gmap Tile Tile)
    (start : Tile) (curK : option Tile) (path : list Vector2)
    : option (list Vector2) :=
  match curK with
  | None => Some path
  | Some k =>
    if bool_decide (k = start) then Some path
    else
      match fuel with
      | O => None
      | S fuel' =>
        reconstructLoop fuel' cameFrom start (cameFrom !! k)
          (path ++ [tileCenter k])
      end
  end.

(** The g-scores fall by at least one step cost along [cameFrom], so the
    score of the goal bounds the number of rounds of the loop. *)
Definition reconstructFuel (st : AStar.t) (current : Tile) : nat :=
  S (Z.to_nat (default 0 (AStar.gScore st !! current))).

Definition reconstruct (st : AStar.t) (start current : Tile)
    : option (list Vector2) :=
  match reconstructLoop (reconstructFuel st current) (AStar.cameFrom st)
          start (Some current) [] with
  | None => None
  | Some path => Some (rev (path ++ [tileCenter start]))
  end.

Section Pathfinder.

(** [terrain x y] is [this.isValidTerrain(x, y)] on tile coordinates and
    [blocked t] the test made on a neighbour tile other than the goal:
    membership in [blockedTiles], or [isPositionBlocked] at the tile center
    when no set is supplied. *)
Variable terrain : Z -> Z -> bool.
Variable blocked : Tile -> bool.
Variables start goal : Tile.

(** The body of [for (const n of neighbors)].  A missing g-score is
    [Infinity]. *)
Definition relax (current : Tile) (st : AStar.t) (n : Tile) : AStar.t :=
  let nx := fst current + fst n in
  let ny := snd current + snd n in
  if negb (inBounds nx ny) then st
  else if negb (terrain nx ny) then st
  else if negb (bool_decide ((nx, ny) = goal)) && blocked (nx, ny) then st
  else
    match AStar.gScore st !! current with
    | None => st
    | Some gCurrent =>
      let tentativeG := gCurrent + stepCost n in
      let improves :=
        match AStar.gScore st !! (nx, ny) with
        | None => true
        | Some prevG => tentativeG <? prevG
        end in
      if improves then
        let f := tentativeG + 10 * heuristic (nx, ny) goal in
        AStar.mk
          (if existsb (fun o => bool_decide (OpenEntry.node o = (nx, ny)))
                (AStar.openSet st)
           then AStar.openSet st
           else AStar.openSet st ++ [OpenEntry.mk (nx, ny) f])
          (<[(nx, ny) := current]> (AStar.cameFrom st))
          (<[(nx, ny) := tentativeG]> (AStar.gScore st))
      else st
    end.

(** What one round of [while (openSet.length > 0)] leads to. *)
Inductive Outcome : Type :=
  | Returned (result : option (list Vector2))
  | Running (st : AStar.t)
  | ReconstructionUnfinished.

Definition astarStep (st : AStar.t) : Outcome :=
  match popLowest (AStar.openSet st) with
  | None => Returned None
  | Some (lowest, openSet') =>
    let current := OpenEntry.node lowest in
    let st' := AStar.mk openSet' (AStar.cameFrom st) (AStar.gScore st) in
    if bool_decide (current = goal) then
      match reconstruct st' start current with
      | Some path => Returned (Some path)
      | None => ReconstructionUnfinished
      end
    else Running (fold_left (relax current) neighbors st')
  end.

(** [n] rounds of the main loop. *)
Fixpoint iterate (n : nat) (st : AStar.t) : Outcome :=
  match n with
  | O => Running st
  | S n' =>
    match astarStep st with
    | Running st' => iterate n' st'
    | o => o
    end
  end.

(** The same rounds counted in binary, so that a large bound can be run. *)
Fixpoint run (p : positive) (st : AStar.t) : Outcome :=
  match p with
  | xH => astarStep st
  | xO p' =>
    match run p' st with
    | Running st' => run p' st'
    | o => o
    end
  | xI p' =>
    match astarStep st with
    | Running st' =>
      match run p' st' with
      | Running st'' => run p' st''
      | o => o
      end
    | o => o
    end
  end.

Definition initialAStar : AStar.t :=
  AStar.mk [OpenEntry.mk start (10 * heuristic start goal)] ∅ {[ start := 0 ]}.

End Pathfinder.

(** A bound on the number of rounds of the main loop (see
    [findPath_terminates] below). *)
Definition MAX_ROUNDS : positive := 536870912.

Definition tileBlocked (entities : list Entity) (ignoreId : option string)
    (ignoreTypes : option (list EntityType))
    (blockedTiles : option (gset Tile)) (t : Tile) : bool :=
  match blockedTiles with
  | Some tiles => bool_decide (t ∈ tiles)
  | None =>
    isPositionBlocked entities (Vector2.x (tileCenter t))
      (Vector2.y (tileCenter t)) ignoreId ignoreTypes
  end.

(** The search on tiles: what [findPath] does once its arguments have been
    floored. *)
Definition findPathTiles (terrain : Z -> Z -> bool) (blocked : Tile -> bool)
    (start goal : Tile) : Outcome :=
  run terrain blocked start goal MAX_ROUNDS (initialAStar start goal).

Definition findPathOutcome (terrain : Z -> Z -> bool) (entities : list Entity)
    (startX startY goalX goalY : R) (ignoreId : option string)
    (ignoreTypes : option (list EntityType))
    (blockedTiles : option (gset Tile)) : Outcome :=
  let start := (Math_floor startX, Math_floor startY) in
  let goal := (Math_floor goalX, Math_floor goalY) in
  findPathTiles terrain
    (tileBlocked entities ignoreId ignoreTypes blockedTiles) start goal.

(** A* pathfinding with the terrain oracle as a parameter.  Returns the
    list of tile centers, or [None] for [null]. *)
Definition findPathWith (terrain : Z -> Z -> bool) (entities : list Entity)
    (startX startY goalX goalY : R) (ignoreId : option string)
    (ignoreTypes : option (list EntityType))
    (blockedTiles : option (gset Tile)) : option (list Vector2) :=
  match findPathOutcome terrain entities startX startY goalX goalY
          ignoreId ignoreTypes blockedTiles with
  | Returned result => result
  | _ => None
  end.

Definition tileTerrain (x y : Z) : bool := isValidTerrain (IZR x) (IZR y).

Definition findPath : list Entity -> R -> R -> R -> R -> option string ->
    option (list EntityType) -> option (gset Tile) -> option (list Vector2) :=
  findPathWith tileTerrain.

(** ** Vocabulary for the pathfinder's properties *)

(** [b] is one 8-directional step away from [a]. *)
Definition adjacentb (a b : Tile) : bool :=
  bool_decide ((fst b - fst a, snd b - snd a) ∈ neighbors).

(** A sequence of tiles in which each one is adjacent to the next. *)
Fixpoint isGridPath (p : list Tile) : bool :=
  match p with
  | a :: rest =>
    match rest with
    | b :: _ => adjacentb a b && isGridPath rest
    | [] => true
    end
  | [] => true
  end.

(** The cost of a tile sequence under the step costs of the search, in
    tenths of a tile. *)
Fixpoint pathCost (p : list Tile) : Z :=
  match p with
  | a :: rest =>
    match rest with
    | b :: _ => stepCost (fst b - fst a, snd b - snd a) + pathCost rest
    | [] => 0
    end
  | [] => 0
  end.

(** All tiles of the map. *)
Definition gridTiles : gset Tile :=
  list_to_set
    (x ← seqZ 0 MAP_SIZE; (fun y => (x, y)) <$> seqZ 0 MAP_SIZE).

Section PathfinderInvariant.

Variable terrain : Z -> Z -> bool.
Variable blocked : Tile -> bool.
Variables start goal : Tile.

(** What the search checks before it records a tile as a neighbour. *)
Definition passable (t : Tile) : Prop :=
  inBounds (fst t) (snd t) = true /\
  terrain (fst t) (snd t) = true /\
  (t = goal \/ blocked t = false).

(** The invariant of the main loop. *)
Record AStarInv (st : AStar.t) : Prop := {
  inv_start : AStar.gScore st !! start = Some 0;
  inv_nonneg : forall t g, AStar.gScore st !! t = Some g -> 0 <= g;
  inv_came : forall t p,
    AStar.cameFrom st !! t = Some p ->
    t <> start /\ adjacentb p t = true /\ passable t /\
    exists gp gt,
      AStar.gScore st !! p = Some gp /\
      AStar.gScore st !! t = Some gt /\ gp + 10 <= gt;
  inv_dom : forall t,
    is_Some (AStar.gScore st !! t) ->
    t = start \/ is_Some (AStar.cameFrom st !! t);
  inv_open : forall o,
    o ∈ AStar.openSet st -> is_Some (AStar.gScore st !! OpenEntry.node o);
  inv_bound : forall t g,
    AStar.gScore st !! t = Some g ->
    g <= 14 * (Z.of_nat (size (AStar.gScore st)) - 1)
}.

(** [linked k chain]: [chain] is the list of tiles that the reconstruction
    loop pushes when it starts at [k]: [k], its predecessor, and so on up to
    the tile that follows [start]. *)
Fixpoint linked (k : Tile) (chain : list Tile) : Prop :=
  match chain with
  | [] => k = start
  | t :: rest =>
    t = k /\ k <> start /\ passable k /\
    exists p, adjacentb p k = true /\ linked p rest
  end.

End PathfinderInvariant.

(** The sum of the g-scores, and the quantity that falls in every round of
    the main loop. *)
Definition gsum (g : gmap Tile Z) : Z :=
  map_fold (fun _ v acc => v + acc) 0 g.

Definition GRID_NODES : Z := MAP_SIZE * MAP_SIZE + 1.
Definition G_LIMIT : Z := 14 * GRID_NODES + 1.

Definition astarMeasure (st : AStar.t) : Z :=
  2 * (gsum (AStar.gScore st)
       + G_LIMIT * (GRID_NODES - Z.of_nat (size (AStar.gScore st))))
  + Z.of_nat (length (AStar.openSet st)).

(** ** The engine: tuning constants and small helpers *)

Definition PATH_RECALC_INTERVAL : R := 0.4.
Definition ATTACK_RANGE_BUFFER : R := 0.05.
Definition WALL_TARGET_MAX_DISTANCE : R := 5.
Definition WALL_BLOCK_TOLERANCE : R := 0.75.
Definition WALL_BREAK_CLOSE_DISTANCE : R := 2.5.

Definition getFacingFromVector (dx dy : R) : Z :=
  if Rltb (dx - dy) 0 then -1 else 1.

Fixpoint getPathLength (path : list Vector2) : R :=
  match path with
  | a :: rest =>
    match rest with
    | b :: _ => (getDistance a b + getPathLength rest)%R
    | [] => 0%R
    end
  | [] => 0%R
  end.

(** ** The engine: finders

    The entity list is an array of objects; a finder returns the position of
    the object it found, [None] for [undefined].  The running minimum of a
    scan, [(best, bestDist)], starts as [(undefined, Infinity)]. *)

Definition indexed (entities : list Entity) : list (nat * Entity) :=
  imap (fun i e => (i, e)) entities.

Definition closer (d : R) (best : option (nat * R)) : bool :=
  match best with
  | None => true
  | Some (_, bestDist) => Rltb d bestDist
  end.

(** [entities.find(p)] *)
Definition findIndex (p : Entity -> bool) (entities : list Entity) : option nat :=
  fst <$> List.find (fun ie => p (snd ie)) (indexed entities).

Definition findClosestTarget (entities : list Entity) (source : Vector2)
    (targetOwners : list string) (excludeTypes : option (list EntityType))
    : option nat :=
  let excluded := default [] excludeTypes in
  fst <$>
  fold_left (fun (closest : option (nat * R)) (ie : nat * Entity) =>
    let e := snd ie in
    if bool_decide (Entity.ownerId e ∈ targetOwners) && (0 <? Entity.hp e) then
      if bool_decide (Entity.type e ∈ excluded) then closest
      else
        let d := getDistance source (entityPos e) in
        if closer d closest then Some (fst ie, d) else closest
    else closest) (indexed entities) None.

Definition wallRadiusOf (wall : Entity) : R := numOr (Entity.radius wall) 0.8.

Definition isLiveWall (e : Entity) : bool :=
  bool_decide (Entity.type e = WALL) && (0 <? Entity.hp e).

Definition findBlockingWall (entities : list Entity) (source target : Vector2)
    : option nat :=
  let walls := List.filter (fun ie => isLiveWall (snd ie)) (indexed entities) in
  if (length walls =? 0)%nat then None
  else
    let ax := Vector2.x source in
    let ay := Vector2.y source in
    let bx := Vector2.x target in
    let b_y := Vector2.y target in
    let distToTarget := getDistance source target in
    fst <$>
    fold_left (fun (best : option (nat * R)) (iw : nat * Entity) =>
      let wall := snd iw in
      let distToWall := getDistance source (entityPos wall) in
      if Rltb WALL_TARGET_MAX_DISTANCE distToWall then best
      else if Rleb distToTarget distToWall then best
      else
        let wallRadius := wallRadiusOf wall in
        let lineDist :=
          distancePointToSegment (Entity.x wall) (Entity.y wall) ax ay bx b_y in
        if Rltb (wallRadius + WALL_BLOCK_TOLERANCE) lineDist then best
        else if closer distToWall best then Some (fst iw, distToWall)
        else best) walls None.

Definition findNearestWall (entities : list Entity) (source : Vector2)
    (maxDistance : R) : option nat :=
  fst <$>
  fold_left (fun (best : option (nat * R)) (iw : nat * Entity) =>
    let wall := snd iw in
    if negb (bool_decide (Entity.type wall = WALL)) || (Entity.hp wall <=? 0)
    then best
    else
      let dist := getDistance source (entityPos wall) in
      if Rleb dist maxDistance && closer dist best then Some (fst iw, dist)
      else best) (indexed entities) None.

(** ** JavaScript numbers as doubles

    IEEE 754 binary64 arithmetic with rounding to nearest, ties to even, as
    the Standard Library specifies it on [spec_float]. *)

Module Double.

Definition prec : Z := 53.
Definition emax : Z := 1024.

(** The double nearest to an integer; exact below 2^53. *)
Definition ofZ (z : Z) : spec_float := binary_normalize prec emax z 0 false.

Definition add : spec_float -> spec_float -> spec_float := SFadd prec emax.
Definition sub : spec_float -> spec_float -> spec_float := SFsub prec emax.
Definition mul : spec_float -> spec_float -> spec_float := SFmul prec emax.
Definition div : spec_float -> spec_float -> spec_float := SFdiv prec emax.

(** The literal [0.3]: the double nearest to 3/10. *)
Definition c0_3 : spec_float := div (ofZ 3) (ofZ 10).

(** [Math.floor] of a finite double.  Of an infinity or a NaN it is no
    integer, which the integer fields of this model cannot hold; the
    products below are finite for all counts smaller than 2^500 in size,
    and the result is given as 0 beyond. *)
Definition floor (v : spec_float) : Z :=
  match v with
  | S754_zero _ => 0
  | S754_finite sign m e =>
    let n := if sign then Z.neg m else Z.pos m in
    if 0 <=? e then n * 2 ^ e else n / 2 ^ (- e)
  | S754_infinity _ | S754_nan => 0
  end.

End Double.

(** ** The engine: zombie waves

    The strength of a zombie is the floor of a product of doubles;
    [playerCount] and the wave number are integers. *)

Definition spawnZombie (playerCount : Z) (newId : string) (rnd : R)
    (s : GameState) : GameState :=
  match List.find (fun e => bool_decide (Entity.type e = ENEMY_BASE))
          (GameState.entities s) with
  | None => s
  | Some enemyBase =>
    let waveNumber := Double.ofZ (GameState.waveNumber s) in
    let playerMultiplier :=
      Double.add (Double.ofZ 1)
        (Double.mul (Double.sub (Double.ofZ playerCount) (Double.ofZ 1))
           Double.c0_3) in
    let hp :=
      Double.floor
        (Double.mul
           (Double.add (Double.ofZ 30) (Double.mul waveNumber (Double.ofZ 5)))
           playerMultiplier) in
    let damage :=
      Double.floor
        (Double.mul
           (Double.add (Double.ofZ 5) (Double.mul waveNumber (Double.ofZ 1)))
           playerMultiplier) in
    let angle := (rnd * PI * 2)%R in
    let spawnX := (Entity.x enemyBase + cos angle * 2)%R in
    let spawnY := (Entity.y enemyBase + sin angle * 2)%R in
    GameState.set_entities
      (GameState.entities s ++
         [Entity.mk newId ZOMBIE spawnX spawnY hp hp 0.4 "enemy"
            None (Some 0%R) None None None None None None None
            (Some damage) (Some 0.8%R) (Some 0.8%R) None]) s
  end.

(** [Math.ceil(playerCount * 1.5)] zombies; [rnds] supplies the generated id
    and the random number of each of them. *)
Definition spawnZombieWave (playerCount : Z) (rnds : nat -> string * R)
    (s : GameState) : GameState :=
  let zombiesToSpawn := Z.to_nat (- Math_floor (- (IZR playerCount * 1.5))) in
  fold_left (fun s i => spawnZombie playerCount (fst (rnds i)) (snd (rnds i)) s)
    (seq 0 zombiesToSpawn) s.

(** ** The engine: the tick

    During the per-entity loop the entity list is a store of mutable
    objects: [getE es i] reads object [i] and [modE i f es] assigns to its
    fields.  The entity being updated and its target are positions in that
    store, so that an assignment to one is seen through the other when they
    are the same object. *)

Definition noEntity : Entity :=
  Entity.mk "" UNIT 0 0 0 0 0 ""
    None None None None None None None None None None None None None.

Definition getE (es : list Entity) (i : nat) : Entity :=
  default noEntity (es !! i).

Definition modE (i : nat) (f : Entity -> Entity) (es : list Entity)
    : list Entity :=
  alter f i es.

(** [entity.attackCooldown -= deltaTime] while it is positive. *)
Definition tickCooldown (deltaTime : R) (i : nat) (es : list Entity)
    : list Entity :=
  match Entity.attackCooldown (getE es i) with
  | Some c =>
    if negb (Reqb c 0) && Rltb 0 c
    then modE i (Entity.set_attackCooldown (Some (c - deltaTime)%R)) es
    else es
  | None => es
  end.

(** [entities.find(e => e.id === entity.targetId && e.hp > 0)] *)
Definition findLockedTarget (es : list Entity) (targetId : option string)
    : option nat :=
  findIndex (fun e => bool_decide (Some (Entity.id e) = targetId)
                      && (0 <? Entity.hp e)) es.

Definition allPlayerIds (players : gmap string PlayerState) : list string :=
  fst <$> map_to_list players.

Definition acquireTarget (players : gmap string PlayerState) (i : nat)
    (es : list Entity) : option nat :=
  let entity := getE es i in
  if bool_decide (Entity.type entity = ZOMBIE) then
    match findClosestTarget es (entityPos entity) (allPlayerIds players)
            (Some [WALL]) with
    | Some primaryTarget =>
      let lockedTarget :=
        if truthyStr (Entity.targetId entity)
        then findLockedTarget es (Entity.targetId entity)
        else None in
      match lockedTarget with
      | Some l =>
        if bool_decide (Entity.type (getE es l) = WALL) then Some l
        else Some primaryTarget
      | None => Some primaryTarget
      end
    | None => None
    end
  else findClosestTarget es (entityPos entity) ["enemy"] None.

(** The moving entity gives up its path after a blocked step; a zombie
    locks onto a wall that is very close. *)
Definition onBlockedStep (i : nat) (es : list Entity) : list Entity :=
  let es := modE i (Entity.set_vx (Some 0%R)) es in
  let es := modE i (Entity.set_vy (Some 0%R)) es in
  let es := modE i (Entity.set_path None) es in
  let es := modE i (Entity.set_pathIndex None) es in
  let es := modE i (Entity.set_pathCooldown (Some PATH_RECALC_INTERVAL)) es in
  if bool_decide (Entity.type (getE es i) = ZOMBIE) then
    match findNearestWall es (entityPos (getE es i)) WALL_BREAK_CLOSE_DISTANCE with
    | Some nearbyWall =>
      let es := modE i (Entity.set_targetId
                          (Some (Entity.id (getE es nearbyWall)))) es in
      modE i (Entity.set_pathCooldown (Some 0%R)) es
    | None => es
    end
  else es.

(** The committed move of both movement branches. *)
Definition moveTo (i : nat) (newX newY dx dy length : R) (es : list Entity)
    : list Entity :=
  let es := modE i (Entity.set_x newX) es in
  let es := modE i (Entity.set_y newY) es in
  let es := modE i (Entity.set_vx (Some (dx / length)%R)) es in
  let es := modE i (Entity.set_vy (Some (dy / length)%R)) es in
  modE i (Entity.set_facing (Some (getFacingFromVector dx dy))) es.

Definition ignoreTypesOf (entity : Entity) : option (list EntityType) :=
  if bool_decide (Entity.type entity = ZOMBIE) then Some [ENEMY_BASE] else None.

Definition speedOf (entity : Entity) : R :=
  Rmax 0.1 (numOr (default 0%R (Entity.speed entity)) 1).

(** Path (re)planning, entered when [needsNewPath && pathCooldown <= 0].
    Returns the store and the target pursued from now on. *)
Definition planPath (blockedTiles : gset Tile) (i target : nat)
    (es : list Entity) : list Entity * nat :=
  let entity := getE es i in
  let speed := speedOf entity in
  let ignoreTypes := ignoreTypesOf entity in
  let pathTo (goal : nat) :=
    findPath es (Entity.x entity) (Entity.y entity)
      (Entity.x (getE es goal)) (Entity.y (getE es goal))
      (Some (Entity.id entity)) ignoreTypes (Some blockedTiles) in
  let path0 := pathTo target in
  let directTime :=
    (getDistance (entityPos entity) (entityPos (getE es target)) / speed)%R in
  let '(desiredTarget, path) :=
    if bool_decide (Entity.type entity = ZOMBIE)
       && negb (bool_decide (Entity.type (getE es target) = WALL))
    then
      let '(desired1, path1) :=
        match findBlockingWall es (entityPos entity)
                (entityPos (getE es target)) with
        | Some wallTarget =>
          let distToWall :=
            getDistance (entityPos entity) (entityPos (getE es wallTarget)) in
          let shouldBreakWall :=
            match path0 with
            | None => true
            | Some p =>
              Rltb (directTime * 1.25) (getPathLength p / speed)
              || Rleb distToWall WALL_BREAK_CLOSE_DISTANCE
            end in
          if shouldBreakWall then (wallTarget, pathTo wallTarget)
          else (target, path0)
        | None => (target, path0)
        end in
      match path1 with
      | None =>
        match findNearestWall es (entityPos entity) WALL_TARGET_MAX_DISTANCE with
        | Some nearbyWall => (nearbyWall, pathTo nearbyWall)
        | None => (desired1, path1)
        end
      | Some _ => (desired1, path1)
      end
    else (target, path0) in
  let es :=
    match path with
    | Some (w :: p) =>
      modE i (Entity.set_pathIndex (Some 0%nat))
        (modE i (Entity.set_path (Some (w :: p))) es)
    | _ =>
      modE i (Entity.set_pathIndex None) (modE i (Entity.set_path None) es)
    end in
  let es :=
    modE i (Entity.set_targetId (Some (Entity.id (getE es desiredTarget)))) es in
  let es := modE i (Entity.set_pathCooldown (Some PATH_RECALC_INTERVAL)) es in
  (es, desiredTarget).

(** The attack branch. *)
Definition attack (i target : nat) (es : list Entity) : list Entity :=
  let dx := (Entity.x (getE es target) - Entity.x (getE es i))%R in
  let dy := (Entity.y (getE es target) - Entity.y (getE es i))%R in
  let es := modE i (Entity.set_vx (Some 0%R)) es in
  let es := modE i (Entity.set_vy (Some 0%R)) es in
  let es := modE i (Entity.set_facing (Some (getFacingFromVector dx dy))) es in
  let es := modE i (Entity.set_path None) es in
  let es := modE i (Entity.set_pathIndex None) es in
  let ready :=
    match Entity.attackCooldown (getE es i) with
    | None => true
    | Some c => Reqb c 0 || Rleb c 0
    end in
  if ready then
    let es :=
      modE target (Entity.set_hp
                     (Entity.hp (getE es target)
                      - default 0 (Entity.damage (getE es i)))) es in
    let es :=
      modE target (Entity.set_lastAttackerId
                     (Some (Entity.ownerId (getE es i)))) es in
    modE i (Entity.set_attackCooldown (Some 1%R)) es
  else es.

(** Following the next waypoint of the path. *)
Definition followPath (deltaTime speed : R) (i : nat) (waypoint : Vector2)
    (es : list Entity) : list Entity :=
  let entity := getE es i in
  let dx := (Vector2.x waypoint - Entity.x entity)%R in
  let dy := (Vector2.y waypoint - Entity.y entity)%R in
  let length := sqrt (dx * dx + dy * dy) in
  if Rltb 0 length then
    let moveStep := (speed * deltaTime)%R in
    let step := Rmin moveStep length in
    let stepX := (dx / length * step)%R in
    let stepY := (dy / length * step)%R in
    let newX := (Entity.x entity + stepX)%R in
    let newY := (Entity.y entity + stepY)%R in
    let es :=
      if isValidTerrain newX newY
         && negb (isPositionBlocked es newX newY (Some (Entity.id entity))
                    (ignoreTypesOf entity))
      then moveTo i newX newY dx dy length es
      else onBlockedStep i es in
    if Rltb (sqrt ((Vector2.x waypoint - Entity.x (getE es i)) ^ 2
                   + (Vector2.y waypoint - Entity.y (getE es i)) ^ 2)) 0.2
    then modE i (Entity.set_pathIndex
                   (Some (S (default 0%nat (Entity.pathIndex (getE es i)))))) es
    else es
  else es.

(** Direct movement towards the target when there is no path. *)
Definition moveDirect (deltaTime speed : R) (i target : nat)
    (es : list Entity) : list Entity :=
  let entity := getE es i in
  let dx := (Entity.x (getE es target) - Entity.x entity)%R in
  let dy := (Entity.y (getE es target) - Entity.y entity)%R in
  let length := sqrt (dx * dx + dy * dy) in
  if Rltb 0 length then
    let moveSpeed := (speed * deltaTime)%R in
    let vx := (dx / length * moveSpeed)%R in
    let vy := (dy / length * moveSpeed)%R in
    let newX := (Entity.x entity + vx)%R in
    let newY := (Entity.y entity + vy)%R in
    if isValidTerrain newX newY
       && negb (isPositionBlocked es newX newY (Some (Entity.id entity))
                  (ignoreTypesOf entity))
    then moveTo i newX newY dx dy length es
    else onBlockedStep i es
  else es.

(** The three-way choice between attacking, following the path and moving
    directly; [dist] and [effectiveTargetRadius] were measured before the
    target was possibly replaced. *)
Definition actOn (deltaTime speed dist effectiveTargetRadius : R)
    (i target : nat) (es : list Entity) : list Entity :=
  let entity := getE es i in
  let range := default 0%R (Entity.range entity) in
  if truthyNum (Entity.range entity)
     && Rleb dist (range + effectiveTargetRadius + ATTACK_RANGE_BUFFER)
  then attack i target es
  else
    match Entity.path entity, Entity.pathIndex entity with
    | Some path, Some pathIndex =>
      match path !! pathIndex with
      | Some waypoint => followPath deltaTime speed i waypoint es
      | None =>
        if truthyNum (Entity.range entity)
           && Rltb (range + effectiveTargetRadius) dist
        then moveDirect deltaTime speed i target es
        else es
      end
    | _, _ =>
      if truthyNum (Entity.range entity)
         && Rltb (range + effectiveTargetRadius) dist
      then moveDirect deltaTime speed i target es
      else es
    end.

(** The body of [if (target) { ... }]. *)
Definition pursue (deltaTime : R) (players : gmap string PlayerState)
    (blockedTilesDefault blockedTilesIgnoreEnemyBase : gset Tile)
    (i target : nat) (es : list Entity) : list Entity :=
  let speed := speedOf (getE es i) in
  let isZombie := bool_decide (Entity.type (getE es i) = ZOMBIE) in
  let blockedTiles :=
    if isZombie then blockedTilesIgnoreEnemyBase else blockedTilesDefault in
  let es :=
    modE i (Entity.set_pathCooldown
              (Some (Rmax 0 (default 0%R (Entity.pathCooldown (getE es i))
                             - deltaTime)))) es in
  let entity := getE es i in
  let needsNewPath :=
    match Entity.path entity, Entity.pathIndex entity with
    | Some path, Some pathIndex =>
      negb (bool_decide (Entity.targetId entity
                         = Some (Entity.id (getE es target))))
      || (length path <=? pathIndex)%nat
    | _, _ => true
    end in
  let '(es, target) :=
    if needsNewPath && Rleb (default 0%R (Entity.pathCooldown entity)) 0
    then planPath blockedTiles i target es
    else if truthyStr (Entity.targetId entity)
            && negb (bool_decide (Entity.targetId entity
                                  = Some (Entity.id (getE es target))))
    then
      match findLockedTarget es (Entity.targetId entity) with
      | Some lockedTarget => (es, lockedTarget)
      | None => (es, target)
      end
    else (es, target) in
  let dist := getDistance (entityPos (getE es i)) (entityPos (getE es target)) in
  let targetRadius := Entity.radius (getE es target) in
  let effectiveTargetRadius :=
    if bool_decide (Entity.type (getE es target) = WALL)
    then Rmin targetRadius 0.6 else targetRadius in
  if bool_decide (Entity.type (getE es target) = WALL)
     && Rltb WALL_TARGET_MAX_DISTANCE dist
  then
    let es := modE i (Entity.set_targetId None) es in
    let es := modE i (Entity.set_path None) es in
    let es := modE i (Entity.set_pathIndex None) es in
    let es := modE i (Entity.set_pathCooldown (Some 0%R)) es in
    if isZombie then
      match findClosestTarget es (entityPos (getE es i))
              (allPlayerIds players) (Some [WALL]) with
      | None => es
      | Some primaryTarget =>
        actOn deltaTime speed dist effectiveTargetRadius i primaryTarget es
      end
    else es
  else actOn deltaTime speed dist effectiveTargetRadius i target es.

(** The callback of [this.state.entities.forEach]. *)
Definition entityStep (deltaTime : R) (players : gmap string PlayerState)
    (blockedTilesDefault blockedTilesIgnoreEnemyBase : gset Tile)
    (es : list Entity) (i : nat) : list Entity :=
  let es := tickCooldown deltaTime i es in
  let entity := getE es i in
  if bool_decide (Entity.type entity = UNIT)
     || bool_decide (Entity.type entity = ZOMBIE)
  then
    match acquireTarget players i es with
    | Some target =>
      pursue deltaTime players blockedTilesDefault
        blockedTilesIgnoreEnemyBase i target es
    | None => es
    end
  else es.

(** The callback of the removal [filter]: the player map after the entity
    has been looked at, and whether the entity is kept. *)
Definition sweepEntity (players : gmap string PlayerState) (e : Entity)
    : gmap string PlayerState * bool :=
  if Entity.hp e <=? 0 then
    let players :=
      if bool_decide (Entity.type e = ZOMBIE)
         && truthyStr (Entity.lastAttackerId e)
      then
        match players !! default "" (Entity.lastAttackerId e) with
        | Some killer =>
          if negb (PlayerState.defeated killer)
          then <[default "" (Entity.lastAttackerId e) :=
                   PlayerState.set_gold
                     (PlayerState.gold killer + ZOMBIE_BOUNTY) killer]> players
          else players
        | None => players
        end
      else players in
    let players :=
      if bool_decide (Entity.type e = BASE)
         && negb (String.eqb (Entity.ownerId e) "")
      then
        match players !! Entity.ownerId e with
        | Some owner =>
          <[Entity.ownerId e := PlayerState.set_defeated true owner]> players
        | None => players
        end
      else players in
    let players :=
      if bool_decide (Entity.type e = UNIT) then
        match players !! Entity.ownerId e with
        | Some owner =>
          <[Entity.ownerId e :=
              PlayerState.set_currentPop
                (Z.max 0 (PlayerState.currentPop owner - 1)) owner]> players
        | None => players
        end
      else players in
    (players, false)
  else (players, true).

Fixpoint sweep (players : gmap string PlayerState) (es : list Entity)
    : gmap string PlayerState * list Entity :=
  match es with
  | [] => (players, [])
  | e :: rest =>
    let '(players', keep) := sweepEntity players e in
    let '(players'', kept) := sweep players' rest in
    (players'', if keep then e :: kept else kept)
  end.

(** The per-entity loop of [update]. *)
Definition updateEntities (deltaTime : R) (s : GameState) : list Entity :=
  let entities := GameState.entities s in
  let blockedTilesDefault := buildBlockedTiles entities None None in
  let blockedTilesIgnoreEnemyBase :=
    buildBlockedTiles entities (Some [ENEMY_BASE]) None in
  fold_left
    (entityStep deltaTime (GameState.players s) blockedTilesDefault
       blockedTilesIgnoreEnemyBase)
    (seq 0 (length entities)) entities.

(** Check for game over conditions. *)
Definition checkGameOver (s : GameState) : GameState :=
  let remainingPlayerBases :=
    List.filter (fun e => bool_decide (Entity.type e = BASE))
      (GameState.entities s) in
  let enemyBase :=
    List.find (fun e => String.eqb (Entity.id e) "enemy_base")
      (GameState.entities s) in
  if (length remainingPlayerBases =? 0)%nat then
    GameState.set_winner (Some "ZOMBIES") (GameState.set_gameOver true s)
  else
    match enemyBase with
    | None =>
      GameState.set_winner (Some "PLAYERS") (GameState.set_gameOver true s)
    | Some _ => s
    end.

Definition update (deltaTime : R) (s : GameState) : GameState :=
  if GameState.gameOver s then s
  else
    let '(players, entities) :=
      sweep (GameState.players s) (updateEntities deltaTime s) in
    checkGameOver
      (GameState.set_entities entities (GameState.set_players players s)).

(** ** Vocabulary for the properties of the tick *)

(** The fields that no operation assigns after an entity has been created. *)
Definition sameIdentity (e e' : Entity) : Prop :=
  Entity.id e' = Entity.id e /\ Entity.type e' = Entity.type e /\
  Entity.ownerId e' = Entity.ownerId e /\ Entity.maxHp e' = Entity.maxHp e /\
  Entity.radius e' = Entity.radius e /\ Entity.damage e' = Entity.damage e /\
  Entity.range e' = Entity.range e /\ Entity.speed e' = Entity.speed e /\
  Entity.unitType e' = Entity.unitType e.

Definition samePlace (e e' : Entity) : Prop :=
  Entity.x e' = Entity.x e /\ Entity.y e' = Entity.y e.

(** Units and zombies are the animate entities. *)
Definition isAnimate (e : Entity) : bool :=
  bool_decide (Entity.type e = UNIT) || bool_decide (Entity.type e = ZOMBIE).

(** [es'] is the store [es] after the callback has run for object [i]: the
    same objects, none of them moved except possibly object [i]. *)
Definition stepFrame (i : nat) (es es' : list Entity) : Prop :=
  length es' = length es /\
  forall k e, es !! k = Some e ->
    exists e', es' !! k = Some e' /\ sameIdentity e e' /\
               (k <> i -> samePlace e e').

(** [es'] is the store [es] after some rounds of the loop: the same
    objects, the immobile ones where they were. *)
Definition loopFrame (es es' : list Entity) : Prop :=
  length es' = length es /\
  forall k e, es !! k = Some e ->
    exists e', es' !! k = Some e' /\ sameIdentity e e' /\
               (isAnimate e = false -> samePlace e e').

Definition keepsIdentity (f : Entity -> Entity) : Prop :=
  forall e, sameIdentity e (f e).

Definition keepsPlace (f : Entity -> Entity) : Prop :=
  forall e, samePlace e (f e).

(** ** Sessions: the operations a driver applies to the state *)

Inductive Operation : Type :=
  | OpUpdate (deltaTime : R)
  | OpSpawnUnit (newId : string) (rnd : R) (playerId : string)
      (unitTypeKey : UnitTypeKey)
  | OpBuildHouse (newId : string) (playerId : string) (x y : R)
  | OpBuildMine (newId : string) (playerId : string) (x y : R)
  | OpBuildWall (newId : string) (playerId : string) (x y : R)
  | OpSpawnZombie (playerCount : Z) (newId : string) (rnd : R).

Definition applyOp (s : GameState) (op : Operation) : GameState :=
  match op with
  | OpUpdate deltaTime => update deltaTime s
  | OpSpawnUnit newId rnd playerId k => spawnUnit newId rnd playerId k s
  | OpBuildHouse newId playerId x y => buildHouse newId playerId x y s
  | OpBuildMine newId playerId x y => buildMine newId playerId x y s
  | OpBuildWall newId playerId x y => buildWall newId playerId x y s
  | OpSpawnZombie playerCount newId rnd => spawnZombie playerCount newId rnd s
  end.

(** The states of a session: the initial state of some player count, and
    whatever the operations make of it. *)
Definition reachable (s : GameState) : Prop :=
  exists now playerCount lobbyPlayers s0 ops,
    createInitialState now playerCount lobbyPlayers = Some s0 /\
    s = fold_left applyOp ops s0.

(** Every player of [players] is still there in [players'], and still
    defeated if it was. *)
Definition keepsDefeated (players players' : gmap string PlayerState) : Prop :=
  forall pid p, players !! pid = Some p ->
    exists p', players' !! pid = Some p' /\
               (PlayerState.defeated p = true -> PlayerState.defeated p' = true).

(** The winner tag and the game-over flag agree, and the tag names one
    side at most. *)
Definition verdictConsistent (s : GameState) : Prop :=
  (GameState.gameOver s = false /\ GameState.winner s = None) \/
  (GameState.gameOver s = true /\ GameState.winner s = Some "ZOMBIES") \/
  (GameState.gameOver s = true /\ GameState.winner s = Some "PLAYERS").

(** ** Vocabulary for the finders *)

(** One round of a nearest-candidate scan: a candidate ([ok]) replaces the
    running best when its distance ([key]) is strictly smaller. *)
Definition scanStep (ok : Entity -> bool) (key : Entity -> R)
    (best : option (nat * R)) (ie : nat * Entity) : option (nat * R) :=
  if ok (snd ie) then
    if closer (key (snd ie)) best then Some (fst ie, key (snd ie)) else best
  else best.

(** The walls that [findBlockingWall] may return: live, within the search
    radius of the attacker, strictly closer to it than the target, and
    within their effective radius plus the tolerance of the segment from the
    attacker to the target. *)
Definition isBlockingCandidate (source target : Vector2) (wall : Entity) : bool :=
  isLiveWall wall
  && Rleb (getDistance source (entityPos wall)) WALL_TARGET_MAX_DISTANCE
  && Rltb (getDistance source (entityPos wall)) (getDistance source target)
  && Rleb (distancePointToSegment (Entity.x wall) (Entity.y wall)
             (Vector2.x source) (Vector2.y source)
             (Vector2.x target) (Vector2.y target))
          (wallRadiusOf wall + WALL_BLOCK_TOLERANCE).

(** A wall whose radius field is 0, one tile above the attacker. *)
Definition thinWall : Entity := mkBuilding "w1" WALL 0 1 200 0 "p1".

(** What a scan has found after it has gone through [seen]. *)
Definition scanned (ok : Entity -> bool) (key : Entity -> R)
    (seen : list (nat * Entity)) (best : option (nat * R)) : Prop :=
  match best with
  | Some (i, d) =>
    exists w, (i, w) ∈ seen /\ ok w = true /\ d = key w /\
              forall j w', (j, w') ∈ seen -> ok w' = true -> (d <= key w')%R
  | None => forall j w', (j, w') ∈ seen -> ok w' = false
  end.

(** ** utils/isometric.ts: screen projection *)




(** ** Vocabulary for the economy operations *)

(** Where a building may stand: on a tile center, on valid terrain, and with
    no entity of the list within 0.8 of it in both coordinates. *)
Definition wellPlaced (entities : list Entity) (b : Entity) : Prop :=
  (exists tx ty : Z,
      Entity.x b = (IZR tx + 0.5)%R /\ Entity.y b = (IZR ty + 0.5)%R) /\
  isValidTerrain (Entity.x b) (Entity.y b) = true /\
  Forall (fun e => ~ ((Rabs (Entity.x e - Entity.x b) < 0.8)%R /\
                      (Rabs (Entity.y e - Entity.y b) < 0.8)%R)) entities.

(** The state after a player has paid for a new entity. *)
Definition withPurchase (playerId : string) (player' : PlayerState)
    (b : Entity) (s : GameState) : GameState :=
  GameState.set_entities (GameState.entities s ++ [b])
    (GameState.set_players (<[playerId := player']> (GameState.players s)) s).

(** ** components/GameCanvas.tsx: the host's timers

    The passive gold timer: unless the game is over, every player receives
    the passive amount plus the mine income for each mine it owns. *)

Definition PASSIVE_GOLD_AMOUNT : Z := 50.
Definition MINE_INCOME : Z := 50.

Definition mineCount (entities : list Entity) (p : PlayerState) : Z :=
  Z.of_nat (length (List.filter
                      (fun e => bool_decide (Entity.type e = MINE)
                                && String.eqb (Entity.ownerId e) (PlayerState.id p))
                      entities)).

Definition passiveGoldTick (s : GameState) : GameState :=
  if GameState.gameOver s then s
  else
    GameState.set_players
      ((fun p =>
          let income := PASSIVE_GOLD_AMOUNT in
          let income := income + mineCount (GameState.entities s) p * MINE_INCOME in
          PlayerState.set_gold (PlayerState.gold p + income) p)
       <$> GameState.players s) s.

(** The zombie timer: unless the game is over, spawn a wave. *)
Definition zombieTimerTick (playerCount : Z) (rnds : nat -> string * R)
    (s : GameState) : GameState :=
  if GameState.gameOver s then s else spawnZombieWave playerCount rnds s.

(** ** Vocabulary for the economy invariants *)

(** A player's account is sound: gold and population are not negative and
    the population is within its cap. *)
Definition soundAccount (p : PlayerState) : Prop :=
  0 <= PlayerState.gold p /\
  0 <= PlayerState.currentPop p <= PlayerState.maxPop p.

Definition soundAccounts (players : gmap string PlayerState) : Prop :=
  forall pid p, players !! pid = Some p -> soundAccount p.

(** What the removal sweep may do to the players: nobody is removed or
    added, and for each player gold does not fall, a non-negative population
    does not rise and stays non-negative, and the cap is untouched. *)
Definition sweepMonotone (players players' : gmap string PlayerState) : Prop :=
  forall pid,
    match players !! pid with
    | Some p =>
      exists p', players' !! pid = Some p' /\
        PlayerState.gold p <= PlayerState.gold p' /\
        (0 <= PlayerState.currentPop p ->
         0 <= PlayerState.currentPop p' <= PlayerState.currentPop p) /\
        PlayerState.maxPop p' = PlayerState.maxPop p /\
        PlayerState.id p' = PlayerState.id p /\
        PlayerState.basePosition p' = PlayerState.basePosition p
    | None => players' !! pid = None
    end.

(** The sample session after the base of player 1 has been destroyed, before
    the sweep has seen it. *)
Definition fallenBaseState : GameState :=
  GameState.mk {[ "p1" := samplePlayer ]}
    [ Entity.set_hp 0 (mkBuilding "base_p1" BASE 10 54 1000 1.5 "p1");
      mkBuilding "enemy_base" ENEMY_BASE 54 10 4000 2 "enemy" ]
    0 false None 1 (Some 1%nat).

(** ** Vocabulary for the completeness of the search *)

Section PathfinderCompleteness.

Variable terrain : Z -> Z -> bool.
Variable blocked : Tile -> bool.
Variable goal : Tile.

(** A tile is open when an entry of the open list names it. *)
Definition isOpen (st : AStar.t) (t : Tile) : Prop :=
  exists o, o ∈ AStar.openSet st /\ OpenEntry.node o = t.

Definition isScored (st : AStar.t) (t : Tile) : Prop :=
  is_Some (AStar.gScore st !! t).

(** Every passable neighbour of [t] has a g-score. *)
Definition neighborsScored (st : AStar.t) (t : Tile) : Prop :=
  forall n, n ∈ neighbors ->
    passable terrain blocked goal (fst t + fst n, snd t + snd n) ->
    isScored st (fst t + fst n, snd t + snd n).

(** What the main loop keeps besides [AStarInv]: a scored tile waits in the
    open list or has had its neighbours looked at, and the goal, once
    scored, waits in the open list. *)
Record Explored (st : AStar.t) : Prop := {
  exp_scored : forall t, isScored st t -> isOpen st t \/ neighborsScored st t;
  exp_goal : isScored st goal -> isOpen st goal
}.

End PathfinderCompleteness.

(** A route from [start] to [goal]: a sequence of tiles that begins with
    [start] and ends with [goal], in which each tile is one 8-directional
    step from the one before it and every tile after the first is in
    bounds, on valid terrain and, unless it is the goal, not blocked. *)
Definition isRoute (terrain : Z -> Z -> bool) (blocked : Tile -> bool)
    (start goal : Tile) (tiles : list Tile) : Prop :=
  head tiles = Some start /\
  last tiles = Some goal /\
  isGridPath tiles = true /\
  Forall (passable terrain blocked goal) (tail tiles).

(** ** services/NetworkManager.ts: player ids of the connected peers

    The part of the manager's state that the id bookkeeping reads and
    writes: the map from peer id to player id and the counter of the next
    player number.  The host is always p1, so the counter starts at 2. *)

Module NetworkManager.

Record t : Type := mk {
  peerToPlayer : gmap string string;
  nextPlayerId : Z
}.

Definition initial : t := mk ∅ 2.

(** Assign a player id to a peer and return it. *)
Definition assignPlayerToPeer (peerId : string) (nm : t) : string * t :=
  let playerId := "p" +:+ pretty (nextPlayerId nm) in
  (playerId,
   mk (<[peerId := playerId]> (peerToPlayer nm)) (nextPlayerId nm + 1)).

Definition getPlayerIdForPeer (peerId : string) (nm : t) : option string :=
  peerToPlayer nm !! peerId.

(** What [disconnect] does to the bookkeeping. *)
Definition disconnect (nm : t) : t := mk ∅ 2.

Inductive Command : Type :=
  | Assign (peerId : string)
  | Disconnect.

Definition run (nm : t) (c : Command) : t :=
  match c with
  | Assign peerId => snd (assignPlayerToPeer peerId nm)
  | Disconnect => disconnect nm
  end.

(** The ids handed out so far are numbered from 2 up to the counter, and no
    number is held by two peers. *)
Definition wellNumbered (nm : t) : Prop :=
  2 <= nextPlayerId nm /\
  (forall peerId playerId,
     peerToPlayer nm !! peerId = Some playerId ->
     exists k, 2 <= k < nextPlayerId nm /\ playerId = "p" +:+ pretty k) /\
  (forall peerA peerB playerId,
     peerToPlayer nm !! peerA = Some playerId ->
     peerToPlayer nm !! peerB = Some playerId -> peerA = peerB).

End NetworkManager.

(** ** Vocabulary: hit points during the tick *)

(** No entity of the store carries a negative damage. *)
Definition noNegativeDamage (es : list Entity) : Prop :=
  forall e, e ∈ es -> 0 <= default 0 (Entity.damage e).

(** [es'] is the store [es] after some assignments: the same objects, none
    of them with more hit points than before. *)
Definition hurtFrame (es es' : list Entity) : Prop :=
  length es' = length es /\
  forall k e, es !! k = Some e ->
    exists e', es' !! k = Some e' /\ sameIdentity e e' /\
               Entity.hp e' <= Entity.hp e.

(** ** services/GameEngine.ts: the removal sweep of the earlier engine

    The earlier engine has no [lastAttackerId]: a removed zombie pays the
    bounty to every player that is not defeated. *)

Module Legacy.

Definition sweepEntity (players : gmap string PlayerState) (e : Entity)
    : gmap string PlayerState * bool :=
  if Entity.hp e <=? 0 then
    let players :=
      if bool_decide (Entity.type e = ZOMBIE) then
        (fun player =>
           if negb (PlayerState.defeated player)
           then PlayerState.set_gold
                  (PlayerState.gold player + ZOMBIE_BOUNTY) player
           else player) <$> players
      else players in
    let players :=
      if bool_decide (Entity.type e = BASE)
         && negb (String.eqb (Entity.ownerId e) "")
      then
        match players !! Entity.ownerId e with
        | Some owner =>
          <[Entity.ownerId e := PlayerState.set_defeated true owner]> players
        | None => players
        end
      else players in
    let players :=
      if bool_decide (Entity.type e = UNIT) then
        match players !! Entity.ownerId e with
        | Some owner =>
          <[Entity.ownerId e :=
              PlayerState.set_currentPop
                (Z.max 0 (PlayerState.currentPop owner - 1)) owner]> players
        | None => players
        end
      else players in
    (players, false)
  else (players, true).

Fixpoint sweep (players : gmap string PlayerState) (es : list Entity)
    : gmap string PlayerState * list Entity :=
  match es with
  | [] => (players, [])
  | e :: rest =>
    let '(players', keep) := sweepEntity players e in
    let '(players'', kept) := sweep players' rest in
    (players'', if keep then e :: kept else kept)
  end.

(** The zombies that the sweep removes. *)
Definition deadZombies (es : list Entity) : list Entity :=
  List.filter (fun e => (Entity.hp e <=? 0)
                        && bool_decide (Entity.type e = ZOMBIE)) es.

End Legacy.

(** ** Vocabulary for walls and bounties *)








(** * Properties *)

Lemma Rltb_true a b : Rltb a b = true <-> (a < b)%R.
Proof. unfold Rltb. destruct (Rlt_dec a b); split; intros; try done. Qed.

Lemma Rltb_false a b : Rltb a b = false <-> (b <= a)%R.
Proof.
  unfold Rltb. destruct (Rlt_dec a b); split; intros; try done; lra.
Qed.

Lemma Rleb_true a b : Rleb a b = true <-> (a <= b)%R.
Proof. unfold Rleb. destruct (Rle_dec a b); split; intros; try done. Qed.

Lemma Rleb_false a b : Rleb a b = false <-> (b < a)%R.
Proof.
  unfold Rleb. destruct (Rle_dec a b); split; intros; try done; lra.
Qed.

Lemma Reqb_true a b : Reqb a b = true <-> a = b.
Proof. unfold Reqb. destruct (Req_dec_T a b); split; intros; try done. Qed.

Lemma Math_floor_IZR_half (t : Z) : Math_floor (IZR t + 0.5)%R = t.
Proof.
  unfold Math_floor. symmetry. apply Int_part_spec. split; lra.
Qed.

Lemma isValidTerrain_in_bounds x y :
  isValidTerrain x y = true -> inBoundsR x y.
Proof.
  unfold isValidTerrain, inBoundsR.
  destruct (Rltb x 0) eqn:E1, (Rleb (IZR MAP_SIZE) x) eqn:E2,
    (Rltb y 0) eqn:E3, (Rleb (IZR MAP_SIZE) y) eqn:E4; simpl; try discriminate.
  apply Rltb_false in E1, E3. apply Rleb_false in E2, E4. intros _. lra.
Qed.

Lemma isValidTerrain_near_tested_anchor (x y : R) (a : Vector2) :
  a ∈ testedAnchors -> inBoundsR x y ->
  (getDistance (Vector2.mk x y) a < 8)%R ->
  isValidTerrain x y = true.
Proof.
  intros Ha [[Hx0 Hx1] [Hy0 Hy1]] Hd. unfold isValidTerrain.
  assert (Rltb x 0 = false) as -> by (apply Rltb_false; lra).
  assert (Rleb (IZR MAP_SIZE) x = false) as -> by (apply Rleb_false; lra).
  assert (Rltb y 0 = false) as -> by (apply Rltb_false; lra).
  assert (Rleb (IZR MAP_SIZE) y = false) as -> by (apply Rleb_false; lra).
  simpl. unfold testedAnchors in Ha.
  apply elem_of_cons in Ha as [->|Ha];
    [apply Rltb_true in Hd; rewrite Hd; reflexivity|].
  apply elem_of_cons in Ha as [->|Ha];
    [apply Rltb_true in Hd; rewrite Hd; rewrite orb_true_r; reflexivity|].
  apply elem_of_cons in Ha as [->|Ha];
    [apply Rltb_true in Hd; rewrite Hd; rewrite !orb_true_r; reflexivity|].
  inversion Ha.
Qed.

Lemma sqrt_64 : sqrt 64 = 8%R.
Proof. replace 64%R with (8 * 8)%R by lra. apply sqrt_square. lra. Qed.

Lemma sqrt_ge_8 (s : R) : (64 <= s)%R -> Rltb (sqrt s) 8 = false.
Proof.
  intros Hs. apply Rltb_false. rewrite <- sqrt_64.
  apply sqrt_le_1_alt. exact Hs.
Qed.

Lemma sqrt_lt_8 (s : R) : (0 <= s < 64)%R -> (sqrt s < 8)%R.
Proof. intros Hs. rewrite <- sqrt_64. apply sqrt_lt_1_alt. exact Hs. Qed.

(** C7 (failing input).  In a session with three players the third base is
    anchored at (8, 44).  The in-bounds point (1, 42) lies within the radius
    8 of that anchor, yet the oracle rejects it: only the anchors of players
    1 and 2 and of the enemy base are tested, so the point falls through to
    the corridor test, which fails there. *)
Theorem isValidTerrain_rejects_point_near_third_base :
  Vector2.mk 8 44 ∈ sessionAnchors 3 /\
  inBoundsR 1 42 /\
  (getDistance (Vector2.mk 1 42) (Vector2.mk 8 44) < 8)%R /\
  isValidTerrain 1 42 = false.
Proof.
  split; [|split; [|split]].
  - unfold sessionAnchors. simpl. set_solver.
  - unfold inBoundsR, MAP_SIZE. lra.
  - unfold getDistance. simpl. apply sqrt_lt_8. lra.
  - unfold isValidTerrain, MAP_SIZE.
    assert (Rltb 1 0 = false) as -> by (apply Rltb_false; lra).
    assert (Rleb 64 1 = false) as -> by (apply Rleb_false; lra).
    assert (Rltb 42 0 = false) as -> by (apply Rltb_false; lra).
    assert (Rleb 64 42 = false) as -> by (apply Rleb_false; lra).
    simpl. unfold getDistance. simpl.
    rewrite !sqrt_ge_8 by lra. simpl.
    apply Rltb_false.
    assert (sin (1 * 0.15) < 1 * 0.15)%R as Hs by (apply sin_lt_x; lra).
    pose proof (COS_bound (42 * 0.15)) as [_ Hc].
    replace (1 + 42 - 64)%R with (- (21))%R by lra.
    rewrite Rabs_Ropp, Rabs_pos_eq by lra. lra.
Qed.

(** ** Economy: spawnUnit *)

Lemma createInitialState_one_player :
  createInitialState 0 1 [] = Some sampleState.
Proof. reflexivity. Qed.

(** C3.  [spawnUnit(playerId, unitType)]: when the player exists, is not
    defeated, has gold at least the unit's cost and is below the population
    cap, the call takes exactly the cost from that player's gold, adds
    exactly 1 to currentPop and appends exactly one unit entity, leaving
    everything else as it was; in every other case the state is unchanged. *)
Theorem spawnUnit_spec (newId : string) (rnd : R) (playerId : string)
    (k : UnitTypeKey) (s : GameState) :
  (forall player,
      GameState.players s !! playerId = Some player ->
      PlayerState.defeated player = false ->
      UnitStats.cost (UNIT_TYPES k) <= PlayerState.gold player ->
      PlayerState.currentPop player < PlayerState.maxPop player ->
      exists player' unit,
        spawnUnit newId rnd playerId k s
        = GameState.set_entities (GameState.entities s ++ [unit])
            (GameState.set_players
               (<[playerId := player']> (GameState.players s)) s)
        /\ PlayerState.gold player'
           = PlayerState.gold player - UnitStats.cost (UNIT_TYPES k)
        /\ PlayerState.currentPop player' = PlayerState.currentPop player + 1
        /\ PlayerState.maxPop player' = PlayerState.maxPop player
        /\ PlayerState.defeated player' = PlayerState.defeated player
        /\ PlayerState.id player' = PlayerState.id player
        /\ PlayerState.basePosition player' = PlayerState.basePosition player
        /\ Entity.type unit = UNIT
        /\ Entity.ownerId unit = playerId
        /\ Entity.id unit = newId)
  /\ (~ (exists player,
           GameState.players s !! playerId = Some player
           /\ PlayerState.defeated player = false
           /\ UnitStats.cost (UNIT_TYPES k) <= PlayerState.gold player
           /\ PlayerState.currentPop player < PlayerState.maxPop player) ->
      spawnUnit newId rnd playerId k s = s).
Proof.
  split.
  - intros player Hp Hd Hg Hc. unfold spawnUnit. rewrite Hp.
    apply Z.leb_le in Hg. apply Z.ltb_lt in Hc.
    destruct player; simpl in *. subst. rewrite Hg, Hc. simpl.
    eexists _, _. split; [reflexivity|]. simpl. repeat split; reflexivity.
  - intros Hn. unfold spawnUnit.
    destruct (GameState.players s !! playerId) as [player|] eqn:Hp; [|reflexivity].
    destruct (PlayerState.defeated player) eqn:Hd; [reflexivity|].
    destruct (UnitStats.cost (UNIT_TYPES k) <=? PlayerState.gold player) eqn:Hg;
      [|reflexivity].
    destruct (PlayerState.currentPop player <? PlayerState.maxPop player) eqn:Hc;
      [|reflexivity].
    exfalso. apply Hn. exists player.
    apply Z.leb_le in Hg. apply Z.ltb_lt in Hc. auto.
Qed.

(** The player of the sample session buys a soldier: 100 gold, cost 20. *)
Lemma spawnUnit_spec_witness :
  exists player' unit,
    spawnUnit "u1" 0 "p1" SOLDIER sampleState
    = GameState.set_entities (GameState.entities sampleState ++ [unit])
        (GameState.set_players
           (<["p1" := player']> (GameState.players sampleState)) sampleState)
    /\ PlayerState.gold player' = 80
    /\ PlayerState.currentPop player' = 1.
Proof.
  destruct (proj1 (spawnUnit_spec "u1" 0 "p1" SOLDIER sampleState) samplePlayer)
    as (player' & unit & H1 & H2 & H3 & _).
  - reflexivity.
  - reflexivity.
  - simpl. lia.
  - simpl. lia.
  - exists player', unit. auto.
Defined.

(** ** Pathfinder: the Manhattan heuristic and the step costs *)

Lemma adjacentb_cases (a b : Tile) :
  adjacentb a b = true ->
  (Z.abs (fst b - fst a) <= 1 /\ Z.abs (snd b - snd a) <= 1) /\
  (stepCost (fst b - fst a, snd b - snd a) = 10 /\
     Z.abs (fst b - fst a) + Z.abs (snd b - snd a) = 1
   \/ stepCost (fst b - fst a, snd b - snd a) = 14 /\
     Z.abs (fst b - fst a) + Z.abs (snd b - snd a) = 2).
Proof.
  unfold adjacentb. intros H. apply bool_decide_eq_true in H.
  unfold neighbors in H.
  repeat (apply elem_of_cons in H as [H|H];
          [injection H as -> ->; unfold stepCost; simpl; lia|]).
  inversion H.
Qed.

(** C2 (counterexample).  One diagonal step from tile (0,0) to tile (1,1)
    costs 1.4, while the Manhattan distance between the two tiles is 2: the
    heuristic exceeds the cost of a path. *)
Lemma manhattan_exceeds_diagonal_step :
  isGridPath [(0, 0); (1, 1)] = true /\
  pathCost [(0, 0); (1, 1)] = 14 /\
  10 * heuristic (0, 0) (1, 1) = 20 /\
  ~ (10 * heuristic (0, 0) (1, 1) <= pathCost [(0, 0); (1, 1)]).
Proof. repeat split; try reflexivity. vm_compute. intros H. apply H. reflexivity. Qed.

Lemma heuristic_step (a b g : Tile) :
  adjacentb a b = true ->
  7 * heuristic a g
  <= stepCost (fst b - fst a, snd b - snd a) + 7 * heuristic b g.
Proof.
  intros H. apply adjacentb_cases in H as [_ H]. unfold heuristic. lia.
Qed.

(** C2 (amended).  Scaled by 0.7 the Manhattan distance is admissible and
    consistent for the cost model: 0.7 times the Manhattan distance between
    two tiles is at most the cost of every 8-directional path between them
    (orthogonal step 1.0, diagonal step 1.4), and it changes by at most the
    step cost along one step.  Costs are in tenths. *)
Theorem manhattan_scaled_admissible (a b g : Tile) (p : list Tile) :
  isGridPath (a :: p) = true ->
  last (a :: p) = Some b ->
  7 * heuristic a b <= pathCost (a :: p)
  /\ (adjacentb a b = true ->
      7 * heuristic a g
      <= stepCost (fst b - fst a, snd b - snd a) + 7 * heuristic b g).
Proof.
  intros Hp Hl. split; [|apply heuristic_step].
  revert a Hp Hl. induction p as [|c p IH]; intros a Hp Hl.
  - simpl in Hl. injection Hl as <-. unfold heuristic. simpl. lia.
  - change (isGridPath (a :: c :: p)) with (adjacentb a c && isGridPath (c :: p))
      in Hp.
    apply andb_true_iff in Hp as [Hac Hp].
    change (pathCost (a :: c :: p))
      with (stepCost (fst c - fst a, snd c - snd a) + pathCost (c :: p)).
    assert (last (c :: p) = Some b) as Hl' by exact Hl.
    specialize (IH c Hp Hl').
    pose proof (heuristic_step a c b Hac). lia.
Qed.

Lemma manhattan_scaled_admissible_witness :
  7 * heuristic (0, 0) (2, 1) <= pathCost [(0, 0); (1, 1); (2, 1)].
Proof.
  apply (proj1 (manhattan_scaled_admissible (0, 0) (2, 1) (0, 0)
                  [(1, 1); (2, 1)] eq_refl eq_refl)).
Defined.

(** ** Pathfinder: the open list *)

Lemma lowestFrom_spec (l : list OpenEntry.t) :
  forall (rest : list OpenEntry.t) (i idx : nat) (best : OpenEntry.t) idx' best',
    l !! idx = Some best ->
    (forall j o, rest !! j = Some o -> l !! (i + j)%nat = Some o) ->
    lowestFrom i rest idx best = (idx', best') ->
    l !! idx' = Some best'.
Proof.
  induction rest as [|o rest IH]; intros i idx best idx' best' Hb Hr Hl.
  - simpl in Hl. congruence.
  - simpl in Hl.
    assert (forall j o', rest !! j = Some o' -> l !! (S i + j)%nat = Some o')
      as Hr'.
    { intros j o' Hj. specialize (Hr (S j) o' Hj).
      replace (S i + j)%nat with (i + S j)%nat by lia. exact Hr. }
    destruct (OpenEntry.f o <? OpenEntry.f best).
    + eapply (IH (S i) i o); [|exact Hr'|exact Hl].
      specialize (Hr 0%nat o eq_refl). rewrite Nat.add_0_r in Hr. exact Hr.
    + eapply (IH (S i) idx best); eauto.
Qed.

Lemma popLowest_spec (l l' : list OpenEntry.t) (o : OpenEntry.t) :
  popLowest l = Some (o, l') ->
  o ∈ l /\ length l = S (length l') /\ (forall x, x ∈ l' -> x ∈ l).
Proof.
  unfold popLowest. destruct l as [|o0 rest]; [discriminate|].
  destruct (lowestFrom 1 rest 0 o0) as [idx best] eqn:Hl. intros H.
  injection H as <- <-.
  assert ((o0 :: rest) !! idx = Some best) as Hidx.
  { eapply (lowestFrom_spec (o0 :: rest) rest 1 0 o0); [reflexivity| |exact Hl].
    intros j o Hj. exact Hj. }
  split; [|split].
  - eapply list_elem_of_lookup_2. exact Hidx.
  - rewrite length_delete by eauto. apply lookup_lt_Some in Hidx.
    simpl in *. lia.
  - intros x Hx. eapply elem_of_sublist; [exact Hx|]. apply sublist_delete.
Qed.

(** ** Pathfinder: the sum of the g-scores *)

Lemma gsum_insert_None (g : gmap Tile Z) (t : Tile) (v : Z) :
  g !! t = None -> gsum (<[t := v]> g) = v + gsum g.
Proof.
  intros H. unfold gsum.
  apply (map_fold_insert_L (fun (_ : Tile) (x acc : Z) => x + acc) 0 t v g);
    [|exact H].
  intros. lia.
Qed.

Lemma gsum_insert_Some (g : gmap Tile Z) (t : Tile) (v v0 : Z) :
  g !! t = Some v0 -> gsum (<[t := v]> g) = v + gsum g - v0.
Proof.
  intros H.
  assert (gsum g = v0 + gsum (delete t g)) as Hg.
  { unfold gsum.
    apply (map_fold_delete_L (fun (_ : Tile) (x acc : Z) => x + acc) 0 t v0 g);
      [|exact H].
    intros. lia. }
  rewrite <- (insert_delete_eq g).
  rewrite gsum_insert_None by apply lookup_delete_eq. lia.
Qed.

Lemma gsum_nonneg (g : gmap Tile Z) :
  (forall t v, g !! t = Some v -> 0 <= v) -> 0 <= gsum g.
Proof.
  induction g as [|t v g Hn IH] using map_ind; intros H.
  - unfold gsum. rewrite map_fold_empty. lia.
  - rewrite gsum_insert_None by exact Hn.
    assert (0 <= v) by (apply (H t); apply lookup_insert_eq).
    assert (0 <= gsum g); [|lia].
    apply IH. intros t' v' Ht'. apply (H t').
    rewrite lookup_insert_ne; [exact Ht'|]. intros ->. congruence.
Qed.

(** ** Pathfinder: the grid *)

Lemma size_list_to_set_le (l : list Tile) :
  (size (list_to_set l : gset Tile) <= length l)%nat.
Proof.
  induction l as [|t l IH].
  - rewrite list_to_set_nil, size_empty. simpl. lia.
  - rewrite list_to_set_cons, size_union_alt, size_singleton. simpl length.
    assert (size ((list_to_set l : gset Tile) ∖ {[ t ]})
            <= size (list_to_set l : gset Tile))%nat; [|lia].
    apply subseteq_size. intros z Hz.
    apply elem_of_difference in Hz as [Hz _]. exact Hz.
Qed.

Lemma size_gridTiles : (size gridTiles <= 4096)%nat.
Proof.
  unfold gridTiles. etransitivity; [apply size_list_to_set_le|].
  vm_compute. reflexivity.
Qed.

Lemma elem_of_gridTiles (x y : Z) :
  inBounds x y = true -> (x, y) ∈ gridTiles.
Proof.
  unfold inBounds, gridTiles, MAP_SIZE. intros H.
  apply andb_true_iff in H as [H Hy1]. apply andb_true_iff in H as [H Hy0].
  apply andb_true_iff in H as [Hx0 Hx1].
  apply Z.leb_le in Hx0, Hy0. apply Z.ltb_lt in Hx1, Hy1.
  apply elem_of_list_to_set. apply list_elem_of_bind. exists x. split.
  - apply list_elem_of_fmap. exists y. split; [reflexivity|].
    apply elem_of_seqZ. lia.
  - apply elem_of_seqZ. lia.
Qed.

Lemma neighbors_step (c n : Tile) :
  n ∈ neighbors ->
  (stepCost n = 10 \/ stepCost n = 14) /\
  (fst c + fst n, snd c + snd n) <> c /\
  adjacentb c (fst c + fst n, snd c + snd n) = true.
Proof.
  intros Hn. split; [|split].
  - unfold neighbors in Hn.
    repeat (apply elem_of_cons in Hn as [->|Hn]; [vm_compute; auto|]).
    inversion Hn.
  - destruct c as [cx cy]. simpl. intros H. injection H as Hx Hy.
    assert (n = (0, 0)) as -> by (destruct n; simpl in *; f_equal; lia).
    unfold neighbors in Hn.
    repeat (apply elem_of_cons in Hn as [Hn|Hn]; [discriminate|]).
    inversion Hn.
  - unfold adjacentb. apply bool_decide_eq_true. simpl.
    replace (fst c + fst n - fst c) with (fst n) by lia.
    replace (snd c + snd n - snd c) with (snd n) by lia.
    destruct n. exact Hn.
Qed.

Lemma Running_inj (a b : AStar.t) : Running a = Running b -> a = b.
Proof. intros H. injection H as ->. reflexivity. Qed.

Lemma isGridPath_snoc (l : list Tile) (p k : Tile) :
  isGridPath l = true -> last l = Some p -> adjacentb p k = true ->
  isGridPath (l ++ [k]) = true.
Proof.
  induction l as [|a l IH]; intros Hl Hlast Hadj; [discriminate|].
  destruct l as [|b l].
  - simpl in Hlast. injection Hlast as ->. simpl. rewrite Hadj. reflexivity.
  - change (isGridPath (a :: b :: l)) with (adjacentb a b && isGridPath (b :: l))
      in Hl.
    apply andb_true_iff in Hl as [Hab Hl].
    change ((a :: b :: l) ++ [k]) with (a :: (b :: l) ++ [k]).
    change (isGridPath (a :: (b :: l) ++ [k]))
      with (adjacentb a b && isGridPath ((b :: l) ++ [k])).
    rewrite Hab. simpl andb. apply IH; auto.
Qed.

Section PathfinderProofs.

Variable terrain : Z -> Z -> bool.
Variable blocked : Tile -> bool.
Variables start goal : Tile.

Local Abbreviation Inv := (AStarInv terrain blocked start goal).
Local Abbreviation Passable := (passable terrain blocked goal).

Lemma inv_size (st : AStar.t) :
  Inv st -> Z.of_nat (size (AStar.gScore st)) <= GRID_NODES.
Proof.
  intros HI.
  assert (dom (AStar.gScore st) ⊆ {[ start ]} ∪ gridTiles) as Hsub.
  { intros t Ht. apply elem_of_dom in Ht.
    destruct (inv_dom _ _ _ _ _ HI t Ht) as [->|[p Hp]].
    { apply elem_of_union_l, elem_of_singleton. reflexivity. }
    destruct (inv_came _ _ _ _ _ HI t p Hp) as (_ & _ & (Hb & _) & _).
    apply elem_of_union_r. destruct t. apply elem_of_gridTiles. exact Hb. }
  apply subseteq_size in Hsub. rewrite size_dom in Hsub.
  pose proof (size_union_alt ({[ start ]} : gset Tile) gridTiles) as Hu.
  assert (size (gridTiles ∖ {[ start ]}) <= size gridTiles)%nat.
  { apply subseteq_size. intros z Hz.
    apply elem_of_difference in Hz as [Hz _]. exact Hz. }
  rewrite size_singleton in Hu. pose proof size_gridTiles.
  unfold GRID_NODES, MAP_SIZE. lia.
Qed.

Lemma initialAStar_inv : Inv (initialAStar start goal).
Proof.
  unfold initialAStar. constructor; simpl.
  - apply lookup_singleton_eq.
  - intros t g H. apply lookup_singleton_Some in H as [_ <-]. lia.
  - intros t p H. rewrite lookup_empty in H. discriminate.
  - intros t [g H]. apply lookup_singleton_Some in H as [<- _]. auto.
  - intros o H. apply list_elem_of_singleton in H as ->. simpl.
    rewrite lookup_singleton_eq. eauto.
  - intros t g H. apply lookup_singleton_Some in H as [_ <-].
    rewrite map_size_singleton. lia.
Qed.

(** Recording a better route to tile [t] through [current]. *)
Lemma relax_update_inv (st : AStar.t) (current t : Tile) (gc c f : Z)
    (openSet' : list OpenEntry.t) :
  Inv st ->
  AStar.gScore st !! current = Some gc ->
  adjacentb current t = true -> t <> current -> Passable t ->
  c = 10 \/ c = 14 ->
  match AStar.gScore st !! t with
  | None => True
  | Some prevG => gc + c < prevG
  end ->
  openSet' = AStar.openSet st \/
    openSet' = AStar.openSet st ++ [OpenEntry.mk t f] ->
  let st' :=
    AStar.mk openSet' (<[t := current]> (AStar.cameFrom st))
      (<[t := gc + c]> (AStar.gScore st)) in
  Inv st' /\ astarMeasure st' <= astarMeasure st.
Proof.
  intros HI Hgc Hadj Hne Hpass Hc Himp Hopen st'.
  pose proof (inv_nonneg _ _ _ _ _ HI current gc Hgc) as Hgc0.
  assert (t <> start) as Hts.
  { intros ->. rewrite (inv_start _ _ _ _ _ HI) in Himp. lia. }
  assert (Inv st') as HI'.
  { constructor; subst st'; simpl.
    - rewrite lookup_insert_ne by exact Hts. apply (inv_start _ _ _ _ _ HI).
    - intros t' g Hg. destruct (decide (t = t')) as [<-|Hn].
      + rewrite lookup_insert_eq in Hg. injection Hg as <-. lia.
      + rewrite lookup_insert_ne in Hg by exact Hn.
        apply (inv_nonneg _ _ _ _ _ HI t' g Hg).
    - intros t' p Hp. destruct (decide (t = t')) as [<-|Hn].
      + rewrite lookup_insert_eq in Hp. injection Hp as <-.
        split; [exact Hts|]. split; [exact Hadj|]. split; [exact Hpass|].
        exists gc, (gc + c). rewrite lookup_insert_ne by exact Hne.
        rewrite lookup_insert_eq. split; [exact Hgc|]. split; [reflexivity|lia].
      + rewrite lookup_insert_ne in Hp by exact Hn.
        destruct (inv_came _ _ _ _ _ HI t' p Hp)
          as (H1 & H2 & H3 & gp & gt & Hgp & Hgt & Hle).
        split; [exact H1|]. split; [exact H2|]. split; [exact H3|].
        rewrite (lookup_insert_ne _ t t') by exact Hn.
        destruct (decide (t = p)) as [<-|Hnp].
        * rewrite Hgp in Himp. exists (gc + c), gt.
          rewrite lookup_insert_eq. split; [reflexivity|]. split; [exact Hgt|lia].
        * exists gp, gt. rewrite lookup_insert_ne by exact Hnp. auto.
    - intros t' Hs. destruct (decide (t = t')) as [<-|Hn].
      + right. rewrite lookup_insert_eq. eauto.
      + rewrite lookup_insert_ne in Hs by exact Hn.
        rewrite lookup_insert_ne by exact Hn.
        apply (inv_dom _ _ _ _ _ HI t' Hs).
    - intros o Ho.
      assert (o ∈ AStar.openSet st \/ OpenEntry.node o = t) as [Ho'| ->].
      { destruct Hopen as [->| ->]; [auto|].
        apply elem_of_app in Ho as [Ho|Ho]; [auto|].
        apply list_elem_of_singleton in Ho as ->. auto. }
      + destruct (decide (t = OpenEntry.node o)) as [<-|Hn].
        * rewrite lookup_insert_eq. eauto.
        * rewrite lookup_insert_ne by exact Hn.
          apply (inv_open _ _ _ _ _ HI o Ho').
      + rewrite lookup_insert_eq. eauto.
    - intros t' g Hg. rewrite map_size_insert.
      destruct (AStar.gScore st !! t) as [prevG|] eqn:Hprev.
      + unfold Datatypes.id.
        pose proof (inv_bound _ _ _ _ _ HI t prevG Hprev).
        destruct (decide (t = t')) as [<-|Hn].
        * rewrite lookup_insert_eq in Hg. injection Hg as <-. lia.
        * rewrite lookup_insert_ne in Hg by exact Hn.
          apply (inv_bound _ _ _ _ _ HI t' g Hg).
      + pose proof (inv_bound _ _ _ _ _ HI current gc Hgc).
        destruct (decide (t = t')) as [<-|Hn].
        * rewrite lookup_insert_eq in Hg. injection Hg as <-. lia.
        * rewrite lookup_insert_ne in Hg by exact Hn.
          pose proof (inv_bound _ _ _ _ _ HI t' g Hg). lia. }
  split; [exact HI'|].
  pose proof (inv_size st' HI') as Hsz'.
  pose proof (inv_bound _ _ _ _ _ HI current gc Hgc) as Hb.
  assert (Z.of_nat (length openSet') <= Z.of_nat (length (AStar.openSet st)) + 1)
    as Hlen.
  { destruct Hopen as [->| ->]; [lia|]. rewrite length_app. simpl. lia. }
  unfold astarMeasure. subst st'. simpl in *.
  rewrite map_size_insert in *.
  destruct (AStar.gScore st !! t) as [prevG|] eqn:Hprev.
  - unfold Datatypes.id in *. rewrite (gsum_insert_Some _ _ _ prevG Hprev). lia.
  - rewrite (gsum_insert_None _ _ _ Hprev). unfold G_LIMIT in *. lia.
Qed.

Lemma relax_inv (st : AStar.t) (current n : Tile) :
  Inv st -> n ∈ neighbors ->
  Inv (relax terrain blocked goal current st n) /\
  astarMeasure (relax terrain blocked goal current st n) <= astarMeasure st.
Proof.
  intros HI Hn. unfold relax.
  destruct (neighbors_step current n Hn) as (Hc & Hne & Hadj).
  set (t := (fst current + fst n, snd current + snd n)) in *.
  destruct (inBounds (fst current + fst n) (snd current + snd n)) eqn:Hb;
    simpl; [|split; [exact HI|lia]].
  destruct (terrain (fst current + fst n) (snd current + snd n)) eqn:Ht;
    simpl; [|split; [exact HI|lia]].
  destruct (negb (bool_decide (t = goal)) && blocked t) eqn:Hg;
    [split; [exact HI|lia]|].
  destruct (AStar.gScore st !! current) as [gc|] eqn:Hgc; [|split; [exact HI|lia]].
  assert (Passable t) as Hpass.
  { split; [exact Hb|]. split; [exact Ht|].
    apply andb_false_iff in Hg as [Hg|Hg]; [left|right; exact Hg].
    apply negb_false_iff, bool_decide_eq_true in Hg. exact Hg. }
  assert (forall openSet',
             openSet' = AStar.openSet st \/
             openSet' = AStar.openSet st
                        ++ [OpenEntry.mk t (gc + stepCost n + 10 * heuristic t goal)] ->
             match AStar.gScore st !! t with
             | None => True
             | Some prevG => gc + stepCost n < prevG
             end ->
             let st' :=
               AStar.mk openSet' (<[t := current]> (AStar.cameFrom st))
                 (<[t := gc + stepCost n]> (AStar.gScore st)) in
             Inv st' /\ astarMeasure st' <= astarMeasure st) as Hupd.
  { intros openSet' Hopen Himp.
    apply (relax_update_inv st current t gc (stepCost n)
             (gc + stepCost n + 10 * heuristic t goal)); auto. }
  assert (forall b : bool,
             (if b then AStar.openSet st
              else AStar.openSet st
                   ++ [OpenEntry.mk t (gc + stepCost n + 10 * heuristic t goal)])
             = AStar.openSet st \/
             (if b then AStar.openSet st
              else AStar.openSet st
                   ++ [OpenEntry.mk t (gc + stepCost n + 10 * heuristic t goal)])
             = AStar.openSet st
               ++ [OpenEntry.mk t (gc + stepCost n + 10 * heuristic t goal)])
    as Hopen by (intros []; auto).
  destruct (AStar.gScore st !! t) as [prevG|] eqn:Hprev.
  - destruct (gc + stepCost n <? prevG) eqn:Himp; [|split; [exact HI|lia]].
    apply Hupd; [apply Hopen|]. apply Z.ltb_lt. exact Himp.
  - apply Hupd; [apply Hopen|exact I].
Qed.

Lemma fold_relax_inv (current : Tile) (ns : list Tile) :
  (forall n, n ∈ ns -> n ∈ neighbors) ->
  forall st, Inv st ->
  Inv (fold_left (relax terrain blocked goal current) ns st) /\
  astarMeasure (fold_left (relax terrain blocked goal current) ns st)
  <= astarMeasure st.
Proof.
  induction ns as [|n ns IH]; intros Hns st HI; simpl.
  - split; [exact HI|lia].
  - destruct (relax_inv st current n HI) as [HI1 Hm1].
    { apply Hns. left. }
    destruct (IH (fun m Hm => Hns m (list_elem_of_further _ _ _ Hm)) _ HI1)
      as [HI2 Hm2].
    split; [exact HI2|lia].
Qed.

Lemma astarMeasure_nonneg (st : AStar.t) : Inv st -> 0 <= astarMeasure st.
Proof.
  intros HI. pose proof (inv_size st HI).
  pose proof (gsum_nonneg _ (inv_nonneg _ _ _ _ _ HI)).
  unfold astarMeasure, G_LIMIT, GRID_NODES, MAP_SIZE in *. lia.
Qed.

Lemma pop_inv (st : AStar.t) (lowest : OpenEntry.t)
    (openSet' : list OpenEntry.t) :
  Inv st -> popLowest (AStar.openSet st) = Some (lowest, openSet') ->
  let st' := AStar.mk openSet' (AStar.cameFrom st) (AStar.gScore st) in
  Inv st' /\ astarMeasure st' < astarMeasure st /\
  is_Some (AStar.gScore st !! OpenEntry.node lowest).
Proof.
  intros HI Hpop st'. apply popLowest_spec in Hpop as (Hin & Hlen & Hsub).
  split; [|split].
  - destruct HI. constructor; subst st'; simpl; auto.
  - unfold astarMeasure. subst st'. simpl. lia.
  - apply (inv_open _ _ _ _ _ HI). exact Hin.
Qed.

(** The reconstruction loop follows [cameFrom] down to the start tile. *)
Lemma reconstructLoop_spec (st : AStar.t) :
  Inv st ->
  forall (fuel : nat) (k : Tile) (gk : Z) (acc : list Vector2),
    AStar.gScore st !! k = Some gk -> gk < Z.of_nat fuel ->
    exists chain,
      reconstructLoop fuel (AStar.cameFrom st) start (Some k) acc
      = Some (acc ++ map tileCenter chain)
      /\ linked terrain blocked start goal k chain.
Proof.
  intros HI. induction fuel as [|fuel IH]; intros k gk acc Hk Hlt.
  - pose proof (inv_nonneg _ _ _ _ _ HI k gk Hk). lia.
  - simpl. destruct (bool_decide (k = start)) eqn:Hs.
    + apply bool_decide_eq_true in Hs. exists []. simpl.
      rewrite app_nil_r. auto.
    + apply bool_decide_eq_false in Hs.
      destruct (inv_dom _ _ _ _ _ HI k) as [?|[p Hp]]; [eauto|done|].
      destruct (inv_came _ _ _ _ _ HI k p Hp)
        as (_ & Hadj & Hpass & gp & gk' & Hgp & Hgk & Hle).
      rewrite Hk in Hgk. injection Hgk as <-.
      destruct (IH p gp (acc ++ [tileCenter k]) Hgp) as (chain & Hrun & Hl);
        [lia|].
      exists (k :: chain). rewrite Hp, Hrun. simpl.
      rewrite <- app_assoc. simpl. split; [reflexivity|].
      split; [reflexivity|]. split; [exact Hs|]. split; [exact Hpass|].
      exists p. split; assumption.
Qed.

Lemma reconstruct_spec (st : AStar.t) (current : Tile) :
  Inv st -> is_Some (AStar.gScore st !! current) ->
  exists chain,
    reconstruct st start current
    = Some (map tileCenter (rev (chain ++ [start])))
    /\ linked terrain blocked start goal current chain.
Proof.
  intros HI [g Hg]. unfold reconstruct, reconstructFuel.
  destruct (reconstructLoop_spec st HI (S (Z.to_nat g)) current g [] Hg)
    as (chain & Hrun & Hl).
  { pose proof (inv_nonneg _ _ _ _ _ HI current g Hg). lia. }
  exists chain. rewrite Hg. simpl default. rewrite Hrun. simpl.
  split; [|exact Hl].
  f_equal. rewrite map_rev, map_app. reflexivity.
Qed.

Lemma astarStep_running (st st' : AStar.t) :
  Inv st -> astarStep terrain blocked start goal st = Running st' ->
  Inv st' /\ astarMeasure st' < astarMeasure st.
Proof.
  intros HI. unfold astarStep.
  destruct (popLowest (AStar.openSet st)) as [[lowest openSet']|] eqn:Hpop;
    [|discriminate].
  destruct (pop_inv st lowest openSet' HI Hpop) as (HI1 & Hm1 & _).
  destruct (bool_decide (OpenEntry.node lowest = goal)).
  - destruct (reconstruct _ _ _); discriminate.
  - intros H. apply Running_inj in H. subst st'.
    destruct (fold_relax_inv (OpenEntry.node lowest) neighbors (fun _ H => H)
                _ HI1) as [HI2 Hm2].
    split; [exact HI2|lia].
Qed.

Lemma astarStep_returned (st : AStar.t) (path : list Vector2) :
  Inv st ->
  astarStep terrain blocked start goal st = Returned (Some path) ->
  exists chain,
    path = map tileCenter (rev (chain ++ [start]))
    /\ linked terrain blocked start goal goal chain.
Proof.
  intros HI. unfold astarStep.
  destruct (popLowest (AStar.openSet st)) as [[lowest openSet']|] eqn:Hpop;
    [|discriminate].
  destruct (pop_inv st lowest openSet' HI Hpop) as (HI1 & _ & Hg).
  destruct (bool_decide (OpenEntry.node lowest = goal)) eqn:Hgoal;
    [|discriminate].
  apply bool_decide_eq_true in Hgoal.
  destruct (reconstruct_spec _ (OpenEntry.node lowest) HI1 Hg)
    as (chain & Hrec & Hl).
  rewrite Hrec. intros H. injection H as <-. exists chain.
  rewrite Hgoal in Hl. auto.
Qed.

Lemma astarStep_finishes_reconstruction (st : AStar.t) :
  Inv st ->
  astarStep terrain blocked start goal st <> ReconstructionUnfinished.
Proof.
  intros HI. unfold astarStep.
  destruct (popLowest (AStar.openSet st)) as [[lowest openSet']|] eqn:Hpop;
    [|discriminate].
  destruct (pop_inv st lowest openSet' HI Hpop) as (HI1 & _ & Hg).
  destruct (bool_decide (OpenEntry.node lowest = goal)); [|discriminate].
  destruct (reconstruct_spec _ (OpenEntry.node lowest) HI1 Hg)
    as (chain & Hrec & Hl).
  rewrite Hrec. discriminate.
Qed.

Lemma iterate_returned (n : nat) :
  forall (st : AStar.t) (path : list Vector2),
    Inv st ->
    iterate terrain blocked start goal n st = Returned (Some path) ->
    exists chain,
      path = map tileCenter (rev (chain ++ [start]))
      /\ linked terrain blocked start goal goal chain.
Proof.
  induction n as [|n IH]; intros st path HI H; [discriminate|].
  simpl in H.
  destruct (astarStep terrain blocked start goal st) as [r|st'|] eqn:Hstep.
  - injection H as ->. eapply astarStep_returned; eauto.
  - destruct (astarStep_running st st' HI Hstep) as [HI' _]. eauto.
  - discriminate.
Qed.

(** Every round lowers the measure, so the loop ends within as many rounds
    as the measure allows. *)
Lemma iterate_terminates (n : nat) :
  forall st : AStar.t,
    Inv st -> astarMeasure st < Z.of_nat n ->
    exists result, iterate terrain blocked start goal n st = Returned result.
Proof.
  induction n as [|n IH]; intros st HI Hm.
  - pose proof (astarMeasure_nonneg st HI). lia.
  - simpl.
    destruct (astarStep terrain blocked start goal st) as [r|st'|] eqn:Hstep.
    + eauto.
    + destruct (astarStep_running st st' HI Hstep) as [HI' Hm'].
      apply IH; [exact HI'|lia].
    + exfalso. eapply astarStep_finishes_reconstruction; eauto.
Qed.

Lemma iterate_add (a b : nat) (st : AStar.t) :
  iterate terrain blocked start goal (a + b) st
  = match iterate terrain blocked start goal a st with
    | Running st' => iterate terrain blocked start goal b st'
    | o => o
    end.
Proof.
  revert st. induction a as [|a IH]; intros st; simpl; [reflexivity|].
  destruct (astarStep terrain blocked start goal st); auto.
Qed.

Lemma run_iterate (p : positive) (st : AStar.t) :
  run terrain blocked start goal p st
  = iterate terrain blocked start goal (Pos.to_nat p) st.
Proof.
  revert st. induction p as [p IH|p IH|]; intros st.
  - rewrite Pos2Nat.inj_xI.
    replace (S (2 * Pos.to_nat p)) with (1 + (Pos.to_nat p + Pos.to_nat p))%nat
      by lia.
    rewrite iterate_add. simpl.
    destruct (astarStep terrain blocked start goal st); try reflexivity.
    rewrite iterate_add, <- IH.
    destruct (run terrain blocked start goal p st0); try reflexivity. apply IH.
  - rewrite Pos2Nat.inj_xO.
    replace (2 * Pos.to_nat p)%nat with (Pos.to_nat p + Pos.to_nat p)%nat by lia.
    rewrite iterate_add. simpl. rewrite <- IH.
    destruct (run terrain blocked start goal p st); try reflexivity. apply IH.
  - simpl. destruct (astarStep terrain blocked start goal st); reflexivity.
Qed.

Lemma astarMeasure_initial :
  astarMeasure (initialAStar start goal) = 469884929.
Proof.
  unfold astarMeasure, initialAStar. simpl.
  rewrite map_size_singleton. unfold gsum.
  rewrite map_fold_singleton. reflexivity.
Qed.

Lemma findPathTiles_terminates :
  exists result,
    findPathTiles terrain blocked start goal = Returned result
    /\ iterate terrain blocked start goal (Z.to_nat 469884930)
         (initialAStar start goal)
       = Returned result.
Proof.
  destruct (iterate_terminates (Z.to_nat 469884930) (initialAStar start goal)
              initialAStar_inv) as [r Hr].
  { rewrite astarMeasure_initial, Z2Nat.id; lia. }
  exists r. split; [|exact Hr].
  unfold findPathTiles. rewrite run_iterate.
  assert (Pos.to_nat MAX_ROUNDS
          = (Z.to_nat 469884930 + Z.to_nat 66985982)%nat) as ->.
  { rewrite <- Z2Nat.inj_add by lia.
    replace (469884930 + 66985982) with (Z.pos MAX_ROUNDS) by reflexivity.
    symmetry. apply Z2Nat.inj_pos. }
  rewrite iterate_add, Hr. reflexivity.
Qed.

(** The tiles pushed by the reconstruction loop, reversed and prefixed by
    the start tile, form the returned path. *)
Lemma linked_path (chain : list Tile) :
  forall k : Tile,
    linked terrain blocked start goal k chain ->
    head (rev (chain ++ [start])) = Some start /\
    last (rev (chain ++ [start])) = Some k /\
    isGridPath (rev (chain ++ [start])) = true /\
    Forall Passable (tail (rev (chain ++ [start]))).
Proof.
  induction chain as [|t rest IH]; intros k Hl.
  - simpl in Hl. subst k. simpl. repeat split; auto.
  - destruct Hl as (-> & Hks & Hpass & p & Hadj & Hl).
    destruct (IH p Hl) as (Hh & Hlast & Hgp & Hall).
    change (rev ((k :: rest) ++ [start])) with (rev (rest ++ [start]) ++ [k]).
    destruct (rev (rest ++ [start])) as [|a l] eqn:Hrev; [discriminate|].
    simpl in Hh. injection Hh as ->.
    split; [reflexivity|]. split; [apply last_snoc|].
    split; [eapply isGridPath_snoc; eauto|].
    simpl in *. apply Forall_app. split; [exact Hall|]. constructor; auto.
Qed.
End PathfinderProofs.

Lemma findPathTiles_sound (terrain : Z -> Z -> bool) (blocked : Tile -> bool)
    (start goal : Tile) (path : list Vector2) :
  findPathTiles terrain blocked start goal = Returned (Some path) ->
  exists tiles,
    path = map tileCenter tiles /\
    head tiles = Some start /\
    last tiles = Some goal /\
    isGridPath tiles = true /\
    Forall (passable terrain blocked goal) (tail tiles).
Proof.
  unfold findPathTiles. rewrite run_iterate. intros H.
  apply iterate_returned in H as (chain & -> & Hl);
    [|apply initialAStar_inv].
  exists (rev (chain ++ [start])). split; [reflexivity|].
  apply linked_path. exact Hl.
Qed.

(** ** Pathfinder: termination and validity of the returned path *)

Lemma findPathWith_unfold (terrain : Z -> Z -> bool) (entities : list Entity)
    (startX startY goalX goalY : R) (ignoreId : option string)
    (ignoreTypes : option (list EntityType))
    (blockedTiles : option (gset Tile)) :
  findPathWith terrain entities startX startY goalX goalY
    ignoreId ignoreTypes blockedTiles
  = match findPathTiles terrain
            (tileBlocked entities ignoreId ignoreTypes blockedTiles)
            (Math_floor startX, Math_floor startY)
            (Math_floor goalX, Math_floor goalY) with
    | Returned result => result
    | _ => None
    end.
Proof. reflexivity. Qed.

(** C9.  [findPath] terminates on every input: whatever the start and goal
    coordinates, the exclusion arguments and the blocked-tile set, the main
    loop of the search returns after at most 469884930 rounds, and the
    reconstruction of the path ends as well.  Every round takes one entry
    out of the open list, and an entry is put back only when the g-score of
    its tile falls, by at least a tenth; g-scores are sums of the step costs
    1.0 and 1.4 over at most 64 * 64 + 1 tiles. *)
Theorem findPath_terminates (terrain : Z -> Z -> bool) (entities : list Entity)
    (startX startY goalX goalY : R) (ignoreId : option string)
    (ignoreTypes : option (list EntityType))
    (blockedTiles : option (gset Tile)) :
  exists result,
    iterate terrain (tileBlocked entities ignoreId ignoreTypes blockedTiles)
      (Math_floor startX, Math_floor startY)
      (Math_floor goalX, Math_floor goalY) (Z.to_nat 469884930)
      (initialAStar (Math_floor startX, Math_floor startY)
         (Math_floor goalX, Math_floor goalY))
    = Returned result
    /\ findPathOutcome terrain entities startX startY goalX goalY
         ignoreId ignoreTypes blockedTiles = Returned result
    /\ findPathWith terrain entities startX startY goalX goalY
         ignoreId ignoreTypes blockedTiles = result.
Proof.
  destruct (findPathTiles_terminates terrain
              (tileBlocked entities ignoreId ignoreTypes blockedTiles)
              (Math_floor startX, Math_floor startY)
              (Math_floor goalX, Math_floor goalY)) as (result & Hrun & Hit).
  exists result. split; [exact Hit|]. split; [exact Hrun|].
  rewrite findPathWith_unfold, Hrun. reflexivity.
Qed.

(** C1 (amended).  Every path returned by [findPath] is a non-empty list of
    tile centers; its first element is the center of the start tile
    (floor(startX) + 0.5, floor(startY) + 0.5) and its last the center of
    the goal tile; consecutive waypoints are one 8-directional step apart;
    and every waypoint after the first lies on a tile that is in bounds,
    satisfies the terrain oracle and, unless it is the goal tile, is not
    blocked (not in the supplied blocked-tile set).  The start tile itself
    is not tested. *)
Theorem findPath_path_valid (terrain : Z -> Z -> bool) (entities : list Entity)
    (startX startY goalX goalY : R) (ignoreId : option string)
    (ignoreTypes : option (list EntityType))
    (blockedTiles : option (gset Tile)) (path : list Vector2) :
  findPathWith terrain entities startX startY goalX goalY
    ignoreId ignoreTypes blockedTiles = Some path ->
  let start := (Math_floor startX, Math_floor startY) in
  let goal := (Math_floor goalX, Math_floor goalY) in
  exists tiles,
    path = map tileCenter tiles /\
    head path
    = Some (Vector2.mk (IZR (Math_floor startX) + 0.5)
              (IZR (Math_floor startY) + 0.5)) /\
    head tiles = Some start /\
    last tiles = Some goal /\
    isGridPath tiles = true /\
    Forall (fun t =>
              inBounds (fst t) (snd t) = true /\
              terrain (fst t) (snd t) = true /\
              (t = goal \/
               tileBlocked entities ignoreId ignoreTypes blockedTiles t = false
               /\ forall tiles', blockedTiles = Some tiles' -> t ∉ tiles'))
      (tail tiles).
Proof.
  intros H. cbv zeta. rewrite findPathWith_unfold in H.
  destruct (findPathTiles terrain
              (tileBlocked entities ignoreId ignoreTypes blockedTiles)
              (Math_floor startX, Math_floor startY)
              (Math_floor goalX, Math_floor goalY))
    as [r| |] eqn:Hrun; try discriminate.
  subst r. apply findPathTiles_sound in Hrun
    as (tiles & -> & Hh & Hl & Hg & Hall).
  exists tiles. split; [reflexivity|].
  split; [destruct tiles; [discriminate|]; injection Hh as ->; reflexivity|].
  split; [exact Hh|]. split; [exact Hl|]. split; [exact Hg|].
  eapply Forall_impl; [exact Hall|].
  intros t (Hb & Ht & Hgoal). split; [exact Hb|]. split; [exact Ht|].
  destruct Hgoal as [->|Hblk]; [left; reflexivity|right].
  split; [exact Hblk|]. intros tiles' ->. simpl in Hblk.
  apply bool_decide_eq_false in Hblk. exact Hblk.
Qed.

(** The search with more rounds than it needs. *)
Lemma iterate_returned_more (terrain : Z -> Z -> bool) (blocked : Tile -> bool)
    (start goal : Tile) (n m : nat) (st : AStar.t)
    (result : option (list Vector2)) :
  iterate terrain blocked start goal n st = Returned result ->
  (n <= m)%nat ->
  iterate terrain blocked start goal m st = Returned result.
Proof.
  intros H Hle. replace m with (n + (m - n))%nat by lia.
  rewrite iterate_add, H. reflexivity.
Qed.

Lemma findPathTiles_of_iterate (terrain : Z -> Z -> bool)
    (blocked : Tile -> bool) (start goal : Tile) (n : nat)
    (result : option (list Vector2)) :
  (Z.of_nat n <= 536870912) ->
  iterate terrain blocked start goal n (initialAStar start goal)
  = Returned result ->
  findPathTiles terrain blocked start goal = Returned result.
Proof.
  intros Hn H. unfold findPathTiles. rewrite run_iterate.
  eapply iterate_returned_more; [exact H|].
  apply Nat2Z.inj_le. rewrite positive_nat_Z. exact Hn.
Qed.

(** The terrain oracle is consulted only at the neighbours of the tile
    taken from the open list. *)
Lemma relax_terrain_ext (t1 t2 : Z -> Z -> bool) (blocked : Tile -> bool)
    (goal current : Tile) (st : AStar.t) (n : Tile) :
  t1 (fst current + fst n) (snd current + snd n)
  = t2 (fst current + fst n) (snd current + snd n) ->
  relax t1 blocked goal current st n = relax t2 blocked goal current st n.
Proof. intros H. unfold relax. rewrite H. reflexivity. Qed.

Lemma fold_relax_terrain_ext (t1 t2 : Z -> Z -> bool) (blocked : Tile -> bool)
    (goal current : Tile) (ns : list Tile) :
  (forall n, n ∈ ns ->
     t1 (fst current + fst n) (snd current + snd n)
     = t2 (fst current + fst n) (snd current + snd n)) ->
  forall st,
    fold_left (relax t1 blocked goal current) ns st
    = fold_left (relax t2 blocked goal current) ns st.
Proof.
  induction ns as [|n ns IH]; intros H st; [reflexivity|]. simpl.
  rewrite (relax_terrain_ext t1 t2) by (apply H; left).
  apply IH. intros m Hm. apply H. right. exact Hm.
Qed.

Lemma astarStep_terrain_ext (t1 t2 : Z -> Z -> bool) (blocked : Tile -> bool)
    (start goal : Tile) (st : AStar.t) :
  (forall lowest openSet' n,
     popLowest (AStar.openSet st) = Some (lowest, openSet') ->
     n ∈ neighbors ->
     t1 (fst (OpenEntry.node lowest) + fst n)
        (snd (OpenEntry.node lowest) + snd n)
     = t2 (fst (OpenEntry.node lowest) + fst n)
          (snd (OpenEntry.node lowest) + snd n)) ->
  astarStep t1 blocked start goal st = astarStep t2 blocked start goal st.
Proof.
  intros H. unfold astarStep.
  destruct (popLowest (AStar.openSet st)) as [[lowest openSet']|] eqn:Hpop;
    [|reflexivity].
  destruct (bool_decide (OpenEntry.node lowest = goal)); [reflexivity|].
  f_equal. apply fold_relax_terrain_ext. intros n Hn.
  apply (H lowest openSet' n eq_refl Hn).
Qed.

(** Tiles within 8 of the anchor of player 1 are valid terrain. *)
Lemma tileTerrain_near_player1 (x y : Z) :
  0 <= x < 64 -> 0 <= y < 64 ->
  (x - 10) * (x - 10) + (y - 54) * (y - 54) < 64 ->
  tileTerrain x y = true.
Proof.
  intros Hx Hy Hd. unfold tileTerrain.
  apply (isValidTerrain_near_tested_anchor _ _ (Vector2.mk 10 54)).
  - unfold testedAnchors. left.
  - unfold inBoundsR, MAP_SIZE. split; split;
      first [apply IZR_le; lia | apply IZR_lt; lia].
  - unfold getDistance. simpl. apply sqrt_lt_8.
    apply IZR_lt in Hd. rewrite plus_IZR, !mult_IZR, !minus_IZR in Hd.
    rewrite !Rmult_1_r. split; [|exact Hd].
    pose proof (Rle_0_sqr (IZR x - 10)). pose proof (Rle_0_sqr (IZR y - 54)).
    unfold Rsqr in *. lra.
Qed.

(** A search that starts on a blocked tile next to the base of player 1. *)
Lemma findPath_from_blocked_start_tile :
  findPathWith tileTerrain [] (10 + 0.5) (54 + 0.5) (11 + 0.5) (54 + 0.5)
    None None (Some {[ (10, 54) ]})
  = Some [tileCenter (10, 54); tileCenter (11, 54)].
Proof.
  rewrite findPathWith_unfold.
  rewrite !Math_floor_IZR_half.
  rewrite (findPathTiles_of_iterate _ _ _ _ 2
             (Some [tileCenter (10, 54); tileCenter (11, 54)]));
    [reflexivity|lia|].
  change (iterate ?t ?b ?s ?g 2 ?st)
    with (match astarStep t b s g st with
          | Running st' =>
            match astarStep t b s g st' with
            | Running st'' => Running st''
            | o => o
            end
          | o => o
          end).
  rewrite (astarStep_terrain_ext tileTerrain (fun _ _ => true)).
  - vm_compute. reflexivity.
  - intros lowest openSet' n Hpop Hn. vm_compute in Hpop.
    injection Hpop as <- _. simpl.
    unfold neighbors in Hn.
    repeat (apply elem_of_cons in Hn as [->|Hn];
            [apply tileTerrain_near_player1; simpl; lia|]).
    inversion Hn.
Qed.

(** C1 (counterexample).  With tile (10,54) in the blocked set, a search
    from that tile to its neighbour (11,54) returns a path whose first
    waypoint is the center of the blocked tile (10,54), which is not the
    goal tile. *)
Lemma findPath_start_tile_may_be_blocked :
  exists path,
    findPath [] (10 + 0.5) (54 + 0.5) (11 + 0.5) (54 + 0.5) None None
      (Some {[ (10, 54) ]}) = Some path
    /\ head path = Some (tileCenter (10, 54))
    /\ (10, 54) ∈ ({[ (10, 54) ]} : gset Tile)
    /\ (10, 54) <> (Math_floor (11 + 0.5), Math_floor (54 + 0.5)).
Proof.
  exists [tileCenter (10, 54); tileCenter (11, 54)].
  split; [exact findPath_from_blocked_start_tile|].
  split; [reflexivity|]. split; [apply elem_of_singleton; reflexivity|].
  rewrite !Math_floor_IZR_half. discriminate.
Qed.

Lemma findPath_path_valid_witness :
  exists tiles,
    [tileCenter (10, 54); tileCenter (11, 54)] = map tileCenter tiles
    /\ isGridPath tiles = true.
Proof.
  destruct (findPath_path_valid tileTerrain [] (10 + 0.5) (54 + 0.5)
              (11 + 0.5) (54 + 0.5) None None (Some {[ (10, 54) ]})
              [tileCenter (10, 54); tileCenter (11, 54)]
              findPath_from_blocked_start_tile)
    as (tiles & H1 & _ & _ & _ & H2 & _).
  exists tiles. split; assumption.
Defined.

(** ** The tick: what the per-entity loop leaves alone *)

Lemma sameIdentity_refl (e : Entity) : sameIdentity e e.
Proof. repeat split. Qed.

Lemma sameIdentity_trans (a b c : Entity) :
  sameIdentity a b -> sameIdentity b c -> sameIdentity a c.
Proof.
  unfold sameIdentity. intros H1 H2.
  destruct H1 as (?&?&?&?&?&?&?&?&?), H2 as (?&?&?&?&?&?&?&?&?).
  repeat split; congruence.
Qed.

Lemma samePlace_trans (a b c : Entity) :
  samePlace a b -> samePlace b c -> samePlace a c.
Proof. unfold samePlace. intros [? ?] [? ?]. split; congruence. Qed.

Lemma stepFrame_refl (i : nat) (es : list Entity) : stepFrame i es es.
Proof.
  split; [reflexivity|]. intros k e H. exists e.
  split; [exact H|]. split; [apply sameIdentity_refl|]. intros _. split; reflexivity.
Qed.

Lemma stepFrame_trans (i : nat) (a b c : list Entity) :
  stepFrame i a b -> stepFrame i b c -> stepFrame i a c.
Proof.
  intros [L1 H1] [L2 H2]. split; [congruence|]. intros k e Hk.
  destruct (H1 k e Hk) as (e1 & Hk1 & Hi1 & Hp1).
  destruct (H2 k e1 Hk1) as (e2 & Hk2 & Hi2 & Hp2).
  exists e2. split; [exact Hk2|]. split; [eapply sameIdentity_trans; eauto|].
  intros Hne. eapply samePlace_trans; eauto.
Qed.

(** An assignment to a field of the object being updated. *)
Lemma stepFrame_modE_self (i : nat) (f : Entity -> Entity)
    (es X : list Entity) :
  keepsIdentity f -> stepFrame i es X -> stepFrame i es (modE i f X).
Proof.
  intros Hf HX. eapply stepFrame_trans; [exact HX|]. unfold modE.
  split; [apply length_alter|]. intros k e Hk.
  destruct (decide (i = k)) as [->|Hne].
  - exists (f e). rewrite list_lookup_alter_eq, Hk. split; [reflexivity|].
    split; [apply Hf|]. intros Hn. congruence.
  - exists e. rewrite list_lookup_alter_ne by exact Hne. split; [exact Hk|].
    split; [apply sameIdentity_refl|]. intros _. split; reflexivity.
Qed.

(** An assignment to a field other than the position, of any object. *)
Lemma stepFrame_modE_any (i t : nat) (f : Entity -> Entity)
    (es X : list Entity) :
  keepsIdentity f -> keepsPlace f -> stepFrame i es X ->
  stepFrame i es (modE t f X).
Proof.
  intros Hf Hp HX. eapply stepFrame_trans; [exact HX|]. unfold modE.
  split; [apply length_alter|]. intros k e Hk.
  destruct (decide (t = k)) as [->|Hne].
  - exists (f e). rewrite list_lookup_alter_eq, Hk. split; [reflexivity|].
    split; [apply Hf|]. intros _. apply Hp.
  - exists e. rewrite list_lookup_alter_ne by exact Hne. split; [exact Hk|].
    split; [apply sameIdentity_refl|]. intros _. split; reflexivity.
Qed.

Ltac frame :=
  repeat first
    [ assumption
    | apply stepFrame_refl
    | apply stepFrame_modE_self; [intros []; repeat split|]
    | match goal with
      | |- stepFrame _ _ (if ?b then _ else _) => destruct b
      | |- stepFrame _ _ (match ?x with _ => _ end) => destruct x
      end ].

Lemma tickCooldown_frame (deltaTime : R) (i : nat) (es X : list Entity) :
  stepFrame i es X -> stepFrame i es (tickCooldown deltaTime i X).
Proof. intros HX. unfold tickCooldown. frame. Qed.

Lemma onBlockedStep_frame (i : nat) (es X : list Entity) :
  stepFrame i es X -> stepFrame i es (onBlockedStep i X).
Proof. intros HX. unfold onBlockedStep. cbv zeta. frame. Qed.

Lemma moveTo_frame (i : nat) (newX newY dx dy len : R) (es X : list Entity) :
  stepFrame i es X -> stepFrame i es (moveTo i newX newY dx dy len X).
Proof. intros HX. unfold moveTo. cbv zeta. frame. Qed.

Lemma attack_frame (i target : nat) (es X : list Entity) :
  stepFrame i es X -> stepFrame i es (attack i target X).
Proof.
  intros HX. unfold attack. cbv zeta.
  match goal with |- stepFrame _ _ (if ?b then _ else _) => destruct b end.
  - apply stepFrame_modE_self; [intros []; repeat split|].
    apply stepFrame_modE_any; [intros []; repeat split|intros []; split; reflexivity|].
    apply stepFrame_modE_any; [intros []; repeat split|intros []; split; reflexivity|].
    frame.
  - frame.
Qed.

Lemma followPath_frame (deltaTime speed : R) (i : nat) (waypoint : Vector2)
    (es X : list Entity) :
  stepFrame i es X -> stepFrame i es (followPath deltaTime speed i waypoint X).
Proof.
  intros HX. unfold followPath. cbv zeta.
  destruct (Rltb 0 _); [|exact HX].
  match goal with
  | |- stepFrame _ _ (if _ then modE _ _ ?Y else ?Y) =>
    assert (stepFrame i es Y) as HY
  end.
  { destruct (_ && _); [apply moveTo_frame|apply onBlockedStep_frame]; exact HX. }
  frame.
Qed.

Lemma moveDirect_frame (deltaTime speed : R) (i target : nat)
    (es X : list Entity) :
  stepFrame i es X -> stepFrame i es (moveDirect deltaTime speed i target X).
Proof.
  intros HX. unfold moveDirect. cbv zeta.
  destruct (Rltb 0 _); [|exact HX].
  destruct (_ && _); [apply moveTo_frame|apply onBlockedStep_frame]; exact HX.
Qed.

Lemma actOn_frame (deltaTime speed dist radius : R) (i target : nat)
    (es X : list Entity) :
  stepFrame i es X ->
  stepFrame i es (actOn deltaTime speed dist radius i target X).
Proof.
  intros HX. unfold actOn. cbv zeta.
  destruct (_ && _); [apply attack_frame; exact HX|].
  destruct (Entity.path _) as [path|];
    [destruct (Entity.pathIndex _) as [idx|];
     [destruct (path !! idx); [apply followPath_frame; exact HX|]|]|];
    (destruct (_ && _); [apply moveDirect_frame; exact HX|exact HX]).
Qed.

Lemma planPath_frame (blockedTiles : gset Tile) (i target : nat)
    (es X : list Entity) :
  stepFrame i es X -> stepFrame i es (fst (planPath blockedTiles i target X)).
Proof.
  intros HX. unfold planPath. cbv zeta.
  match goal with
  | |- stepFrame _ _ (fst (let '(d, p) := ?c in _)) => destruct c as [d p]
  end.
  simpl fst.
  apply stepFrame_modE_self; [intros []; repeat split|].
  apply stepFrame_modE_self; [intros []; repeat split|].
  frame.
Qed.

Lemma pursue_frame (deltaTime : R) (players : gmap string PlayerState)
    (bd bi : gset Tile) (i target : nat) (es X : list Entity) :
  stepFrame i es X ->
  stepFrame i es (pursue deltaTime players bd bi i target X).
Proof.
  intros HX. unfold pursue.
  set (speed := speedOf (getE X i)).
  set (isZombie := bool_decide (Entity.type (getE X i) = ZOMBIE)).
  set (bt := if isZombie then bi else bd).
  set (X1 := modE i (Entity.set_pathCooldown _) X).
  assert (stepFrame i es X1) as H1
    by (apply stepFrame_modE_self; [intros []; repeat split|exact HX]).
  cbv zeta.
  match goal with
  | |- stepFrame _ _ (let '(a, b) := ?c in _) =>
    assert (stepFrame i es (fst c)) as H2; [|destruct c as [X2 t2]]
  end.
  { destruct (_ && _); [apply planPath_frame; exact H1|].
    destruct (_ && _); [|exact H1].
    destruct (findLockedTarget _ _); exact H1. }
  simpl fst in H2.
  destruct (_ && _); [|apply actOn_frame; exact H2].
  match goal with
  | |- stepFrame _ _ (if _ then match _ with Some _ => _ | None => ?Y end else _) =>
    assert (stepFrame i es Y) as H3
  end.
  { frame. }
  destruct isZombie; [|exact H3].
  destruct (findClosestTarget _ _ _ _); [apply actOn_frame|]; exact H3.
Qed.

Lemma entityStep_stepFrame (deltaTime : R) (players : gmap string PlayerState)
    (bd bi : gset Tile) (i : nat) (es : list Entity) :
  stepFrame i es (entityStep deltaTime players bd bi es i).
Proof.
  unfold entityStep. cbv zeta.
  pose proof (tickCooldown_frame deltaTime i es es (stepFrame_refl i es)) as H.
  destruct (_ || _); [|exact H].
  destruct (acquireTarget _ _ _); [apply pursue_frame|]; exact H.
Qed.

Lemma tickCooldown_keeps_places (deltaTime : R) (i j : nat) (es : list Entity) :
  stepFrame j es (tickCooldown deltaTime i es).
Proof.
  unfold tickCooldown.
  destruct (Entity.attackCooldown _); [|apply stepFrame_refl].
  destruct (_ && _); [|apply stepFrame_refl].
  apply stepFrame_modE_any;
    [intros []; repeat split|intros []; split; reflexivity|apply stepFrame_refl].
Qed.

Lemma loopFrame_refl (es : list Entity) : loopFrame es es.
Proof.
  split; [reflexivity|]. intros k e H. exists e.
  split; [exact H|]. split; [apply sameIdentity_refl|]. intros _. split; reflexivity.
Qed.

Lemma loopFrame_trans (a b c : list Entity) :
  loopFrame a b -> loopFrame b c -> loopFrame a c.
Proof.
  intros [L1 H1] [L2 H2]. split; [congruence|]. intros k e Hk.
  destruct (H1 k e Hk) as (e1 & Hk1 & Hi1 & Hp1).
  destruct (H2 k e1 Hk1) as (e2 & Hk2 & Hi2 & Hp2).
  exists e2. split; [exact Hk2|]. split; [eapply sameIdentity_trans; eauto|].
  intros Himm. eapply samePlace_trans; [apply Hp1; exact Himm|].
  apply Hp2. unfold isAnimate in *. destruct Hi1 as (_ & -> & _). exact Himm.
Qed.

(** One round of the loop moves no immobile entity: the round of an
    immobile entity only counts down its cooldown, and the round of an
    animate one assigns positions to that entity alone. *)
Lemma entityStep_loopFrame (deltaTime : R) (players : gmap string PlayerState)
    (bd bi : gset Tile) (i : nat) (es : list Entity) :
  loopFrame es (entityStep deltaTime players bd bi es i).
Proof.
  destruct (entityStep_stepFrame deltaTime players bd bi i es) as [HL HF].
  split; [exact HL|]. intros k e Hk.
  destruct (HF k e Hk) as (e' & Hk' & Hid & Hpl).
  exists e'. split; [exact Hk'|]. split; [exact Hid|]. intros Himm.
  destruct (decide (k = i)) as [->|Hne]; [|apply Hpl; exact Hne].
  destruct (tickCooldown_keeps_places deltaTime i (S i) es) as [_ HT].
  destruct (HT i e Hk) as (e1 & Hk1 & Hid1 & Hpl1).
  unfold entityStep in Hk'. cbv zeta in Hk'.
  assert (getE (tickCooldown deltaTime i es) i = e1) as Hg
    by (unfold getE; rewrite Hk1; reflexivity).
  rewrite Hg in Hk'. destruct Hid1 as (_ & Hty & _).
  unfold isAnimate in Himm. rewrite <- Hty in Himm. rewrite Himm in Hk'.
  rewrite Hk1 in Hk'. injection Hk' as <-. apply Hpl1. lia.
Qed.

Lemma fold_entityStep_loopFrame (deltaTime : R)
    (players : gmap string PlayerState) (bd bi : gset Tile)
    (indices : list nat) :
  forall es,
    loopFrame es (fold_left (entityStep deltaTime players bd bi) indices es).
Proof.
  induction indices as [|i indices IH]; intros es; simpl.
  - apply loopFrame_refl.
  - eapply loopFrame_trans; [apply entityStep_loopFrame|apply IH].
Qed.

Lemma updateEntities_loopFrame (deltaTime : R) (s : GameState) :
  loopFrame (GameState.entities s) (updateEntities deltaTime s).
Proof. unfold updateEntities. apply fold_entityStep_loopFrame. Qed.

(** ** The tick: the removal sweep and the win check *)

Lemma sweep_entities (players : gmap string PlayerState) (es : list Entity) :
  snd (sweep players es) = List.filter (fun e => negb (Entity.hp e <=? 0)) es.
Proof.
  revert players. induction es as [|e es IH]; intros players; [reflexivity|].
  simpl. unfold sweepEntity at 1.
  destruct (Entity.hp e <=? 0); simpl.
  - match goal with |- context [sweep ?p es] => specialize (IH p) end.
    destruct (sweep _ es). exact IH.
  - specialize (IH players). destruct (sweep players es). simpl in *.
    f_equal. exact IH.
Qed.

Lemma checkGameOver_entities (s : GameState) :
  GameState.entities (checkGameOver s) = GameState.entities s /\
  GameState.players (checkGameOver s) = GameState.players s.
Proof.
  unfold checkGameOver. destruct s. simpl.
  destruct (_ =? _)%nat; [split; reflexivity|].
  destruct (List.find _ _); split; reflexivity.
Qed.

Lemma update_entities (deltaTime : R) (s : GameState) :
  GameState.gameOver s = false ->
  GameState.entities (update deltaTime s)
  = List.filter (fun e => negb (Entity.hp e <=? 0)) (updateEntities deltaTime s)
  /\ GameState.players (update deltaTime s)
     = fst (sweep (GameState.players s) (updateEntities deltaTime s)).
Proof.
  intros Hg. unfold update. rewrite Hg.
  pose proof (sweep_entities (GameState.players s) (updateEntities deltaTime s))
    as Hs.
  destruct (sweep _ _) as [players entities]. simpl in Hs. subst entities.
  destruct (checkGameOver_entities
              (GameState.set_entities
                 (List.filter (fun e => negb (Entity.hp e <=? 0))
                    (updateEntities deltaTime s))
                 (GameState.set_players players s))) as [-> ->].
  destruct s; split; reflexivity.
Qed.

(** C10.  [update] never moves immobile entities.  The per-entity loop
    leaves the list [es1] of the same objects (same ids, types and owners,
    position by position), in which every entity that is neither a unit nor
    a zombie has the x and y it had before the call; the entities after the
    call are the entities of [es1] with hp > 0, as they are in [es1]. *)
Theorem update_keeps_immobile_in_place (deltaTime : R) (s : GameState) :
  exists es1,
    length es1 = length (GameState.entities s) /\
    (forall k e,
        GameState.entities s !! k = Some e ->
        exists e1,
          es1 !! k = Some e1 /\
          Entity.id e1 = Entity.id e /\
          Entity.type e1 = Entity.type e /\
          Entity.ownerId e1 = Entity.ownerId e /\
          (Entity.type e <> UNIT -> Entity.type e <> ZOMBIE ->
           Entity.x e1 = Entity.x e /\ Entity.y e1 = Entity.y e)) /\
    GameState.entities (update deltaTime s)
    = if GameState.gameOver s then es1
      else List.filter (fun e => negb (Entity.hp e <=? 0)) es1.
Proof.
  assert (forall es1, loopFrame (GameState.entities s) es1 ->
            length es1 = length (GameState.entities s) /\
            (forall k e,
                GameState.entities s !! k = Some e ->
                exists e1,
                  es1 !! k = Some e1 /\
                  Entity.id e1 = Entity.id e /\
                  Entity.type e1 = Entity.type e /\
                  Entity.ownerId e1 = Entity.ownerId e /\
                  (Entity.type e <> UNIT -> Entity.type e <> ZOMBIE ->
                   Entity.x e1 = Entity.x e /\ Entity.y e1 = Entity.y e)))
    as Hframe.
  { intros es1 [HL HF]. split; [exact HL|]. intros k e Hk.
    destruct (HF k e Hk) as (e1 & Hk1 & (Hid & Hty & Hown & _) & Hpl).
    exists e1. repeat (split; [assumption|]). intros Hu Hz. apply Hpl.
    unfold isAnimate. rewrite !bool_decide_eq_false_2 by assumption.
    reflexivity. }
  destruct (GameState.gameOver s) eqn:Hg.
  - exists (GameState.entities s).
    destruct (Hframe _ (loopFrame_refl _)) as [H1 H2].
    split; [exact H1|]. split; [exact H2|]. unfold update. rewrite Hg. reflexivity.
  - exists (updateEntities deltaTime s).
    destruct (Hframe _ (updateEntities_loopFrame deltaTime s)) as [H1 H2].
    split; [exact H1|]. split; [exact H2|].
    apply (update_entities deltaTime s Hg).
Qed.

(** ** The tick: bounties *)

Lemma truthyStr_Some (o : option string) :
  truthyStr o = true -> exists k, o = Some k /\ k <> "".
Proof.
  destruct o as [k|]; [|discriminate]. simpl. intros H. exists k.
  split; [reflexivity|]. intros ->. discriminate.
Qed.

(** The sweep callback on one removed zombie (hp <= 0): the fixed bounty
    goes to one player at most, the player whose id the zombie's
    [lastAttackerId] holds, and only if that player is not defeated.  Every
    other player, and every other field of that player, is left as it was.
    (Players are keyed by "p1".."p8"; no player has the empty id.) *)
Lemma sweepEntity_zombie_bounty (players : gmap string PlayerState) (e : Entity) :
  players !! "" = None ->
  Entity.hp e <= 0 -> Entity.type e = ZOMBIE ->
  snd (sweepEntity players e) = false /\
  forall pid,
    fst (sweepEntity players e) !! pid
    = match players !! pid with
      | Some p =>
        Some (if bool_decide (Entity.lastAttackerId e = Some pid)
                 && negb (PlayerState.defeated p)
              then PlayerState.set_gold (PlayerState.gold p + ZOMBIE_BOUNTY) p
              else p)
      | None => None
      end.
Proof.
  intros Hempty Hhp Hty. unfold sweepEntity.
  assert ((Entity.hp e <=? 0) = true) as -> by (apply Z.leb_le; exact Hhp).
  rewrite Hty. simpl. split; [reflexivity|]. intros pid.
  destruct (truthyStr (Entity.lastAttackerId e)) eqn:Htr.
  - apply truthyStr_Some in Htr as (k & Hk & Hne). rewrite Hk. simpl.
    destruct (players !! k) as [killer|] eqn:Hkiller.
    + destruct (PlayerState.defeated killer) eqn:Hdef; simpl.
      * destruct (players !! pid) as [p|] eqn:Hp; [|reflexivity].
        destruct (bool_decide (Some k = Some pid)) eqn:Hb; [|reflexivity].
        apply bool_decide_eq_true in Hb. injection Hb as ->.
        rewrite Hkiller in Hp. injection Hp as <-. rewrite Hdef. reflexivity.
      * destruct (decide (k = pid)) as [->|Hn].
        -- rewrite lookup_insert_eq, Hkiller, Hdef.
           rewrite bool_decide_eq_true_2 by reflexivity. reflexivity.
        -- rewrite lookup_insert_ne by exact Hn.
           destruct (players !! pid); [|reflexivity].
           rewrite bool_decide_eq_false_2 by congruence. reflexivity.
    + destruct (players !! pid) as [p|] eqn:Hp; [|reflexivity].
      rewrite bool_decide_eq_false_2 by congruence. reflexivity.
  - destruct (players !! pid) as [p|] eqn:Hp; [|reflexivity].
    destruct (bool_decide (Entity.lastAttackerId e = Some pid)) eqn:Hb;
      [|reflexivity].
    apply bool_decide_eq_true in Hb. rewrite Hb in Htr. simpl in Htr.
    apply negb_false_iff, String.eqb_eq in Htr. subst pid. congruence.
Qed.

(** ** Defeat is permanent *)

Lemma keepsDefeated_refl (players : gmap string PlayerState) :
  keepsDefeated players players.
Proof. intros pid p H. exists p. auto. Qed.

Lemma keepsDefeated_trans (a b c : gmap string PlayerState) :
  keepsDefeated a b -> keepsDefeated b c -> keepsDefeated a c.
Proof.
  intros H1 H2 pid p Hp. destruct (H1 pid p Hp) as (p1 & Hp1 & Hd1).
  destruct (H2 pid p1 Hp1) as (p2 & Hp2 & Hd2). exists p2. auto.
Qed.

Lemma keepsDefeated_insert (players : gmap string PlayerState) (k : string)
    (p p' : PlayerState) :
  players !! k = Some p ->
  (PlayerState.defeated p = true -> PlayerState.defeated p' = true) ->
  keepsDefeated players (<[k := p']> players).
Proof.
  intros Hk Hd pid q Hq. destruct (decide (k = pid)) as [->|Hn].
  - exists p'. rewrite lookup_insert_eq. split; [reflexivity|].
    intros Hdq. apply Hd. congruence.
  - exists q. rewrite lookup_insert_ne by exact Hn. auto.
Qed.

Lemma keepsDefeated_update (players : gmap string PlayerState) (b : bool)
    (k : string) (f : PlayerState -> PlayerState) :
  (forall p, PlayerState.defeated p = true -> PlayerState.defeated (f p) = true) ->
  keepsDefeated players
    (if b then
       match players !! k with
       | Some p => <[k := f p]> players
       | None => players
       end
     else players).
Proof.
  intros Hf. destruct b; [|apply keepsDefeated_refl].
  destruct (players !! k) as [p|] eqn:Hk; [|apply keepsDefeated_refl].
  eapply keepsDefeated_insert; [exact Hk|apply Hf].
Qed.

Lemma sweepEntity_keepsDefeated (players : gmap string PlayerState)
    (e : Entity) :
  keepsDefeated players (fst (sweepEntity players e)).
Proof.
  unfold sweepEntity. destruct (Entity.hp e <=? 0); [|apply keepsDefeated_refl].
  cbv zeta. simpl fst.
  match goal with
  | |- keepsDefeated _ (if _ then match ?P2 !! _ with _ => _ end else _) =>
    remember P2 as Q2 eqn:HQ2;
    assert (keepsDefeated players Q2) as H2;
    [subst Q2|
     eapply keepsDefeated_trans;
     [exact H2|
      apply (keepsDefeated_update Q2 _ _
               (fun owner => PlayerState.set_currentPop
                               (Z.max 0 (PlayerState.currentPop owner - 1))
                               owner));
      intros []; auto]]
  end.
  match goal with
  | |- keepsDefeated _ (if _ then match ?P1 !! _ with _ => _ end else _) =>
    remember P1 as Q1 eqn:HQ1;
    assert (keepsDefeated players Q1) as H1;
    [subst Q1|
     eapply keepsDefeated_trans;
     [exact H1|
      apply (keepsDefeated_update Q1 _ _ (PlayerState.set_defeated true));
      intros []; auto]]
  end.
  destruct (_ && _); [|apply keepsDefeated_refl].
  destruct (players !! _) as [killer|] eqn:Hk; [|apply keepsDefeated_refl].
  destruct (negb _); [|apply keepsDefeated_refl].
  eapply keepsDefeated_insert; [exact Hk|]. destruct killer; auto.
Qed.

Lemma sweep_keepsDefeated (es : list Entity) :
  forall players, keepsDefeated players (fst (sweep players es)).
Proof.
  induction es as [|e es IH]; intros players; [apply keepsDefeated_refl|].
  simpl. pose proof (sweepEntity_keepsDefeated players e) as H1.
  destruct (sweepEntity players e) as [players' keep].
  specialize (IH players'). destruct (sweep players' es) as [players'' kept].
  simpl in *. eapply keepsDefeated_trans; eauto.
Qed.

Lemma update_keepsDefeated (deltaTime : R) (s : GameState) :
  keepsDefeated (GameState.players s) (GameState.players (update deltaTime s)).
Proof.
  destruct (GameState.gameOver s) eqn:Hg.
  - unfold update. rewrite Hg. apply keepsDefeated_refl.
  - destruct (update_entities deltaTime s Hg) as [_ ->].
    apply sweep_keepsDefeated.
Qed.

(** A command of a player who is missing or defeated changes nothing. *)
Lemma commands_of_defeated_player (s : GameState) (playerId : string) :
  match GameState.players s !! playerId with
  | Some p => PlayerState.defeated p = true
  | None => True
  end ->
  (forall newId rnd k, spawnUnit newId rnd playerId k s = s) /\
  (forall newId x y, buildHouse newId playerId x y s = s) /\
  (forall newId x y, buildMine newId playerId x y s = s) /\
  (forall newId x y, buildWall newId playerId x y s = s).
Proof.
  intros H. unfold spawnUnit, buildHouse, buildMine, buildWall.
  destruct (GameState.players s !! playerId) as [p|]; [rewrite H|];
    repeat split; reflexivity.
Qed.

Lemma applyOp_keepsDefeated (s : GameState) (op : Operation) :
  keepsDefeated (GameState.players s) (GameState.players (applyOp s op)).
Proof.
  destruct op as [dt|newId rnd pid k|newId pid x y|newId pid x y|newId pid x y
                 |pc newId rnd]; simpl.
  - apply update_keepsDefeated.
  - unfold spawnUnit.
    destruct (GameState.players s !! pid) as [p|] eqn:Hp;
      [|apply keepsDefeated_refl].
    destruct (PlayerState.defeated p) eqn:Hd; [apply keepsDefeated_refl|].
    destruct (_ && _); [|apply keepsDefeated_refl].
    destruct s; simpl in *. eapply keepsDefeated_insert; [exact Hp|]. congruence.
  - unfold buildHouse.
    destruct (GameState.players s !! pid) as [p|] eqn:Hp;
      [|apply keepsDefeated_refl].
    destruct (PlayerState.defeated p) eqn:Hd; [apply keepsDefeated_refl|].
    cbv zeta. destruct (_ && _); [|apply keepsDefeated_refl].
    destruct s; simpl in *. eapply keepsDefeated_insert; [exact Hp|]. congruence.
  - unfold buildMine.
    destruct (GameState.players s !! pid) as [p|] eqn:Hp;
      [|apply keepsDefeated_refl].
    destruct (PlayerState.defeated p) eqn:Hd; [apply keepsDefeated_refl|].
    cbv zeta. destruct (_ && _); [|apply keepsDefeated_refl].
    destruct s; simpl in *. eapply keepsDefeated_insert; [exact Hp|]. congruence.
  - unfold buildWall.
    destruct (GameState.players s !! pid) as [p|] eqn:Hp;
      [|apply keepsDefeated_refl].
    destruct (PlayerState.defeated p) eqn:Hd; [apply keepsDefeated_refl|].
    cbv zeta. destruct (_ && _); [|apply keepsDefeated_refl].
    destruct s; simpl in *. eapply keepsDefeated_insert; [exact Hp|]. congruence.
  - unfold spawnZombie. destruct (List.find _ _); [|apply keepsDefeated_refl].
    destruct s; simpl. apply keepsDefeated_refl.
Qed.

Lemma applyOps_keepsDefeated (ops : list Operation) :
  forall s,
    keepsDefeated (GameState.players s)
      (GameState.players (fold_left applyOp ops s)).
Proof.
  induction ops as [|op ops IH]; intros s; simpl; [apply keepsDefeated_refl|].
  eapply keepsDefeated_trans; [apply applyOp_keepsDefeated|apply IH].
Qed.

(** C6.  Once a player's defeated flag is true it remains true under every
    sequence of engine operations (update, spawnUnit, buildHouse, buildMine,
    buildWall, and spawnZombie), and every build or spawn operation invoked
    by that player leaves the whole game state unchanged. *)
Theorem defeated_is_permanent (s : GameState) (playerId : string)
    (p : PlayerState) :
  GameState.players s !! playerId = Some p ->
  PlayerState.defeated p = true ->
  (forall ops, exists p',
      GameState.players (fold_left applyOp ops s) !! playerId = Some p'
      /\ PlayerState.defeated p' = true) /\
  (forall newId rnd k, spawnUnit newId rnd playerId k s = s) /\
  (forall newId x y, buildHouse newId playerId x y s = s) /\
  (forall newId x y, buildMine newId playerId x y s = s) /\
  (forall newId x y, buildWall newId playerId x y s = s).
Proof.
  intros Hp Hd. split.
  - intros ops. destruct (applyOps_keepsDefeated ops s playerId p Hp)
      as (p' & Hp' & Hd').
    exists p'. auto.
  - apply commands_of_defeated_player. rewrite Hp. exact Hd.
Qed.

Lemma defeated_is_permanent_witness :
  buildWall "w1" "p1" 12 50 defeatedState = defeatedState.
Proof.
  destruct (defeated_is_permanent defeatedState "p1"
              (PlayerState.set_defeated true samplePlayer))
    as (_ & _ & _ & _ & H).
  - reflexivity.
  - reflexivity.
  - apply H.
Defined.

(** ** The verdict *)

Lemma update_after_gameOver (deltaTime : R) (s : GameState) :
  GameState.gameOver s = true -> update deltaTime s = s.
Proof. intros H. unfold update. rewrite H. reflexivity. Qed.

Lemma updates_after_gameOver (deltaTimes : list R) (s : GameState) :
  GameState.gameOver s = true ->
  fold_left (fun s dt => update dt s) deltaTimes s = s.
Proof.
  intros H. induction deltaTimes as [|dt dts IH]; [reflexivity|].
  simpl. rewrite update_after_gameOver by exact H. exact IH.
Qed.

Lemma checkGameOver_verdict (s : GameState) :
  verdictConsistent s -> verdictConsistent (checkGameOver s).
Proof.
  intros H. unfold checkGameOver.
  destruct (_ =? _)%nat.
  - right. left. destruct s; split; reflexivity.
  - destruct (List.find _ _); [exact H|].
    right. right. destruct s; split; reflexivity.
Qed.

Lemma applyOp_verdict (s : GameState) (op : Operation) :
  verdictConsistent s -> verdictConsistent (applyOp s op).
Proof.
  intros H.
  destruct op as [dt|newId rnd pid k|newId pid x y|newId pid x y|newId pid x y
                 |pc newId rnd]; simpl.
  - unfold update. destruct (GameState.gameOver s) eqn:Hg; [exact H|].
    destruct (sweep _ _) as [players entities].
    apply checkGameOver_verdict. destruct s; exact H.
  - unfold spawnUnit. destruct (_ !! _); [|exact H].
    destruct (PlayerState.defeated _); [exact H|].
    destruct (_ && _); [|exact H]. destruct s; exact H.
  - unfold buildHouse. destruct (_ !! _); [|exact H].
    destruct (PlayerState.defeated _); [exact H|]. cbv zeta.
    destruct (_ && _); [|exact H]. destruct s; exact H.
  - unfold buildMine. destruct (_ !! _); [|exact H].
    destruct (PlayerState.defeated _); [exact H|]. cbv zeta.
    destruct (_ && _); [|exact H]. destruct s; exact H.
  - unfold buildWall. destruct (_ !! _); [|exact H].
    destruct (PlayerState.defeated _); [exact H|]. cbv zeta.
    destruct (_ && _); [|exact H]. destruct s; exact H.
  - unfold spawnZombie. destruct (List.find _ _); [|exact H].
    destruct s; exact H.
Qed.

Lemma createInitialState_verdict (now : Z) (playerCount : nat)
    (lobbyPlayers : list LobbyPlayer) (s : GameState) :
  createInitialState now playerCount lobbyPlayers = Some s ->
  verdictConsistent s.
Proof.
  unfold createInitialState. destruct (addPlayers _ _ _) as [[ps es]|];
    [|discriminate].
  intros H. injection H as <-. left. split; reflexivity.
Qed.

(** C5.  In every reachable state the verdict is consistent: either the
    game is running and there is no winner, or it is over and the winner is
    exactly one of 'ZOMBIES' and 'PLAYERS'; and once gameOver is true, no
    sequence of calls to [update] changes the state, so neither [winner] nor
    [gameOver] changes. *)
Theorem verdict_exclusive_and_final (s : GameState) :
  reachable s ->
  verdictConsistent s /\
  (GameState.gameOver s = true ->
   forall deltaTimes : list R,
     fold_left (fun s dt => update dt s) deltaTimes s = s).
Proof.
  intros (now & n & lobby & s0 & ops & Hinit & ->).
  split; [|intros H dts; apply updates_after_gameOver; exact H].
  apply createInitialState_verdict in Hinit. revert s0 Hinit.
  induction ops as [|op ops IH]; intros s0 H0; [exact H0|].
  simpl. apply IH. apply applyOp_verdict. exact H0.
Qed.

Lemma verdict_exclusive_and_final_witness : verdictConsistent sampleState.
Proof.
  apply (verdict_exclusive_and_final sampleState).
  exists 0, 1%nat, [], sampleState, []. split; reflexivity.
Defined.

(** ** Finders: nearest-candidate scans *)

Lemma Rltb_negb (a b : R) : negb (Rltb a b) = Rleb b a.
Proof.
  destruct (Rltb a b) eqn:H1, (Rleb b a) eqn:H2; try reflexivity.
  - apply Rltb_true in H1. apply Rleb_true in H2. lra.
  - apply Rltb_false in H1. apply Rleb_false in H2. lra.
Qed.

Lemma Rleb_negb (a b : R) : negb (Rleb a b) = Rltb b a.
Proof.
  destruct (Rleb a b) eqn:H1, (Rltb b a) eqn:H2; try reflexivity.
  - apply Rleb_true in H1. apply Rltb_true in H2. lra.
  - apply Rleb_false in H1. apply Rltb_false in H2. lra.
Qed.

Lemma elem_of_indexed (es : list Entity) (i : nat) (e : Entity) :
  (i, e) ∈ indexed es <-> es !! i = Some e.
Proof.
  unfold indexed. rewrite elem_of_lookup_imap. split.
  - intros (j & y & Heq & Hj). injection Heq as -> ->. exact Hj.
  - intros H. exists i, e. auto.
Qed.

Lemma fold_left_ext_eq {A B : Type} (f g : A -> B -> A) (l : list B) :
  (forall a b, f a b = g a b) ->
  forall a, fold_left f l a = fold_left g l a.
Proof.
  intros H. induction l as [|b l IH]; intros a; [reflexivity|].
  simpl. rewrite H. apply IH.
Qed.

Lemma scanStep_scanned (ok : Entity -> bool) (key : Entity -> R)
    (seen : list (nat * Entity)) (best : option (nat * R))
    (ie : nat * Entity) :
  scanned ok key seen best ->
  scanned ok key (seen ++ [ie]) (scanStep ok key best ie).
Proof.
  intros H. unfold scanStep. destruct ie as [i e]. simpl.
  destruct (ok e) eqn:Hok.
  - destruct best as [[b d]|]; simpl.
    + destruct H as (w & Hw & Hokw & -> & Hmin).
      destruct (Rltb (key e) (key w)) eqn:Hlt.
      * apply Rltb_true in Hlt. exists e. split; [set_solver|].
        split; [exact Hok|]. split; [reflexivity|].
        intros j w' Hj Hokw'. apply elem_of_app in Hj as [Hj|Hj].
        -- specialize (Hmin j w' Hj Hokw'). lra.
        -- apply list_elem_of_singleton in Hj. injection Hj as -> ->. lra.
      * apply Rltb_false in Hlt. exists w. split; [set_solver|].
        split; [exact Hokw|]. split; [reflexivity|].
        intros j w' Hj Hokw'. apply elem_of_app in Hj as [Hj|Hj].
        -- apply (Hmin j w' Hj Hokw').
        -- apply list_elem_of_singleton in Hj. injection Hj as -> ->. exact Hlt.
    + exists e. split; [set_solver|]. split; [exact Hok|]. split; [reflexivity|].
      intros j w' Hj Hokw'. apply elem_of_app in Hj as [Hj|Hj].
      * rewrite (H j w' Hj) in Hokw'. discriminate.
      * apply list_elem_of_singleton in Hj. injection Hj as -> ->. lra.
  - destruct best as [[b d]|]; simpl in *.
    + destruct H as (w & Hw & Hokw & -> & Hmin). exists w.
      split; [set_solver|]. split; [exact Hokw|]. split; [reflexivity|].
      intros j w' Hj Hokw'. apply elem_of_app in Hj as [Hj|Hj].
      * apply (Hmin j w' Hj Hokw').
      * apply list_elem_of_singleton in Hj. injection Hj as -> ->. congruence.
    + intros j w' Hj. apply elem_of_app in Hj as [Hj|Hj]; [eauto|].
      apply list_elem_of_singleton in Hj. injection Hj as -> ->. exact Hok.
Qed.

Lemma scan_scanned (ok : Entity -> bool) (key : Entity -> R)
    (l : list (nat * Entity)) :
  forall seen best,
    scanned ok key seen best ->
    scanned ok key (seen ++ l) (fold_left (scanStep ok key) l best).
Proof.
  induction l as [|ie l IH]; intros seen best H; simpl.
  - rewrite app_nil_r. exact H.
  - replace (seen ++ ie :: l) with ((seen ++ [ie]) ++ l)
      by (rewrite <- app_assoc; reflexivity).
    apply IH. apply scanStep_scanned. exact H.
Qed.

Lemma scan_spec (ok : Entity -> bool) (key : Entity -> R)
    (l : list (nat * Entity)) :
  scanned ok key l (fold_left (scanStep ok key) l None).
Proof.
  apply (scan_scanned ok key l [] None). intros j w' H. inversion H.
Qed.

(** ** Finders: the blocking wall *)

Lemma findBlockingWall_scan (es : list Entity) (source target : Vector2) :
  findBlockingWall es source target
  = fst <$> fold_left
              (scanStep (isBlockingCandidate source target)
                 (fun w => getDistance source (entityPos w)))
              (indexed es) None.
Proof.
  unfold findBlockingWall. cbv zeta.
  assert (forall l best,
    fold_left (fun (best : option (nat * R)) (iw : nat * Entity) =>
      if Rltb WALL_TARGET_MAX_DISTANCE (getDistance source (entityPos (snd iw)))
      then best
      else if Rleb (getDistance source target)
                (getDistance source (entityPos (snd iw)))
      then best
      else if Rltb (wallRadiusOf (snd iw) + WALL_BLOCK_TOLERANCE)
                (distancePointToSegment (Entity.x (snd iw)) (Entity.y (snd iw))
                   (Vector2.x source) (Vector2.y source)
                   (Vector2.x target) (Vector2.y target))
      then best
      else if closer (getDistance source (entityPos (snd iw))) best
      then Some (fst iw, getDistance source (entityPos (snd iw)))
      else best)
      (List.filter (fun ie => isLiveWall (snd ie)) l) best
    = fold_left
        (scanStep (isBlockingCandidate source target)
           (fun w => getDistance source (entityPos w))) l best) as Hfold.
  { induction l as [|[i e] l IH]; intros best; [reflexivity|]. simpl.
    unfold scanStep at 2, isBlockingCandidate. simpl.
    destruct (isLiveWall e) eqn:Hlive; simpl; [|apply IH].
    rewrite <- (Rltb_negb WALL_TARGET_MAX_DISTANCE
                  (getDistance source (entityPos e))).
    rewrite <- (Rleb_negb (getDistance source target)
                  (getDistance source (entityPos e))).
    rewrite <- (Rltb_negb (wallRadiusOf e + WALL_BLOCK_TOLERANCE)
                  (distancePointToSegment (Entity.x e) (Entity.y e)
                     (Vector2.x source) (Vector2.y source)
                     (Vector2.x target) (Vector2.y target))).
    destruct (Rltb WALL_TARGET_MAX_DISTANCE (getDistance source (entityPos e)));
      simpl; [apply IH|].
    destruct (Rleb (getDistance source target)
                (getDistance source (entityPos e))); simpl; [apply IH|].
    destruct (Rltb (wallRadiusOf e + WALL_BLOCK_TOLERANCE)
                (distancePointToSegment (Entity.x e) (Entity.y e)
                   (Vector2.x source) (Vector2.y source)
                   (Vector2.x target) (Vector2.y target))); simpl; apply IH. }
  rewrite Hfold.
  destruct (length (List.filter (fun ie => isLiveWall (snd ie)) (indexed es)) =? 0)%nat
    eqn:Hlen; [|reflexivity].
  apply Nat.eqb_eq in Hlen. apply length_zero_iff_nil in Hlen.
  rewrite <- Hfold, Hlen. reflexivity.
Qed.


Lemma thinWall_blocks :
  isBlockingCandidate (Vector2.mk 0 0) (Vector2.mk 5 0) thinWall = true.
Proof.
  unfold isBlockingCandidate, thinWall, mkBuilding, isLiveWall, wallRadiusOf,
    numOr, getDistance, entityPos, distancePointToSegment,
    WALL_TARGET_MAX_DISTANCE, WALL_BLOCK_TOLERANCE. simpl.
  assert (Reqb 0 0 = true) as -> by (apply Reqb_true; reflexivity).
  assert (Reqb (5 - 0) 0 = false) as ->.
  { destruct (Reqb (5 - 0) 0) eqn:H; [|reflexivity].
    apply Reqb_true in H. lra. }
  simpl.
  replace ((0 - 0) * ((0 - 0) * 1) + (0 - 1) * ((0 - 1) * 1))%R with 1%R by lra.
  replace ((0 - 5) * ((0 - 5) * 1) + (0 - 0) * ((0 - 0) * 1))%R
    with (5 * 5)%R by lra.
  replace (((0 - 0) * (5 - 0) + (1 - 0) * (0 - 0))
           / ((5 - 0) * (5 - 0) + (0 - 0) * (0 - 0)))%R with 0%R
    by (unfold Rdiv; lra).
  assert (Rmax 0 (Rmin 1 0) = 0%R) as ->.
  { unfold Rmin. destruct (Rle_dec 1 0); [lra|].
    unfold Rmax. destruct (Rle_dec 0 0); lra. }
  replace ((0 - (0 + 0 * (5 - 0))) * ((0 - (0 + 0 * (5 - 0))) * 1)
           + (1 - (0 + 0 * (0 - 0))) * ((1 - (0 + 0 * (0 - 0))) * 1))%R
    with 1%R by lra.
  rewrite sqrt_1, sqrt_square by lra.
  assert (Rleb 1 5 = true) as -> by (apply Rleb_true; lra).
  assert (Rltb 1 5 = true) as -> by (apply Rltb_true; lra).
  assert (Rleb 1 (0.8 + 0.75) = true) as -> by (apply Rleb_true; lra).
  reflexivity.
Qed.

(** The effective radius differs from the radius only for a wall whose
    radius field is 0, which no operation of the engine creates.  Such a
    wall, one tile beside the attacker at (0,0) pursuing a target at (5,0),
    is 1 away from the segment, more than its radius plus the tolerance
    (0 + 0.75); still it is returned, because a zero radius is replaced by
    0.8. *)
Lemma findBlockingWall_uses_default_radius :
  findBlockingWall [thinWall] (Vector2.mk 0 0) (Vector2.mk 5 0) = Some 0%nat /\
  ~ (distancePointToSegment (Entity.x thinWall) (Entity.y thinWall) 0 0 5 0
     <= Entity.radius thinWall + WALL_BLOCK_TOLERANCE)%R.
Proof.
  split.
  - rewrite findBlockingWall_scan. unfold scanStep. simpl.
    rewrite thinWall_blocks. reflexivity.
  - pose proof thinWall_blocks as H. unfold isBlockingCandidate in H.
    apply andb_true_iff in H as [H H4]. apply andb_true_iff in H as [H H3].
    apply andb_true_iff in H as [_ H2].
    unfold thinWall, mkBuilding, distancePointToSegment, WALL_BLOCK_TOLERANCE.
    simpl.
    assert (Reqb (5 - 0) 0 = false) as ->.
    { destruct (Reqb (5 - 0) 0) eqn:He; [|reflexivity].
      apply Reqb_true in He. lra. }
    simpl.
    replace (((0 - 0) * (5 - 0) + (1 - 0) * (0 - 0))
             / ((5 - 0) * (5 - 0) + (0 - 0) * (0 - 0)))%R with 0%R
      by (unfold Rdiv; lra).
    assert (Rmax 0 (Rmin 1 0) = 0%R) as ->.
    { unfold Rmin. destruct (Rle_dec 1 0); [lra|].
      unfold Rmax. destruct (Rle_dec 0 0); lra. }
    replace ((0 - (0 + 0 * (5 - 0))) * ((0 - (0 + 0 * (5 - 0))) * 1)
             + (1 - (0 + 0 * (0 - 0))) * ((1 - (0 + 0 * (0 - 0))) * 1))%R
      with 1%R by lra.
    rewrite sqrt_1. lra.
Qed.

(** ** Geometry *)


Lemma snapToTileCoord_floor (v : R) :
  snapToTileCoord v = (IZR (Math_floor v) + 0.5)%R.
Proof.
  unfold snapToTileCoord, Math_round, Math_floor.
  replace (v - 0.5 + 0.5)%R with v by lra. reflexivity.
Qed.


(** X2.  [getDistance] is a metric on points in the ways the engine relies
    on: it is never negative, symmetric, and zero exactly between equal
    coordinates. *)
Theorem getDistance_metric (a b : Vector2) :
  (0 <= getDistance a b)%R /\
  getDistance a b = getDistance b a /\
  (getDistance a b = 0%R <->
   Vector2.x a = Vector2.x b /\ Vector2.y a = Vector2.y b).
Proof.
  unfold getDistance. split; [apply sqrt_pos|]. split.
  - f_equal. simpl. lra.
  - simpl. rewrite !Rmult_1_r.
    pose proof (Rle_0_sqr (Vector2.x a - Vector2.x b)) as Hx.
    pose proof (Rle_0_sqr (Vector2.y a - Vector2.y b)) as Hy.
    unfold Rsqr in *. split.
    + intros H. apply sqrt_eq_0 in H; [|lra].
      assert ((Vector2.x a - Vector2.x b) * (Vector2.x a - Vector2.x b) = 0)%R
        as H1 by lra.
      assert ((Vector2.y a - Vector2.y b) * (Vector2.y a - Vector2.y b) = 0)%R
        as H2 by lra.
      apply Rmult_integral in H1, H2. split; lra.
    + intros [-> ->]. rewrite !Rminus_diag, Rmult_0_l, Rplus_0_l.
      apply sqrt_0.
Qed.


(** ** Terrain *)

Lemma isValidTerrain_base1 : isValidTerrain 10 54 = true.
Proof.
  apply (isValidTerrain_near_tested_anchor 10 54 (Vector2.mk 10 54)).
  - left.
  - unfold inBoundsR, MAP_SIZE. lra.
  - unfold getDistance. simpl. apply sqrt_lt_8. lra.
Qed.

(** X4.  Out-of-bounds points are never valid terrain: whatever the oracle
    accepts lies in [0, MAP_SIZE) x [0, MAP_SIZE). *)
Theorem isValidTerrain_only_in_bounds (x y : R) :
  isValidTerrain x y = true ->
  (0 <= x < IZR MAP_SIZE)%R /\ (0 <= y < IZR MAP_SIZE)%R.
Proof. apply isValidTerrain_in_bounds. Qed.

Lemma isValidTerrain_only_in_bounds_witness :
  (0 <= 10 < IZR MAP_SIZE)%R /\ (0 <= 54 < IZR MAP_SIZE)%R.
Proof.
  apply (isValidTerrain_only_in_bounds 10 54). exact isValidTerrain_base1.
Defined.

(** X5.  Every in-bounds point strictly within distance 8 of the anchor of
    player 1 (10,54), of player 2 (20,44) or of the enemy base (54,10) is
    valid terrain, whatever the corridor noise is there. *)
Theorem isValidTerrain_near_first_bases (x y : R) (anchor : Vector2) :
  anchor = Vector2.mk 10 54 \/ anchor = Vector2.mk 20 44
  \/ anchor = Vector2.mk 54 10 ->
  (0 <= x < IZR MAP_SIZE)%R -> (0 <= y < IZR MAP_SIZE)%R ->
  (getDistance (Vector2.mk x y) anchor < 8)%R ->
  isValidTerrain x y = true.
Proof.
  intros Ha Hx Hy Hd.
  apply (isValidTerrain_near_tested_anchor x y anchor); [|split; assumption|exact Hd].
  unfold testedAnchors. destruct Ha as [ -> | [ -> | -> ] ]; repeat constructor.
Qed.

Lemma isValidTerrain_near_first_bases_witness : isValidTerrain 50 12 = true.
Proof.
  apply (isValidTerrain_near_first_bases 50 12 (Vector2.mk 54 10)).
  - right. right. reflexivity.
  - unfold MAP_SIZE. lra.
  - unfold MAP_SIZE. lra.
  - unfold getDistance. simpl. apply sqrt_lt_8. lra.
Defined.

(** ** Economy: construction *)

Lemma occupied_false (entities : list Entity) (sx sy : R) :
  occupied entities sx sy = false ->
  Forall (fun e => ~ ((Rabs (Entity.x e - sx) < 0.8)%R /\
                      (Rabs (Entity.y e - sy) < 0.8)%R)) entities.
Proof.
  unfold occupied. induction entities as [|e es IH]; intros H; [constructor|].
  simpl in H. apply orb_false_iff in H as [He Hes].
  constructor; [|apply IH; exact Hes].
  intros [Hx Hy]. apply Rltb_true in Hx, Hy. rewrite Hx, Hy in He. discriminate.
Qed.

Lemma wellPlaced_snapped (entities : list Entity) (b : Entity) (x y : R) :
  Entity.x b = snapToTileCoord x -> Entity.y b = snapToTileCoord y ->
  occupied entities (snapToTileCoord x) (snapToTileCoord y) = false ->
  isValidTerrain (snapToTileCoord x) (snapToTileCoord y) = true ->
  wellPlaced entities b.
Proof.
  intros Hx Hy Hocc Hval. unfold wellPlaced. rewrite Hx, Hy.
  split; [|split; [exact Hval|apply occupied_false; exact Hocc]].
  exists (Math_floor x), (Math_floor y).
  split; apply snapToTileCoord_floor.
Qed.

(** X6.  [buildHouse] either leaves the state as it is, or takes exactly 50
    gold from the (existing, undefeated) player without overdrawing, raises
    that player's population cap by 5, and appends one house of 100 hp owned
    by the player: on a tile center, on valid terrain, within BUILD_RADIUS
    of the player's base and not overlapping any existing entity. *)
Theorem buildHouse_effect (newId playerId : string) (x y : R) (s : GameState) :
  buildHouse newId playerId x y s = s \/
  exists player player' b,
    GameState.players s !! playerId = Some player /\
    PlayerState.defeated player = false /\
    buildHouse newId playerId x y s = withPurchase playerId player' b s /\
    PlayerState.gold player' = PlayerState.gold player - 50 /\
    0 <= PlayerState.gold player' /\
    PlayerState.maxPop player' = PlayerState.maxPop player + 5 /\
    PlayerState.currentPop player' = PlayerState.currentPop player /\
    PlayerState.defeated player' = false /\
    Entity.type b = HOUSE /\ Entity.ownerId b = playerId /\
    Entity.hp b = 100 /\ Entity.maxHp b = 100 /\
    wellPlaced (GameState.entities s) b /\
    (getDistance (entityPos b) (PlayerState.basePosition player)
     <= BUILD_RADIUS)%R.
Proof.
  unfold buildHouse.
  destruct (GameState.players s !! playerId) as [player|] eqn:Hp; [|left; reflexivity].
  destruct (PlayerState.defeated player) eqn:Hd; [left; reflexivity|]. cbv zeta.
  destruct (50 <=? PlayerState.gold player) eqn:Hg; [|left; reflexivity].
  destruct (Rleb _ BUILD_RADIUS) eqn:Hr; [|left; reflexivity].
  destruct (occupied _ _ _) eqn:Ho; [left; reflexivity|].
  destruct (isValidTerrain _ _) eqn:Hv; [|left; reflexivity].
  simpl. right. apply Z.leb_le in Hg. apply Rleb_true in Hr.
  eexists player, _, _. split; [reflexivity|]. split; [exact Hd|].
  split; [reflexivity|].
  destruct player; simpl in *.
  repeat (split; [first [reflexivity | lia | assumption]|]).
  split; [|exact Hr]. eapply wellPlaced_snapped; eauto; reflexivity.
Qed.

(** X7.  [buildMine] either leaves the state as it is, or takes exactly
    MINE_COST (250) gold from the (existing, undefeated) player without
    overdrawing and appends one mine of 150 hp owned by the player: on a
    tile center, on valid terrain, within BUILD_RADIUS of the player's base
    and not overlapping any existing entity.  The population cap is not
    changed. *)
Theorem buildMine_effect (newId playerId : string) (x y : R) (s : GameState) :
  buildMine newId playerId x y s = s \/
  exists player player' b,
    GameState.players s !! playerId = Some player /\
    PlayerState.defeated player = false /\
    buildMine newId playerId x y s = withPurchase playerId player' b s /\
    PlayerState.gold player' = PlayerState.gold player - MINE_COST /\
    0 <= PlayerState.gold player' /\
    PlayerState.maxPop player' = PlayerState.maxPop player /\
    PlayerState.currentPop player' = PlayerState.currentPop player /\
    PlayerState.defeated player' = false /\
    Entity.type b = MINE /\ Entity.ownerId b = playerId /\
    Entity.hp b = 150 /\ Entity.maxHp b = 150 /\
    wellPlaced (GameState.entities s) b /\
    (getDistance (entityPos b) (PlayerState.basePosition player)
     <= BUILD_RADIUS)%R.
Proof.
  unfold buildMine.
  destruct (GameState.players s !! playerId) as [player|] eqn:Hp; [|left; reflexivity].
  destruct (PlayerState.defeated player) eqn:Hd; [left; reflexivity|]. cbv zeta.
  destruct (MINE_COST <=? PlayerState.gold player) eqn:Hg; [|left; reflexivity].
  destruct (Rleb _ BUILD_RADIUS) eqn:Hr; [|left; reflexivity].
  destruct (occupied _ _ _) eqn:Ho; [left; reflexivity|].
  destruct (isValidTerrain _ _) eqn:Hv; [|left; reflexivity].
  simpl. right. apply Z.leb_le in Hg. apply Rleb_true in Hr.
  eexists player, _, _. split; [reflexivity|]. split; [exact Hd|].
  split; [reflexivity|].
  destruct player; simpl in *.
  repeat (split; [first [reflexivity | lia | assumption]|]).
  split; [|exact Hr]. eapply wellPlaced_snapped; eauto; reflexivity.
Qed.

(** X8.  [buildWall] either leaves the state as it is, or takes exactly
    WALL_COST (30) gold from the (existing, undefeated) player without
    overdrawing and appends one wall of 200 hp and radius 0.8 owned by the
    player: on a tile center, on valid terrain and not overlapping any
    existing entity.  No distance to the base is required. *)
Theorem buildWall_effect (newId playerId : string) (x y : R) (s : GameState) :
  buildWall newId playerId x y s = s \/
  exists player player' b,
    GameState.players s !! playerId = Some player /\
    PlayerState.defeated player = false /\
    buildWall newId playerId x y s = withPurchase playerId player' b s /\
    PlayerState.gold player' = PlayerState.gold player - WALL_COST /\
    0 <= PlayerState.gold player' /\
    PlayerState.maxPop player' = PlayerState.maxPop player /\
    PlayerState.currentPop player' = PlayerState.currentPop player /\
    PlayerState.defeated player' = false /\
    Entity.type b = WALL /\ Entity.ownerId b = playerId /\
    Entity.hp b = 200 /\ Entity.maxHp b = 200 /\
    Entity.radius b = 0.8%R /\
    wellPlaced (GameState.entities s) b.
Proof.
  unfold buildWall.
  destruct (GameState.players s !! playerId) as [player|] eqn:Hp; [|left; reflexivity].
  destruct (PlayerState.defeated player) eqn:Hd; [left; reflexivity|]. cbv zeta.
  destruct (WALL_COST <=? PlayerState.gold player) eqn:Hg; [|left; reflexivity].
  destruct (occupied _ _ _) eqn:Ho; [left; reflexivity|].
  destruct (isValidTerrain _ _) eqn:Hv; [|left; reflexivity].
  simpl. right. apply Z.leb_le in Hg.
  eexists player, _, _. split; [reflexivity|]. split; [exact Hd|].
  split; [reflexivity|].
  destruct player; simpl in *.
  repeat (split; [first [reflexivity | lia | assumption]|]).
  eapply wellPlaced_snapped; eauto; reflexivity.
Qed.

(** ** Economy: what a tick does to the accounts *)

Lemma sweepMonotone_refl (players : gmap string PlayerState) :
  sweepMonotone players players.
Proof.
  intros pid. destruct (players !! pid) as [p|] eqn:H; [|reflexivity].
  exists p. repeat split; first [assumption | lia].
Qed.

Lemma sweepMonotone_trans (a b c : gmap string PlayerState) :
  sweepMonotone a b -> sweepMonotone b c -> sweepMonotone a c.
Proof.
  intros H1 H2 pid. specialize (H1 pid). specialize (H2 pid).
  destruct (a !! pid) as [p|].
  - destruct H1 as (p1 & Hp1 & ? & ? & ? & ? & ?). rewrite Hp1 in H2.
    destruct H2 as (p2 & Hp2 & ? & ? & ? & ? & ?).
    exists p2. repeat split; try lia; congruence.
  - rewrite H1 in H2. exact H2.
Qed.

Lemma sweepMonotone_update (players : gmap string PlayerState) (b : bool)
    (k : string) (f : PlayerState -> PlayerState) :
  (forall p,
      PlayerState.gold p <= PlayerState.gold (f p) /\
      (0 <= PlayerState.currentPop p ->
       0 <= PlayerState.currentPop (f p) <= PlayerState.currentPop p) /\
      PlayerState.maxPop (f p) = PlayerState.maxPop p /\
      PlayerState.id (f p) = PlayerState.id p /\
      PlayerState.basePosition (f p) = PlayerState.basePosition p) ->
  sweepMonotone players
    (if b then
       match players !! k with
       | Some p => <[k := f p]> players
       | None => players
       end
     else players).
Proof.
  intros Hf. destruct b; [|apply sweepMonotone_refl].
  destruct (players !! k) as [p|] eqn:Hk; [|apply sweepMonotone_refl].
  intros pid. destruct (decide (k = pid)) as [->|Hn].
  - rewrite Hk. exists (f p). rewrite lookup_insert_eq.
    split; [reflexivity|]. apply Hf.
  - rewrite lookup_insert_ne by exact Hn.
    destruct (players !! pid) as [q|]; [|reflexivity].
    exists q. repeat split; first [assumption | lia].
Qed.

Lemma sweepEntity_monotone (players : gmap string PlayerState) (e : Entity) :
  sweepMonotone players (fst (sweepEntity players e)).
Proof.
  unfold sweepEntity. destruct (Entity.hp e <=? 0); [|apply sweepMonotone_refl].
  cbv zeta. simpl fst.
  match goal with
  | |- sweepMonotone _ (if _ then match ?P2 !! _ with _ => _ end else _) =>
    remember P2 as Q2 eqn:HQ2;
    assert (sweepMonotone players Q2) as H2;
    [subst Q2|
     eapply sweepMonotone_trans;
     [exact H2|
      apply (sweepMonotone_update Q2 _ _
               (fun owner => PlayerState.set_currentPop
                               (Z.max 0 (PlayerState.currentPop owner - 1))
                               owner));
      intros []; simpl; repeat split; first [reflexivity | lia]]]
  end.
  match goal with
  | |- sweepMonotone _ (if _ then match ?P1 !! _ with _ => _ end else _) =>
    remember P1 as Q1 eqn:HQ1;
    assert (sweepMonotone players Q1) as H1;
    [subst Q1|
     eapply sweepMonotone_trans;
     [exact H1|
      apply (sweepMonotone_update Q1 _ _ (PlayerState.set_defeated true));
      intros []; simpl; repeat split; first [reflexivity | lia]]]
  end.
  destruct (_ && _); [|apply sweepMonotone_refl].
  destruct (players !! _) as [killer|] eqn:Hk; [|apply sweepMonotone_refl].
  destruct (negb _); [|apply sweepMonotone_refl].
  intros pid.
  destruct (decide (default "" (Entity.lastAttackerId e) = pid)) as [<-|Hn].
  - rewrite Hk. eexists. rewrite lookup_insert_eq. split; [reflexivity|].
    destruct killer; simpl; unfold ZOMBIE_BOUNTY;
      repeat split; first [reflexivity | lia].
  - rewrite lookup_insert_ne by exact Hn.
    destruct (players !! pid) as [q|]; [|reflexivity].
    exists q. repeat split; first [assumption | lia].
Qed.

Lemma sweep_monotone (es : list Entity) :
  forall players, sweepMonotone players (fst (sweep players es)).
Proof.
  induction es as [|e es IH]; intros players; [apply sweepMonotone_refl|].
  simpl. pose proof (sweepEntity_monotone players e) as H1.
  destruct (sweepEntity players e) as [players' keep].
  specialize (IH players'). destruct (sweep players' es) as [players'' kept].
  simpl in *. eapply sweepMonotone_trans; eauto.
Qed.

(** X9.  A tick never removes or adds a player and, for every player, never lowers
    the gold, never raises a non-negative population and keeps it
    non-negative (the floor at zero), and leaves the population cap, the id
    and the base position as they were. *)
Theorem update_accounts_monotone (deltaTime : R) (s : GameState) :
  sweepMonotone (GameState.players s) (GameState.players (update deltaTime s)).
Proof.
  destruct (GameState.gameOver s) eqn:Hg.
  - unfold update. rewrite Hg. apply sweepMonotone_refl.
  - destruct (update_entities deltaTime s Hg) as [_ ->]. apply sweep_monotone.
Qed.

(** X10.  After a tick of a running game every entity has hp > 0: entities
    whose hp has fallen to zero or below never survive the call. *)
Theorem update_removes_dead (deltaTime : R) (s : GameState) (e : Entity) :
  GameState.gameOver s = false ->
  e ∈ GameState.entities (update deltaTime s) ->
  0 < Entity.hp e.
Proof.
  intros Hg He. destruct (update_entities deltaTime s Hg) as [Hes _].
  rewrite Hes in He. apply list_elem_of_In, filter_In in He as [_ He].
  apply negb_true_iff, Z.leb_gt in He. exact He.
Qed.

Lemma update_sampleState (deltaTime : R) : update deltaTime sampleState = sampleState.
Proof. reflexivity. Qed.

Lemma update_removes_dead_witness :
  0 < Entity.hp (mkBuilding "base_p1" BASE 10 54 1000 1.5 "p1").
Proof.
  apply (update_removes_dead 1 sampleState); [reflexivity|].
  rewrite update_sampleState. left.
Defined.

(** ** Sessions: the initial state *)

Lemma addPlayers_spec (lobbyPlayers : list LobbyPlayer) (k : nat) :
  forall (a : nat) (acc : gmap string PlayerState * list Entity),
    (a + k <= 8)%nat ->
    exists players bases,
      addPlayers lobbyPlayers (seq a k) acc = Some (players, snd acc ++ bases) /\
      length bases = k /\
      (forall j, (j < k)%nat ->
         exists b pos,
           bases !! j = Some b /\ BASE_POSITIONS !! (a + j)%nat = Some pos /\
           Entity.type b = BASE /\ Entity.ownerId b = playerIdOf (a + j) /\
           Entity.id b = "base_" +:+ playerIdOf (a + j) /\
           Entity.x b = Vector2.x pos /\ Entity.y b = Vector2.y pos /\
           Entity.hp b = 1000 /\ Entity.maxHp b = 1000) /\
      (forall j, (j < k)%nat -> is_Some (players !! playerIdOf (a + j))) /\
      (forall pid p, fst acc !! pid = Some p -> is_Some (players !! pid)) /\
      (forall pid p,
         players !! pid = Some p ->
         fst acc !! pid = Some p \/
         (PlayerState.id p = pid /\ PlayerState.gold p = 100 /\
          PlayerState.currentPop p = 0 /\ PlayerState.maxPop p = 5 /\
          PlayerState.defeated p = false /\
          exists j, (j < k)%nat /\ pid = playerIdOf (a + j) /\
                    BASE_POSITIONS !! (a + j)%nat
                    = Some (PlayerState.basePosition p))).
Proof.
  induction k as [|k IH]; intros a acc Hle.
  - exists (fst acc), []. simpl. rewrite app_nil_r. destruct acc.
    repeat split; try (intros; lia); eauto.
  - simpl. unfold addPlayer at 1.
    destruct (BASE_POSITIONS !! a) as [pos|] eqn:Hpos.
    2:{ apply lookup_ge_None in Hpos. simpl in Hpos. lia. }
    cbv zeta.
    match goal with
    | |- context [addPlayers _ _ (<[_ := ?pl]> _, _ ++ [?bs])] =>
      set (player := pl); set (base := bs)
    end.
    destruct (IH (S a) (<[playerIdOf a := player]> (fst acc), snd acc ++ [base]))
      as (players & bases & Hrun & Hlen & Hbases & Hin & Hkeep & Hall); [lia|].
    exists players, (base :: bases). rewrite Hrun. simpl snd.
    rewrite <- app_assoc. split; [reflexivity|]. split; [simpl; lia|].
    split; [|split; [|split]].
    + intros [|j] Hj.
      * exists base, pos. rewrite Nat.add_0_r. repeat split; auto.
      * destruct (Hbases j) as (b & pos' & H); [lia|]. exists b, pos'.
        replace (a + S j)%nat with (S a + j)%nat by lia. exact H.
    + intros [|j] Hj.
      * rewrite Nat.add_0_r. apply (Hkeep (playerIdOf a) player).
        simpl. apply lookup_insert_eq.
      * replace (a + S j)%nat with (S a + j)%nat by lia. apply Hin. lia.
    + intros pid p Hp. destruct (decide (playerIdOf a = pid)) as [<-|Hn].
      * apply (Hkeep (playerIdOf a) player). simpl. apply lookup_insert_eq.
      * apply (Hkeep pid p). simpl. rewrite lookup_insert_ne by exact Hn. exact Hp.
    + intros pid p Hp. destruct (Hall pid p Hp) as [Hacc|Hnew].
      * simpl in Hacc. destruct (decide (playerIdOf a = pid)) as [<-|Hn].
        -- rewrite lookup_insert_eq in Hacc. injection Hacc as <-. right.
           repeat split; try reflexivity. exists 0%nat. rewrite Nat.add_0_r.
           split; [lia|]. split; [reflexivity|exact Hpos].
        -- rewrite lookup_insert_ne in Hacc by exact Hn. left. exact Hacc.
      * right. destruct Hnew as (H1 & H2 & H3 & H4 & H5 & j & Hj & Hpid & Hb).
        repeat (split; [assumption|]). exists (S j).
        replace (a + S j)%nat with (S a + j)%nat by lia.
        split; [lia|]. split; assumption.
Qed.

Lemma addPlayers_overflow (lobbyPlayers : list LobbyPlayer) (k : nat) :
  forall (a : nat) (acc : gmap string PlayerState * list Entity),
    (8 < a + k)%nat -> (a <= 8)%nat ->
    addPlayers lobbyPlayers (seq a k) acc = None.
Proof.
  induction k as [|k IH]; intros a acc Hlt Hle; [lia|].
  simpl. unfold addPlayer at 1.
  destruct (BASE_POSITIONS !! a) as [pos|] eqn:Hpos; [|reflexivity].
  apply lookup_lt_Some in Hpos. simpl in Hpos. apply IH; lia.
Qed.

(** X11.  [createInitialState] serves up to eight players.  For
    playerCount <= 8 it returns a running game (no winner, wave 1) whose
    entity list holds one base per player, 1000 hp each and standing on the
    player's entry of BASE_POSITIONS, followed by the enemy base at (54,10)
    with 3000 + 1000 * playerCount hp; every player p1..pN is present, and
    every player starts with 100 gold, population 0 of 5 and is not
    defeated.  For more than eight players the call fails (the source
    throws on the missing base position). *)
Theorem createInitialState_spec (now : Z) (playerCount : nat)
    (lobbyPlayers : list LobbyPlayer) :
  ((playerCount <= 8)%nat ->
   exists s,
     createInitialState now playerCount lobbyPlayers = Some s /\
     GameState.gameOver s = false /\ GameState.winner s = None /\
     GameState.waveNumber s = 1 /\
     length (GameState.entities s) = S playerCount /\
     (forall i, (i < playerCount)%nat ->
        exists b pos,
          GameState.entities s !! i = Some b /\
          BASE_POSITIONS !! i = Some pos /\
          Entity.type b = BASE /\ Entity.ownerId b = playerIdOf i /\
          Entity.id b = "base_" +:+ playerIdOf i /\
          Entity.x b = Vector2.x pos /\ Entity.y b = Vector2.y pos /\
          Entity.hp b = 1000 /\ Entity.maxHp b = 1000) /\
     GameState.entities s !! playerCount
     = Some (mkBuilding "enemy_base" ENEMY_BASE 54 10
               (3000 + Z.of_nat playerCount * 1000) 2 "enemy") /\
     (forall i, (i < playerCount)%nat ->
        is_Some (GameState.players s !! playerIdOf i)) /\
     (forall pid p,
        GameState.players s !! pid = Some p ->
        PlayerState.id p = pid /\ PlayerState.gold p = 100 /\
        PlayerState.currentPop p = 0 /\ PlayerState.maxPop p = 5 /\
        PlayerState.defeated p = false /\
        exists i, (i < playerCount)%nat /\ pid = playerIdOf i /\
                  BASE_POSITIONS !! i = Some (PlayerState.basePosition p)))
  /\ ((8 < playerCount)%nat ->
      createInitialState now playerCount lobbyPlayers = None).
Proof.
  split.
  - intros Hle. unfold createInitialState.
    destruct (addPlayers_spec lobbyPlayers playerCount 0 (∅, []))
      as (players & bases & Hrun & Hlen & Hbases & Hin & _ & Hall); [lia|].
    rewrite Hrun. simpl. eexists. split; [reflexivity|]. simpl.
    repeat (split; [reflexivity|]).
    split; [rewrite length_app; simpl; lia|].
    split; [|split; [|split]].
    + intros i Hi. destruct (Hbases i Hi) as (b & pos & Hb & H).
      exists b, pos. split; [|exact H].
      rewrite lookup_app_l by lia. exact Hb.
    + rewrite lookup_app_r by lia. rewrite Hlen, Nat.sub_diag. reflexivity.
    + exact Hin.
    + intros pid p Hp. destruct (Hall pid p Hp) as [Hacc|H].
      * simpl in Hacc. rewrite lookup_empty in Hacc. discriminate.
      * exact H.
  - intros Hlt. unfold createInitialState.
    rewrite (addPlayers_overflow lobbyPlayers playerCount 0) by lia.
    reflexivity.
Qed.


(** ** Economy: accounts stay sound *)

Lemma soundAccounts_purchase (s : GameState) (playerId : string)
    (player' : PlayerState) (b : Entity) :
  soundAccounts (GameState.players s) -> soundAccount player' ->
  soundAccounts (GameState.players (withPurchase playerId player' b s)).
Proof.
  intros Hs Hp pid p H. destruct s. unfold withPurchase in H. simpl in H.
  destruct (decide (playerId = pid)) as [->|Hn].
  - rewrite lookup_insert_eq in H. injection H as <-. exact Hp.
  - rewrite lookup_insert_ne in H by exact Hn. apply (Hs pid p H).
Qed.

Lemma spawnUnit_cases (newId : string) (rnd : R) (playerId : string)
    (k : UnitTypeKey) (s : GameState) :
  spawnUnit newId rnd playerId k s = s \/
  exists player player' unit,
    GameState.players s !! playerId = Some player /\
    PlayerState.defeated player = false /\
    spawnUnit newId rnd playerId k s = withPurchase playerId player' unit s /\
    PlayerState.gold player'
    = PlayerState.gold player - UnitStats.cost (UNIT_TYPES k) /\
    0 <= PlayerState.gold player' /\
    PlayerState.currentPop player' = PlayerState.currentPop player + 1 /\
    PlayerState.currentPop player' <= PlayerState.maxPop player /\
    PlayerState.maxPop player' = PlayerState.maxPop player.
Proof.
  unfold spawnUnit.
  destruct (GameState.players s !! playerId) as [player|] eqn:Hp; [|left; reflexivity].
  destruct (PlayerState.defeated player) eqn:Hd; [left; reflexivity|]. cbv zeta.
  destruct (UnitStats.cost (UNIT_TYPES k) <=? PlayerState.gold player) eqn:Hg;
    [|left; reflexivity].
  destruct (PlayerState.currentPop player <? PlayerState.maxPop player) eqn:Hc;
    [|left; reflexivity].
  simpl. right. apply Z.leb_le in Hg. apply Z.ltb_lt in Hc.
  eexists player, _, _. split; [reflexivity|]. split; [exact Hd|].
  split; [reflexivity|]. destruct player; simpl in *.
  repeat split; first [reflexivity | lia].
Qed.

Lemma soundAccounts_insert (players : gmap string PlayerState)
    (playerId : string) (player' : PlayerState) :
  soundAccounts players -> soundAccount player' ->
  soundAccounts (<[playerId := player']> players).
Proof.
  intros Hs Hp pid p H. destruct (decide (playerId = pid)) as [->|Hn].
  - rewrite lookup_insert_eq in H. injection H as <-. exact Hp.
  - rewrite lookup_insert_ne in H by exact Hn. apply (Hs pid p H).
Qed.

Lemma build_soundAccounts (newId playerId : string) (x y : R) (s : GameState) :
  soundAccounts (GameState.players s) ->
  soundAccounts (GameState.players (buildHouse newId playerId x y s)) /\
  soundAccounts (GameState.players (buildMine newId playerId x y s)) /\
  soundAccounts (GameState.players (buildWall newId playerId x y s)).
Proof.
  intros Hs. unfold buildHouse, buildMine, buildWall.
  destruct (GameState.players s !! playerId) as [player|] eqn:Hp; [|auto].
  destruct (PlayerState.defeated player) eqn:Hd; [auto|]. cbv zeta.
  destruct (Hs playerId player Hp) as (H1 & H2 & H3).
  assert (forall cost dpop,
            0 <= dpop -> cost <= PlayerState.gold player ->
            soundAccounts
              (<[playerId :=
                   PlayerState.set_maxPop (PlayerState.maxPop player + dpop)
                     (PlayerState.set_gold (PlayerState.gold player - cost)
                        player)]> (GameState.players s))) as Hpay.
  { intros cost dpop Hdp Hc. apply soundAccounts_insert; [exact Hs|].
    destruct player; unfold soundAccount; simpl in *. lia. }
  assert (forall cost,
            cost <= PlayerState.gold player ->
            soundAccounts
              (<[playerId :=
                   PlayerState.set_gold (PlayerState.gold player - cost) player]>
                 (GameState.players s))) as Hpay0.
  { intros cost Hc. apply soundAccounts_insert; [exact Hs|].
    destruct player; unfold soundAccount; simpl in *. lia. }
  split; [|split].
  - destruct (50 <=? PlayerState.gold player) eqn:Hg; [|exact Hs].
    destruct (Rleb _ BUILD_RADIUS); [|exact Hs].
    destruct (occupied _ _ _); [exact Hs|].
    destruct (isValidTerrain _ _); [|exact Hs].
    apply Z.leb_le in Hg. destruct s; simpl in *. apply Hpay; [lia|exact Hg].
  - destruct (MINE_COST <=? PlayerState.gold player) eqn:Hg; [|exact Hs].
    destruct (Rleb _ BUILD_RADIUS); [|exact Hs].
    destruct (occupied _ _ _); [exact Hs|].
    destruct (isValidTerrain _ _); [|exact Hs].
    apply Z.leb_le in Hg. destruct s; simpl in *. apply Hpay0; exact Hg.
  - destruct (WALL_COST <=? PlayerState.gold player) eqn:Hg; [|exact Hs].
    destruct (occupied _ _ _); [exact Hs|].
    destruct (isValidTerrain _ _); [|exact Hs].
    apply Z.leb_le in Hg. destruct s; simpl in *. apply Hpay0; exact Hg.
Qed.

Lemma update_sweepMonotone (deltaTime : R) (s : GameState) :
  sweepMonotone (GameState.players s) (GameState.players (update deltaTime s)).
Proof.
  destruct (GameState.gameOver s) eqn:Hg.
  - unfold update. rewrite Hg. apply sweepMonotone_refl.
  - destruct (update_entities deltaTime s Hg) as [_ ->]. apply sweep_monotone.
Qed.

Lemma applyOp_soundAccounts (s : GameState) (op : Operation) :
  soundAccounts (GameState.players s) ->
  soundAccounts (GameState.players (applyOp s op)).
Proof.
  intros Hs.
  destruct op as [dt|newId rnd pid k|newId pid x y|newId pid x y|newId pid x y
                 |pc newId rnd]; simpl.
  - intros pid p' Hp'.
    pose proof (update_sweepMonotone dt s pid) as Hm.
    destruct (GameState.players s !! pid) as [p|] eqn:Hp; [|congruence].
    destruct Hm as (q & Hq & Hg & Hc & Hmax & _).
    rewrite Hp' in Hq. injection Hq as <-.
    destruct (Hs pid p Hp) as (H1 & H2 & H3).
    unfold soundAccount. specialize (Hc H2). lia.
  - destruct (spawnUnit_cases newId rnd pid k s)
      as [->|(p & p' & u & Hp & _ & -> & Hg & Hg0 & Hc & Hc' & Hm)]; [exact Hs|].
    apply soundAccounts_purchase; [exact Hs|].
    destruct (Hs pid p Hp) as (H1 & H2 & H3). unfold soundAccount. lia.
  - apply (build_soundAccounts newId pid x y s Hs).
  - apply (build_soundAccounts newId pid x y s Hs).
  - apply (build_soundAccounts newId pid x y s Hs).
  - unfold spawnZombie. destruct (List.find _ _); [|exact Hs].
    destruct s; exact Hs.
Qed.

(** X12.  In every state of a session every player's account is sound:
    the gold is never negative, and the population is never negative and
    never above the population cap. *)
Theorem accounts_stay_sound (s : GameState) :
  reachable s -> soundAccounts (GameState.players s).
Proof.
  intros (now & n & lobby & s0 & ops & Hinit & ->).
  assert (soundAccounts (GameState.players s0)) as H0.
  { destruct (le_lt_dec n 8) as [Hle|Hlt].
    - unfold createInitialState in Hinit.
      destruct (addPlayers_spec lobby n 0 (∅, []))
        as (players & bases & Hrun & _ & _ & _ & _ & Hall); [lia|].
      rewrite Hrun in Hinit. injection Hinit as <-.
      intros pid p Hp. destruct (Hall pid p Hp) as [Hacc|H].
      + simpl in Hacc. rewrite lookup_empty in Hacc. discriminate.
      + destruct H as (_ & Hg & Hc & Hm & _). unfold soundAccount. lia.
    - unfold createInitialState in Hinit.
      rewrite (addPlayers_overflow lobby n 0) in Hinit by lia.
      discriminate. }
  clear Hinit. revert s0 H0.
  induction ops as [|op ops IH]; intros s0 H0; [exact H0|].
  simpl. apply IH. apply applyOp_soundAccounts. exact H0.
Qed.

Lemma accounts_stay_sound_witness : soundAccount samplePlayer.
Proof.
  apply (accounts_stay_sound sampleState) with (pid := "p1").
  - exists 0, 1%nat, [], sampleState, []. split; reflexivity.
  - reflexivity.
Defined.

(** ** The host's timers *)

(** X13.  The passive gold timer pays every player, defeated or not,
    PASSIVE_GOLD_AMOUNT plus MINE_INCOME for each mine entity the player
    owns, and changes nothing else; once the game is over it pays
    nothing. *)
Theorem passiveGoldTick_effect (s : GameState) :
  (GameState.gameOver s = true -> passiveGoldTick s = s) /\
  (GameState.gameOver s = false ->
   GameState.entities (passiveGoldTick s) = GameState.entities s /\
   GameState.gameOver (passiveGoldTick s) = false /\
   GameState.winner (passiveGoldTick s) = GameState.winner s /\
   forall pid,
     GameState.players (passiveGoldTick s) !! pid
     = (fun p =>
          PlayerState.set_gold
            (PlayerState.gold p + 50
             + 50 * mineCount (GameState.entities s) p) p)
       <$> GameState.players s !! pid).
Proof.
  unfold passiveGoldTick. split; intros Hg; rewrite Hg; [reflexivity|].
  destruct s; simpl in *. repeat (split; [first [reflexivity|assumption]|]).
  intros pid. rewrite lookup_fmap.
  destruct (players !! pid) as [p|]; [|reflexivity]. simpl.
  unfold PASSIVE_GOLD_AMOUNT, MINE_INCOME. do 2 f_equal. lia.
Qed.

Lemma passiveGoldTick_effect_witness :
  GameState.players (passiveGoldTick sampleState) !! "p1"
  = Some (PlayerState.set_gold 150 samplePlayer).
Proof.
  destruct (passiveGoldTick_effect sampleState) as [_ H].
  destruct (H eq_refl) as (_ & _ & _ & Hp). rewrite Hp. reflexivity.
Defined.

(** ** The tick: defeat, verdict and identity *)

Lemma sweepEntity_base_defeats (players : gmap string PlayerState)
    (e : Entity) (owner : PlayerState) :
  Entity.hp e <= 0 -> Entity.type e = BASE -> Entity.ownerId e <> "" ->
  players !! Entity.ownerId e = Some owner ->
  exists owner',
    fst (sweepEntity players e) !! Entity.ownerId e = Some owner' /\
    PlayerState.defeated owner' = true.
Proof.
  intros Hhp Hty Hne Ho. unfold sweepEntity.
  assert ((Entity.hp e <=? 0) = true) as -> by (apply Z.leb_le; exact Hhp).
  rewrite Hty. simpl.
  assert ((Entity.ownerId e =? "")%string = false) as ->
    by (apply String.eqb_neq; exact Hne).
  simpl. rewrite Ho. eexists. rewrite lookup_insert_eq.
  split; [reflexivity|]. destruct owner; reflexivity.
Qed.

Lemma sweep_base_defeats (es : list Entity) :
  forall (players : gmap string PlayerState) (e : Entity),
    e ∈ es ->
    Entity.hp e <= 0 -> Entity.type e = BASE -> Entity.ownerId e <> "" ->
    is_Some (players !! Entity.ownerId e) ->
    exists owner',
      fst (sweep players es) !! Entity.ownerId e = Some owner' /\
      PlayerState.defeated owner' = true.
Proof.
  induction es as [|e0 es IH]; intros players e He Hhp Hty Hne [owner Ho];
    [inversion He|].
  simpl. pose proof (sweepEntity_keepsDefeated players e0) as Hk0.
  destruct (sweepEntity players e0) as [players' keep] eqn:Hsw.
  pose proof (sweep_keepsDefeated es players') as Hk.
  pose proof (IH players' e) as IH'.
  destruct (sweep players' es) as [players'' kept]. simpl in *.
  apply elem_of_cons in He as [->|He].
  - destruct (sweepEntity_base_defeats players e0 owner Hhp Hty Hne Ho)
      as (o1 & Ho1 & Hd1).
    rewrite Hsw in Ho1. simpl in Ho1.
    destruct (Hk _ _ Ho1) as (o2 & Ho2 & Hd2). exists o2. auto.
  - apply IH'; auto. destruct (Hk0 _ _ Ho) as (o1 & Ho1 & _). eauto.
Qed.

Lemma update_defeats_owner (deltaTime : R) (s : GameState) (e : Entity) :
  GameState.gameOver s = false ->
  e ∈ updateEntities deltaTime s ->
  Entity.hp e <= 0 -> Entity.type e = BASE -> Entity.ownerId e <> "" ->
  is_Some (GameState.players s !! Entity.ownerId e) ->
  exists owner',
    GameState.players (update deltaTime s) !! Entity.ownerId e = Some owner' /\
    PlayerState.defeated owner' = true.
Proof.
  intros Hg He Hhp Hty Hne Ho.
  destruct (update_entities deltaTime s Hg) as [_ ->].
  apply sweep_base_defeats; assumption.
Qed.

(** X14.  When the per-entity loop of a tick leaves a player's base with
    hp <= 0, that player is marked defeated by the end of the call. *)
Theorem update_marks_defeated (deltaTime : R) (s : GameState) (e : Entity) :
  GameState.gameOver s = false ->
  e ∈ updateEntities deltaTime s ->
  Entity.hp e <= 0 -> Entity.type e = BASE -> Entity.ownerId e <> "" ->
  is_Some (GameState.players s !! Entity.ownerId e) ->
  exists owner',
    GameState.players (update deltaTime s) !! Entity.ownerId e = Some owner' /\
    PlayerState.defeated owner' = true.
Proof. apply update_defeats_owner. Qed.

Lemma update_marks_defeated_witness :
  exists owner',
    GameState.players (update 1 fallenBaseState) !! "p1" = Some owner' /\
    PlayerState.defeated owner' = true.
Proof.
  apply (update_marks_defeated 1 fallenBaseState
           (Entity.set_hp 0 (mkBuilding "base_p1" BASE 10 54 1000 1.5 "p1"))).
  - reflexivity.
  - left.
  - simpl. lia.
  - reflexivity.
  - discriminate.
  - eexists. reflexivity.
Defined.

Lemma checkGameOver_cases (s : GameState) :
  let bases :=
    List.filter (fun e => bool_decide (Entity.type e = BASE))
      (GameState.entities s) in
  let enemyBase :=
    List.find (fun e => String.eqb (Entity.id e) "enemy_base")
      (GameState.entities s) in
  (bases = [] ->
   GameState.gameOver (checkGameOver s) = true /\
   GameState.winner (checkGameOver s) = Some "ZOMBIES") /\
  (bases <> [] -> enemyBase = None ->
   GameState.gameOver (checkGameOver s) = true /\
   GameState.winner (checkGameOver s) = Some "PLAYERS") /\
  (bases <> [] -> enemyBase <> None -> checkGameOver s = s).
Proof.
  cbv zeta. unfold checkGameOver.
  destruct (List.filter _ _) as [|b bs] eqn:Hb; simpl.
  - split; [intros _; destruct s; split; reflexivity|].
    split; intros H; contradiction.
  - split; [discriminate|].
    destruct (List.find _ _); split; intros _ H;
      first [discriminate | contradiction | reflexivity
            | destruct s; split; reflexivity].
Qed.

(** X15.  The verdict of a tick of a running game is read off the entities
    that survive it: if no player base is left the zombies win, also when
    the enemy base is gone in the same tick; otherwise, if no entity with id
    'enemy_base' is left, the players win; otherwise the game goes on and
    the winner tag is not touched. *)
Theorem update_verdict (deltaTime : R) (s : GameState) :
  GameState.gameOver s = false ->
  let survivors := GameState.entities (update deltaTime s) in
  let bases :=
    List.filter (fun e => bool_decide (Entity.type e = BASE)) survivors in
  let enemyBase :=
    List.find (fun e => String.eqb (Entity.id e) "enemy_base") survivors in
  (bases = [] ->
   GameState.gameOver (update deltaTime s) = true /\
   GameState.winner (update deltaTime s) = Some "ZOMBIES") /\
  (bases <> [] -> enemyBase = None ->
   GameState.gameOver (update deltaTime s) = true /\
   GameState.winner (update deltaTime s) = Some "PLAYERS") /\
  (bases <> [] -> enemyBase <> None ->
   GameState.gameOver (update deltaTime s) = false /\
   GameState.winner (update deltaTime s) = GameState.winner s).
Proof.
  intros Hg. cbv zeta. unfold update. rewrite Hg.
  destruct (sweep _ _) as [players entities].
  set (s1 := GameState.set_entities entities (GameState.set_players players s)).
  destruct (checkGameOver_entities s1) as [He _]. rewrite He.
  destruct (checkGameOver_cases s1) as (H1 & H2 & H3).
  split; [exact H1|]. split; [exact H2|].
  intros Hb Hf. rewrite (H3 Hb Hf). subst s1. destruct s; simpl in *. auto.
Qed.

Lemma update_verdict_witness :
  GameState.gameOver (update 1 fallenBaseState) = true /\
  GameState.winner (update 1 fallenBaseState) = Some "ZOMBIES".
Proof.
  apply (update_verdict 1 fallenBaseState); reflexivity.
Defined.

(** X16.  A tick creates no entity and changes no entity's identity: every
    entity after the call was there before it, in the same order, with the
    same id, type, owner, maxHp, radius, damage, range, speed and unit
    type; and the wave number, the last-tick stamp and the player count are
    left as they were. *)
Theorem update_preserves_identity (deltaTime : R) (s : GameState) :
  (forall e', e' ∈ GameState.entities (update deltaTime s) ->
     exists e, e ∈ GameState.entities s /\ sameIdentity e e') /\
  (length (GameState.entities (update deltaTime s))
   <= length (GameState.entities s))%nat /\
  GameState.waveNumber (update deltaTime s) = GameState.waveNumber s /\
  GameState.lastTick (update deltaTime s) = GameState.lastTick s /\
  GameState.playerCount (update deltaTime s) = GameState.playerCount s.
Proof.
  destruct (GameState.gameOver s) eqn:Hg.
  - unfold update. rewrite Hg. split; [|auto].
    intros e' He'. exists e'. split; [exact He'|apply sameIdentity_refl].
  - destruct (update_entities deltaTime s Hg) as [Hes _]. rewrite Hes.
    destruct (updateEntities_loopFrame deltaTime s) as [HL HF].
    split; [|split].
    + intros e' He'. apply list_elem_of_In, filter_In in He' as [He' _].
      apply list_elem_of_In, list_elem_of_lookup in He' as [k Hk].
      assert (is_Some (GameState.entities s !! k)) as [e He].
      { apply lookup_lt_is_Some. rewrite <- HL. eapply lookup_lt_Some. exact Hk. }
      destruct (HF k e He) as (e1 & Hk1 & Hid & _).
      rewrite Hk in Hk1. injection Hk1 as <-.
      exists e. split; [|exact Hid]. eapply list_elem_of_lookup_2. exact He.
    + rewrite <- HL. apply filter_length_le.
    + unfold update. rewrite Hg. destruct (sweep _ _) as [players entities].
      unfold checkGameOver. destruct (_ =? _)%nat; [destruct s; auto|].
      destruct (List.find _ _); destruct s; auto.
Qed.

(** ** Finders: the closest target and the nearest wall *)

Lemma findClosestTarget_scan (es : list Entity) (source : Vector2)
    (targetOwners : list string) (excludeTypes : option (list EntityType)) :
  findClosestTarget es source targetOwners excludeTypes
  = fst <$> fold_left
              (scanStep
                 (fun e => bool_decide (Entity.ownerId e ∈ targetOwners)
                           && (0 <? Entity.hp e)
                           && negb (bool_decide
                                      (Entity.type e ∈ default [] excludeTypes)))
                 (fun e => getDistance source (entityPos e)))
              (indexed es) None.
Proof.
  unfold findClosestTarget. cbv zeta. f_equal.
  apply fold_left_ext_eq. intros best [i e]. unfold scanStep. simpl.
  destruct (bool_decide (Entity.ownerId e ∈ targetOwners) && (0 <? Entity.hp e));
    [|reflexivity].
  simpl. destruct (bool_decide (Entity.type e ∈ default [] excludeTypes));
    reflexivity.
Qed.

(** X17.  [findClosestTarget] returns an entity of the list that is owned by
    one of the target owners, has hp > 0 and is not of an excluded type, and
    no other such entity is strictly closer to the source; it returns
    nothing only when the list holds no such entity. *)
Theorem findClosestTarget_spec (es : list Entity) (source : Vector2)
    (targetOwners : list string) (excludeTypes : option (list EntityType)) :
  match findClosestTarget es source targetOwners excludeTypes with
  | Some i =>
    exists e,
      es !! i = Some e /\
      Entity.ownerId e ∈ targetOwners /\ 0 < Entity.hp e /\
      (Entity.type e ∉ default [] excludeTypes) /\
      forall j e',
        es !! j = Some e' ->
        Entity.ownerId e' ∈ targetOwners -> 0 < Entity.hp e' ->
        Entity.type e' ∉ default [] excludeTypes ->
        (getDistance source (entityPos e)
         <= getDistance source (entityPos e'))%R
  | None =>
    forall j e',
      es !! j = Some e' ->
      Entity.ownerId e' ∈ targetOwners -> 0 < Entity.hp e' ->
      Entity.type e' ∈ default [] excludeTypes
  end.
Proof.
  rewrite findClosestTarget_scan.
  match goal with
  | |- context [fold_left (scanStep ?ok ?key) _ None] =>
    pose proof (scan_spec ok key (indexed es)) as H;
    assert (forall e', Entity.ownerId e' ∈ targetOwners -> 0 < Entity.hp e' ->
                       Entity.type e' ∉ default [] excludeTypes ->
                       ok e' = true) as Hok
  end.
  { intros e' H1 H2 H3. simpl.
    rewrite bool_decide_eq_true_2 by exact H1.
    rewrite bool_decide_eq_false_2 by exact H3.
    apply Z.ltb_lt in H2. rewrite H2. reflexivity. }
  destruct (fold_left _ (indexed es) None) as [[i d]|]; simpl in *.
  - destruct H as (w & Hw & Hc & -> & Hmin). exists w.
    apply elem_of_indexed in Hw. split; [exact Hw|].
    apply andb_true_iff in Hc as [Hc H3]. apply andb_true_iff in Hc as [H1 H2].
    apply bool_decide_eq_true in H1. apply Z.ltb_lt in H2.
    apply negb_true_iff, bool_decide_eq_false in H3.
    repeat (split; [assumption|]).
    intros j e' Hj G1 G2 G3. apply (Hmin j e').
    + apply elem_of_indexed. exact Hj.
    + apply Hok; assumption.
  - intros j e' Hj G1 G2.
    destruct (decide (Entity.type e' ∈ default [] excludeTypes)) as [Hin|Hnin];
      [exact Hin|].
    assert ((j, e') ∈ indexed es) as Hj' by (apply elem_of_indexed; exact Hj).
    specialize (H j e' Hj'). rewrite (Hok e' G1 G2 Hnin) in H. discriminate.
Qed.

Lemma findNearestWall_scan (es : list Entity) (source : Vector2)
    (maxDistance : R) :
  findNearestWall es source maxDistance
  = fst <$> fold_left
              (scanStep
                 (fun w => isLiveWall w
                           && Rleb (getDistance source (entityPos w)) maxDistance)
                 (fun w => getDistance source (entityPos w)))
              (indexed es) None.
Proof.
  unfold findNearestWall. f_equal.
  apply fold_left_ext_eq. intros best [i e]. unfold scanStep, isLiveWall. simpl.
  rewrite (Z.ltb_antisym (Entity.hp e) 0).
  destruct (bool_decide (Entity.type e = WALL)); simpl; [|reflexivity].
  destruct (Entity.hp e <=? 0); simpl; [reflexivity|].
  destruct (Rleb (getDistance source (entityPos e)) maxDistance); reflexivity.
Qed.

(** X18.  [findNearestWall] returns a wall of the list with hp > 0 that lies
    within maxDistance of the source, and no other such wall is strictly
    closer; it returns nothing only when there is no live wall within
    maxDistance. *)
Theorem findNearestWall_spec (es : list Entity) (source : Vector2)
    (maxDistance : R) :
  match findNearestWall es source maxDistance with
  | Some i =>
    exists wall,
      es !! i = Some wall /\
      Entity.type wall = WALL /\ 0 < Entity.hp wall /\
      (getDistance source (entityPos wall) <= maxDistance)%R /\
      forall j wall',
        es !! j = Some wall' ->
        Entity.type wall' = WALL -> 0 < Entity.hp wall' ->
        (getDistance source (entityPos wall') <= maxDistance)%R ->
        (getDistance source (entityPos wall)
         <= getDistance source (entityPos wall'))%R
  | None =>
    forall j wall',
      es !! j = Some wall' ->
      Entity.type wall' = WALL -> 0 < Entity.hp wall' ->
      (maxDistance < getDistance source (entityPos wall'))%R
  end.
Proof.
  rewrite findNearestWall_scan.
  match goal with
  | |- context [fold_left (scanStep ?ok ?key) _ None] =>
    pose proof (scan_spec ok key (indexed es)) as H
  end.
  destruct (fold_left _ (indexed es) None) as [[i d]|]; simpl in *.
  - destruct H as (w & Hw & Hc & -> & Hmin). exists w.
    apply elem_of_indexed in Hw. split; [exact Hw|].
    apply andb_true_iff in Hc as [Hc H3]. unfold isLiveWall in Hc.
    apply andb_true_iff in Hc as [H1 H2].
    apply bool_decide_eq_true in H1. apply Z.ltb_lt in H2.
    apply Rleb_true in H3. repeat (split; [assumption|]).
    intros j e' Hj G1 G2 G3. apply (Hmin j e').
    + apply elem_of_indexed. exact Hj.
    + unfold isLiveWall. rewrite bool_decide_eq_true_2 by exact G1.
      apply Z.ltb_lt in G2. rewrite G2. simpl. apply Rleb_true. exact G3.
  - intros j e' Hj G1 G2.
    assert ((j, e') ∈ indexed es) as Hj' by (apply elem_of_indexed; exact Hj).
    specialize (H j e' Hj'). unfold isLiveWall in H.
    rewrite bool_decide_eq_true_2 in H by exact G1.
    apply Z.ltb_lt in G2. rewrite G2 in H. simpl in H.
    apply Rleb_false in H. lra.
Qed.

(** ** Dynamic blocking: the blocked-tile set *)

(** X19.  A tile is in the set that [buildBlockedTiles] returns exactly when
    it is an in-bounds tile that holds the position of some entity that is
    not ignored (by id or by type), has hp > 0 and is a wall, house, mine,
    base or enemy base.  Units and zombies never block a tile. *)
Theorem buildBlockedTiles_spec (entities : list Entity)
    (ignoreTypes : option (list EntityType)) (ignoreId : option string)
    (t : Tile) :
  t ∈ buildBlockedTiles entities ignoreTypes ignoreId <->
  exists e,
    e ∈ entities /\
    isIgnored ignoreId ignoreTypes e = false /\
    0 < Entity.hp e /\
    Entity.type e ∈ blockingTypes /\
    t = (Math_floor (Entity.x e), Math_floor (Entity.y e)) /\
    inBounds (fst t) (snd t) = true.
Proof.
  unfold buildBlockedTiles.
  assert (forall (acc : gset Tile),
    t ∈ fold_left (fun (blocked : gset Tile) e =>
        if isIgnored ignoreId ignoreTypes e then blocked
        else if Entity.hp e <=? 0 then blocked
        else if bool_decide (Entity.type e ∈ blockingTypes) then
          if inBounds (Math_floor (Entity.x e)) (Math_floor (Entity.y e))
          then blocked ∪ {[ (Math_floor (Entity.x e), Math_floor (Entity.y e)) ]}
          else blocked
        else blocked) entities acc <->
    t ∈ acc \/
    exists e,
      e ∈ entities /\
      isIgnored ignoreId ignoreTypes e = false /\
      0 < Entity.hp e /\
      Entity.type e ∈ blockingTypes /\
      t = (Math_floor (Entity.x e), Math_floor (Entity.y e)) /\
      inBounds (fst t) (snd t) = true) as H.
  { induction entities as [|e es IH]; intros acc; simpl.
    - split; [auto|]. intros [H|(e & He & _)]; [exact H|inversion He].
    - rewrite IH. clear IH. split.
      + intros [Hacc|(e' & He' & H)].
        * destruct (isIgnored ignoreId ignoreTypes e) eqn:Hi; [auto|].
          destruct (Entity.hp e <=? 0) eqn:Hhp; [auto|].
          destruct (bool_decide (Entity.type e ∈ blockingTypes)) eqn:Hty; [|auto].
          destruct (inBounds _ _) eqn:Hb; [|auto].
          apply elem_of_union in Hacc as [Hacc|Hacc]; [auto|].
          apply elem_of_singleton in Hacc. right. exists e.
          split; [left|]. split; [exact Hi|].
          apply Z.leb_gt in Hhp. apply bool_decide_eq_true in Hty.
          subst t. split; [exact Hhp|]. split; [exact Hty|].
          split; [reflexivity|exact Hb].
        * right. exists e'. split; [right; exact He'|exact H].
      + intros [Hacc|(e' & He' & Hi & Hhp & Hty & Ht & Hb)].
        * left. destruct (isIgnored ignoreId ignoreTypes e); [exact Hacc|].
          destruct (Entity.hp e <=? 0); [exact Hacc|].
          destruct (bool_decide (Entity.type e ∈ blockingTypes)); [|exact Hacc].
          destruct (inBounds _ _); [|exact Hacc].
          apply elem_of_union_l. exact Hacc.
        * apply elem_of_cons in He' as [->|He'].
          -- left. rewrite Hi. apply Z.leb_gt in Hhp. rewrite Hhp.
             rewrite bool_decide_eq_true_2 by exact Hty.
             subst t. simpl in Hb. rewrite Hb.
             apply elem_of_union_r, elem_of_singleton. reflexivity.
          -- right. exists e'. split; [exact He'|]. split; [exact Hi|].
             split; [exact Hhp|]. split; [exact Hty|]. split; assumption. }
  rewrite (H ∅). split.
  - intros [Hacc|H']; [|exact H']. apply elem_of_empty in Hacc. contradiction.
  - intros H'. right. exact H'.
Qed.

(** ** Zombie waves *)

Lemma spawn_ring_distance (bx b_y angle : R) :
  getDistance (Vector2.mk (bx + cos angle * 2) (b_y + sin angle * 2))
    (Vector2.mk bx b_y) = 2%R.
Proof.
  unfold getDistance. simpl.
  replace ((bx + cos angle * 2 - bx) * ((bx + cos angle * 2 - bx) * 1)
           + (b_y + sin angle * 2 - b_y) * ((b_y + sin angle * 2 - b_y) * 1))%R
    with (2 * 2 * (Rsqr (sin angle) + Rsqr (cos angle)))%R
    by (unfold Rsqr; ring).
  rewrite sin2_cos2, Rmult_1_r. apply sqrt_square. lra.
Qed.



(** Where the rounding shows: for seven players at wave 3 the multiplier
    is the double 2.8, a little below 14/5, and the product with 45 is the
    double just below 126.  The zombie has 125 hit points, while
    floor(45 * 2.8) is 126 in exact arithmetic. *)
Lemma spawnZombie_rounds_down :
  let s := GameState.mk ∅
             [ mkBuilding "enemy_base" ENEMY_BASE 54 10 4000 2 "enemy" ]
             0 false None 3 (Some 7%nat) in
  Entity.hp <$> last (GameState.entities (spawnZombie 7 "z1" 0 s)) = Some 125 /\
  (30 + 3 * 5) * (10 + (7 - 1) * 3) / 10 = 126.
Proof.
  cbv zeta. split; [|reflexivity].
  unfold spawnZombie. cbn [List.find GameState.entities].
  rewrite bool_decide_eq_true_2 by reflexivity.
  cbv zeta. cbn [GameState.set_entities GameState.entities].
  rewrite last_snoc. cbn [fmap option_fmap option_map Entity.hp GameState.waveNumber].
  vm_compute. reflexivity.
Qed.

Lemma spawnZombie_appends (playerCount : Z) (newId : string) (rnd : R)
    (s : GameState) :
  match List.find (fun e => bool_decide (Entity.type e = ENEMY_BASE))
          (GameState.entities s) with
  | None => spawnZombie playerCount newId rnd s = s
  | Some enemyBase =>
    exists z,
      spawnZombie playerCount newId rnd s
      = GameState.set_entities (GameState.entities s ++ [z]) s /\
      Entity.type z = ZOMBIE /\ Entity.ownerId z = "enemy" /\
      getDistance (entityPos z) (entityPos enemyBase) = 2%R
  end.
Proof.
  unfold spawnZombie.
  destruct (List.find _ _) as [enemyBase|]; [|reflexivity].
  cbv zeta. eexists. split; [reflexivity|]. simpl.
  repeat (split; [reflexivity|]).
  unfold entityPos. simpl. apply spawn_ring_distance.
Qed.






(** ** Pathfinder: edge cases and completeness *)

Lemma popLowest_delete (l l' : list OpenEntry.t) (o : OpenEntry.t) :
  popLowest l = Some (o, l') ->
  exists idx, l !! idx = Some o /\ l' = delete idx l.
Proof.
  unfold popLowest. destruct l as [|o0 rest]; [discriminate|].
  destruct (lowestFrom 1 rest 0 o0) as [idx best] eqn:Hl. intros H.
  injection H as <- <-. exists idx. split; [|reflexivity].
  eapply (lowestFrom_spec (o0 :: rest) rest 1 0 o0); [reflexivity| |exact Hl].
  intros j o Hj. exact Hj.
Qed.

Lemma elem_of_delete_or {A : Type} (l : list A) (idx : nat) (o x : A) :
  l !! idx = Some o -> x ∈ l -> x = o \/ x ∈ delete idx l.
Proof.
  intros Ho Hx. apply list_elem_of_lookup in Hx as [j Hj].
  destruct (lt_eq_lt_dec j idx) as [[Hlt|Heq]|Hgt].
  - right. apply (list_elem_of_lookup_2 _ j).
    rewrite list_lookup_delete_lt by exact Hlt. exact Hj.
  - left. subst j. congruence.
  - right. apply (list_elem_of_lookup_2 _ (j - 1)%nat).
    rewrite list_lookup_delete_ge by lia.
    replace (S (j - 1)) with j by lia. exact Hj.
Qed.

Lemma adjacentb_neighbor (a b : Tile) :
  adjacentb a b = true ->
  exists n, n ∈ neighbors /\ b = (fst a + fst n, snd a + snd n).
Proof.
  unfold adjacentb. intros H. apply bool_decide_eq_true in H.
  exists (fst b - fst a, snd b - snd a). split; [exact H|].
  destruct b as [bx b_y]. simpl. f_equal; lia.
Qed.

Section PathfinderCompletenessProofs.

Variable terrain : Z -> Z -> bool.
Variable blocked : Tile -> bool.
Variables start goal : Tile.

Local Abbreviation Inv := (AStarInv terrain blocked start goal).
Local Abbreviation Passable := (passable terrain blocked goal).
Local Abbreviation Relax := (relax terrain blocked goal).

(** What one neighbour test may change: scores and open entries are only
    added, a newly scored tile is open, and a passable neighbour is scored
    afterwards. *)
Lemma relax_grows (st : AStar.t) (current n : Tile) :
  (forall t, isScored st t -> isScored (Relax current st n) t) /\
  (forall t, isOpen st t -> isOpen (Relax current st n) t) /\
  (forall t, isScored (Relax current st n) t ->
             isScored st t \/ isOpen (Relax current st n) t) /\
  (isScored st current ->
   Passable (fst current + fst n, snd current + snd n) ->
   isScored (Relax current st n) (fst current + fst n, snd current + snd n)).
Proof.
  unfold relax.
  set (t' := (fst current + fst n, snd current + snd n)).
  destruct (inBounds (fst current + fst n) (snd current + snd n)) eqn:Hb; simpl.
  2:{ split; [auto|split; [auto|split; [auto|]]]. intros _ (Hb' & _). simpl in Hb'. congruence. }
  destruct (terrain (fst current + fst n) (snd current + snd n)) eqn:Ht; simpl.
  2:{ split; [auto|split; [auto|split; [auto|]]]. intros _ (_ & Ht' & _). simpl in Ht'. congruence. }
  destruct (negb (bool_decide (t' = goal)) && blocked t') eqn:Hg.
  { split; [auto|split; [auto|split; [auto|]]]. intros _ (_ & _ & [Hgoal|Hblk]).
    - rewrite bool_decide_eq_true_2 in Hg by exact Hgoal. discriminate.
    - rewrite Hblk, andb_false_r in Hg. discriminate. }
  destruct (AStar.gScore st !! current) as [gc|] eqn:Hgc.
  2:{ split; [auto|split; [auto|split; [auto|]]]. intros [g Hs]. unfold isScored in *. congruence. }
  match goal with
  | |- context [if ?b then AStar.mk ?os ?cf ?gs else st] =>
    set (improves := b); set (openSet' := os);
    assert (isOpen (AStar.mk openSet' cf gs) t') as Hnew;
    [|assert (forall t, isOpen st t -> isOpen (AStar.mk openSet' cf gs) t)
        as Hkeep]
  end.
  { unfold isOpen. subst openSet'. simpl.
    destruct (existsb _ (AStar.openSet st)) eqn:He.
    - apply existsb_exists in He as (o & Ho & Hn).
      apply bool_decide_eq_true in Hn. exists o.
      split; [apply list_elem_of_In; exact Ho|exact Hn].
    - eexists. split; [apply elem_of_app; right; left|reflexivity]. }
  { intros t (o & Ho & Hn). exists o. split; [|exact Hn].
    subst openSet'. simpl. destruct (existsb _ _); [exact Ho|].
    apply elem_of_app. left. exact Ho. }
  destruct improves eqn:Himp.
  - split; [|split; [exact Hkeep|split]].
    + intros t [g Hs]. unfold isScored. simpl.
      destruct (decide (t' = t)) as [<-|Hn].
      * rewrite lookup_insert_eq. eauto.
      * rewrite lookup_insert_ne by exact Hn. eauto.
    + intros t Hs. unfold isScored in Hs. simpl in Hs.
      destruct (decide (t' = t)) as [<-|Hn]; [right; exact Hnew|].
      rewrite lookup_insert_ne in Hs by exact Hn. left. exact Hs.
    + intros _ _. unfold isScored. simpl. rewrite lookup_insert_eq. eauto.
  - split; [auto|split; [auto|split; [auto|]]]. intros _ _. subst improves. unfold isScored.
    destruct (AStar.gScore st !! t') as [prevG|] eqn:Hprev; [|discriminate].
    exists prevG. exact Hprev.
Qed.

Lemma fold_relax_grows (current : Tile) (ns : list Tile) :
  forall st : AStar.t,
    let st' := fold_left (Relax current) ns st in
    (forall t, isScored st t -> isScored st' t) /\
    (forall t, isOpen st t -> isOpen st' t) /\
    (forall t, isScored st' t -> isScored st t \/ isOpen st' t) /\
    (isScored st current ->
     forall n, n ∈ ns ->
       Passable (fst current + fst n, snd current + snd n) ->
       isScored st' (fst current + fst n, snd current + snd n)).
Proof.
  induction ns as [|n ns IH]; intros st; simpl.
  - split; [auto|split; [auto|split; [auto|]]]. intros _ n Hn. inversion Hn.
  - destruct (relax_grows st current n) as (H1 & H2 & H3 & H4).
    destruct (IH (Relax current st n)) as (G1 & G2 & G3 & G4).
    split; [auto|]. split; [auto|]. split.
    + intros t Hs. destruct (G3 t Hs) as [Hs'|Ho]; [|auto].
      destruct (H3 t Hs') as [Hs''|Ho]; auto.
    + intros Hc m Hm Hp. apply elem_of_cons in Hm as [->|Hm].
      * apply G1. apply H4; assumption.
      * apply G4; auto.
Qed.

Lemma initialAStar_explored :
  Explored terrain blocked goal (initialAStar start goal).
Proof.
  assert (forall t, isScored (initialAStar start goal) t ->
                    isOpen (initialAStar start goal) t) as H.
  { intros t [g Hg]. simpl in Hg. apply lookup_singleton_Some in Hg as [<- _].
    eexists. split; [left|reflexivity]. }
  constructor; auto.
Qed.

Lemma astarStep_explored (st st' : AStar.t) :
  Inv st -> Explored terrain blocked goal st ->
  astarStep terrain blocked start goal st = Running st' ->
  Explored terrain blocked goal st'.
Proof.
  intros HI [Hsc Hgoal]. unfold astarStep.
  destruct (popLowest (AStar.openSet st)) as [[lowest openSet']|] eqn:Hpop;
    [|discriminate].
  destruct (pop_inv _ _ _ _ st lowest openSet' HI Hpop) as (_ & _ & Hcur).
  apply popLowest_delete in Hpop as (idx & Hidx & ->).
  destruct (bool_decide (OpenEntry.node lowest = goal)) eqn:Hg.
  { destruct (reconstruct _ _ _); discriminate. }
  apply bool_decide_eq_false in Hg.
  intros H. apply Running_inj in H. subst st'.
  set (current := OpenEntry.node lowest) in *.
  set (st1 := AStar.mk (delete idx (AStar.openSet st)) (AStar.cameFrom st)
                (AStar.gScore st)).
  assert (forall t, isOpen st t -> t = current \/ isOpen st1 t) as Hpopped.
  { intros t (o & Ho & Hn).
    destruct (elem_of_delete_or _ idx lowest o Hidx Ho) as [->|Ho'].
    - left. symmetry. exact Hn.
    - right. exists o. auto. }
  destruct (fold_relax_grows current neighbors st1) as (G1 & G2 & G3 & G4).
  constructor.
  - intros t Hs. destruct (decide (t = current)) as [->|Hne].
    + right. intros n Hn Hp. apply G4; [exact Hcur|exact Hn|exact Hp].
    + destruct (G3 t Hs) as [Hs1|Ho]; [|left; exact Ho].
      destruct (Hsc t Hs1) as [Ho|Hns].
      * destruct (Hpopped t Ho) as [->|Ho1]; [contradiction|].
        left. apply G2. exact Ho1.
      * right. intros n Hn Hp. apply G1. apply (Hns n Hn Hp).
  - intros Hs. destruct (G3 goal Hs) as [Hs1|Ho]; [|exact Ho].
    destruct (Hpopped goal (Hgoal Hs1)) as [Heq|Ho1].
    + exfalso. apply Hg. symmetry. exact Heq.
    + apply G2. exact Ho1.
Qed.

(** With an empty open list every scored tile has been expanded, so every
    tile of a route from the start is scored. *)
Lemma route_scored (st : AStar.t) :
  (forall t, isScored st t -> neighborsScored terrain blocked goal st t) ->
  forall (tiles : list Tile) (a l : Tile),
    isScored st a ->
    isGridPath (a :: tiles) = true -> Forall Passable tiles ->
    last (a :: tiles) = Some l -> isScored st l.
Proof.
  intros Hclosed. induction tiles as [|b tiles IH]; intros a l Ha Hg Hp Hl.
  - simpl in Hl. injection Hl as <-. exact Ha.
  - change (isGridPath (a :: b :: tiles))
      with (adjacentb a b && isGridPath (b :: tiles)) in Hg.
    apply andb_true_iff in Hg as [Hab Hg].
    apply Forall_cons in Hp as [Hb Hp].
    apply (IH b l); auto.
    destruct (adjacentb_neighbor a b Hab) as (n & Hn & ->).
    apply (Hclosed a Ha n Hn Hb).
Qed.

Lemma astarStep_finds_route (st : AStar.t) (tiles : list Tile) :
  Inv st -> Explored terrain blocked goal st ->
  isRoute terrain blocked start goal tiles ->
  astarStep terrain blocked start goal st <> Returned None.
Proof.
  intros HI [Hsc Hgoal] (Hh & Hl & Hg & Hp). unfold astarStep.
  destruct (popLowest (AStar.openSet st)) as [[lowest openSet']|] eqn:Hpop.
  - destruct (pop_inv _ _ _ _ st lowest openSet' HI Hpop) as (HI1 & _ & Hcur).
    destruct (bool_decide (OpenEntry.node lowest = goal)); [|discriminate].
    destruct (reconstruct_spec _ _ _ _ _ (OpenEntry.node lowest) HI1 Hcur)
      as (chain & -> & _).
    discriminate.
  - intros _. unfold popLowest in Hpop.
    destruct (AStar.openSet st) as [|o0 rest] eqn:Hopen.
    2:{ destruct (lowestFrom 1 rest 0 o0); discriminate. }
    assert (forall t, ~ isOpen st t) as Hnone.
    { intros t (o & Ho & _). rewrite Hopen in Ho. inversion Ho. }
    destruct tiles as [|a tiles]; [discriminate|].
    simpl in Hh. injection Hh as ->.
    apply (Hnone goal). apply Hgoal.
    apply (route_scored st) with (tiles := tiles) (a := start); auto.
    + intros t Ht. destruct (Hsc t Ht) as [Ho|Hn]; [|exact Hn].
      exfalso. apply (Hnone t Ho).
    + exists 0. apply (inv_start _ _ _ _ _ HI).
Qed.

Lemma iterate_finds_route (tiles : list Tile) (n : nat) :
  isRoute terrain blocked start goal tiles ->
  forall st : AStar.t,
    Inv st -> Explored terrain blocked goal st ->
    iterate terrain blocked start goal n st <> Returned None.
Proof.
  intros Hr. induction n as [|n IH]; intros st HI HE; [discriminate|].
  simpl.
  destruct (astarStep terrain blocked start goal st) as [r|st'|] eqn:Hstep.
  - rewrite <- Hstep. exact (astarStep_finds_route st tiles HI HE Hr).
  - destruct (astarStep_running _ _ _ _ st st' HI Hstep) as [HI' _].
    apply IH; [exact HI'|]. exact (astarStep_explored st st' HI HE Hstep).
  - discriminate.
Qed.

End PathfinderCompletenessProofs.

Lemma findPathTiles_complete (terrain : Z -> Z -> bool) (blocked : Tile -> bool)
    (start goal : Tile) :
  (exists path, findPathTiles terrain blocked start goal = Returned (Some path))
  <-> exists tiles, isRoute terrain blocked start goal tiles.
Proof.
  split.
  - intros [path H]. apply findPathTiles_sound in H as (tiles & _ & H).
    exists tiles. exact H.
  - intros [tiles Hr].
    destruct (findPathTiles_terminates terrain blocked start goal)
      as (result & Hrun & Hit).
    destruct result as [path|]; [eauto|]. exfalso.
    apply (iterate_finds_route terrain blocked start goal tiles _ Hr _
             (initialAStar_inv terrain blocked start goal)
             (initialAStar_explored terrain blocked start goal) Hit).
Qed.

(** X22.  [findPath] is complete: it returns a path exactly when the goal
    tile can be reached from the start tile by 8-directional steps over
    tiles that are in bounds, on valid terrain and, unless they are the goal
    tile, not blocked; it returns nothing exactly when there is no such
    route.  (The start tile itself needs no such check.) *)
Theorem findPath_finds_route_iff (terrain : Z -> Z -> bool)
    (entities : list Entity) (startX startY goalX goalY : R)
    (ignoreId : option string) (ignoreTypes : option (list EntityType))
    (blockedTiles : option (gset Tile)) :
  let start := (Math_floor startX, Math_floor startY) in
  let goal := (Math_floor goalX, Math_floor goalY) in
  let route :=
    exists tiles,
      isRoute terrain (tileBlocked entities ignoreId ignoreTypes blockedTiles)
        start goal tiles in
  ((exists path,
      findPathWith terrain entities startX startY goalX goalY
        ignoreId ignoreTypes blockedTiles = Some path) <-> route) /\
  (findPathWith terrain entities startX startY goalX goalY
     ignoreId ignoreTypes blockedTiles = None <-> ~ route).
Proof.
  cbv zeta. rewrite findPathWith_unfold.
  pose proof (findPathTiles_complete terrain
                (tileBlocked entities ignoreId ignoreTypes blockedTiles)
                (Math_floor startX, Math_floor startY)
                (Math_floor goalX, Math_floor goalY)) as Hc.
  destruct (findPathTiles_terminates terrain
              (tileBlocked entities ignoreId ignoreTypes blockedTiles)
              (Math_floor startX, Math_floor startY)
              (Math_floor goalX, Math_floor goalY)) as (result & Hrun & _).
  rewrite Hrun in *. destruct result as [path|].
  - assert (exists tiles,
               isRoute terrain
                 (tileBlocked entities ignoreId ignoreTypes blockedTiles)
                 (Math_floor startX, Math_floor startY)
                 (Math_floor goalX, Math_floor goalY) tiles) as Hr
      by (apply Hc; eauto).
    split; split; try discriminate; eauto. intros Hn. contradiction.
  - assert (~ exists tiles,
               isRoute terrain
                 (tileBlocked entities ignoreId ignoreTypes blockedTiles)
                 (Math_floor startX, Math_floor startY)
                 (Math_floor goalX, Math_floor goalY) tiles) as Hr.
    { intros Hr. apply Hc in Hr as [path Hp]. discriminate. }
    split; split; auto.
    + intros [path Hp]. discriminate.
    + intros H. contradiction.
Qed.

(** X23.  When start and goal lie in the same tile, [findPath] returns the
    one-waypoint path made of that tile's center, whatever the terrain
    oracle and the blocked tiles say about the tile. *)
Theorem findPath_same_tile (terrain : Z -> Z -> bool)
    (entities : list Entity) (startX startY goalX goalY : R)
    (ignoreId : option string) (ignoreTypes : option (list EntityType))
    (blockedTiles : option (gset Tile)) :
  Math_floor startX = Math_floor goalX ->
  Math_floor startY = Math_floor goalY ->
  findPathWith terrain entities startX startY goalX goalY
    ignoreId ignoreTypes blockedTiles
  = Some [Vector2.mk (IZR (Math_floor startX) + 0.5)
            (IZR (Math_floor startY) + 0.5)].
Proof.
  intros Hx Hy. rewrite findPathWith_unfold, <- Hx, <- Hy.
  rewrite (findPathTiles_of_iterate terrain
             (tileBlocked entities ignoreId ignoreTypes blockedTiles)
             (Math_floor startX, Math_floor startY)
             (Math_floor startX, Math_floor startY) 1
             (Some [tileCenter (Math_floor startX, Math_floor startY)]));
    [reflexivity|lia|].
  simpl. unfold astarStep, initialAStar, popLowest. simpl.
  rewrite bool_decide_eq_true_2 by reflexivity.
  unfold reconstruct, reconstructFuel. simpl.
  rewrite bool_decide_eq_true_2 by reflexivity. reflexivity.
Qed.

Lemma findPath_same_tile_witness :
  findPathWith (fun _ _ => false) [] (3 + 0.5) (4 + 0.5) (3 + 0.5) (4 + 0.5)
    None None None
  = Some [Vector2.mk (IZR (Math_floor (3 + 0.5)) + 0.5)
            (IZR (Math_floor (4 + 0.5)) + 0.5)].
Proof.
  apply (findPath_same_tile (fun _ _ => false) [] (3 + 0.5) (4 + 0.5)
           (3 + 0.5) (4 + 0.5) None None None); reflexivity.
Defined.

(** ** Geometry: distances along paths and to segments *)




Lemma clamp_cases (t0 : R) :
  let c := Rmax 0 (Rmin 1 t0) in
  (t0 <= 0 /\ c = 0)%R \/ (0 <= t0 <= 1 /\ c = t0)%R \/ (1 <= t0 /\ c = 1)%R.
Proof.
  cbv zeta. unfold Rmin, Rmax.
  destruct (Rle_dec 1 t0) as [H1|H1].
  - destruct (Rle_dec 0 1); [|lra]. right. right. lra.
  - destruct (Rle_dec 0 t0) as [H0|H0].
    + right. left. lra.
    + left. lra.
Qed.

(** X25.  [distancePointToSegment] returns the distance from the point P to
    the nearest point of the segment from A to B: the value is the distance
    from P to some point A + t (B - A) with 0 <= t <= 1, and no point of the
    segment is closer to P.  A segment of length zero is treated as the
    point A. *)
Theorem distancePointToSegment_nearest (px py ax ay bx b_y : R) :
  let onSegment (t : R) :=
    Vector2.mk (ax + t * (bx - ax)) (ay + t * (b_y - ay)) in
  (exists t, (0 <= t <= 1)%R /\
             distancePointToSegment px py ax ay bx b_y
             = getDistance (Vector2.mk px py) (onSegment t)) /\
  (forall s, (0 <= s <= 1)%R ->
             (distancePointToSegment px py ax ay bx b_y
              <= getDistance (Vector2.mk px py) (onSegment s))%R).
Proof.
  cbv zeta. unfold distancePointToSegment, getDistance. simpl Vector2.x.
  simpl Vector2.y.
  destruct (Reqb (bx - ax) 0 && Reqb (b_y - ay) 0) eqn:Hz.
  - apply andb_true_iff in Hz as [Hx Hy]. apply Reqb_true in Hx, Hy.
    rewrite Hx, Hy. split.
    + exists 0%R. split; [lra|]. f_equal. ring.
    + intros s _. right. f_equal. ring.
  - set (dx := (bx - ax)%R) in *. set (dy := (b_y - ay)%R) in *.
    set (u := (px - ax)%R). set (v := (py - ay)%R).
    set (L := (dx * dx + dy * dy)%R).
    set (t0 := ((u * dx + v * dy) / L)%R).
    assert (0 < L)%R as HL.
    { assert (dx <> 0 \/ dy <> 0)%R as Hne.
      { apply andb_false_iff in Hz as [Hz|Hz]; [left|right]; intros H0;
          rewrite H0 in Hz; unfold Reqb in Hz;
          destruct (Req_dec_T 0 0); congruence. }
      pose proof (Rle_0_sqr dx) as Hx. pose proof (Rle_0_sqr dy) as Hy.
      unfold L, Rsqr in *.
      destruct Hne as [Hne|Hne]; apply Rsqr_pos_lt in Hne; unfold Rsqr in Hne;
        lra. }
    assert (forall r,
              ((px - (ax + r * dx)) ^ 2 + (py - (ay + r * dy)) ^ 2
               = u * u + v * v + (r * r - 2 * r * t0) * L)%R) as Hq.
    { intros r.
      transitivity (u * u + v * v - 2 * r * (u * dx + v * dy) + r * r * L)%R;
        [unfold u, v, L; ring|].
      replace (u * dx + v * dy)%R with (t0 * L)%R
        by (unfold t0; field; lra).
      ring. }
    assert (forall c s,
              (c * c - 2 * c * t0 <= s * s - 2 * s * t0)%R ->
              (sqrt ((px - (ax + c * dx)) ^ 2 + (py - (ay + c * dy)) ^ 2)
               <= sqrt ((px - (ax + s * dx)) ^ 2 + (py - (ay + s * dy)) ^ 2))%R)
      as Hle.
    { intros c s H. apply sqrt_le_1_alt. rewrite (Hq c), (Hq s).
      apply Rplus_le_compat_l. apply Rmult_le_compat_r; [lra|exact H]. }
    destruct (clamp_cases t0) as [[Ht Hc]|[[Ht Hc]|[Ht Hc]]]; cbv zeta in Hc.
    all: rewrite Hc.
    all: split; [eexists; split; [|reflexivity]; lra|].
    all: intros s Hs; apply Hle.
    + assert (0 <= s * (- t0))%R by (apply Rmult_le_pos; lra).
      pose proof (Rle_0_sqr s) as Hs2. unfold Rsqr in Hs2. lra.
    + pose proof (Rle_0_sqr (s - t0)) as Hs2. unfold Rsqr in Hs2. lra.
    + assert (0 <= (1 - s) * (2 * t0 - 1 - s))%R by (apply Rmult_le_pos; lra).
      lra.
Qed.

(** ** The tick: the attack branch *)

Lemma getE_modE_eq (i : nat) (f : Entity -> Entity) (es : list Entity) :
  is_Some (es !! i) -> getE (modE i f es) i = f (getE es i).
Proof.
  intros [e He]. unfold getE, modE. rewrite list_lookup_alter_eq, He.
  reflexivity.
Qed.

Lemma getE_modE_ne (i j : nat) (f : Entity -> Entity) (es : list Entity) :
  i <> j -> getE (modE i f es) j = getE es j.
Proof.
  intros Hne. unfold getE, modE. rewrite list_lookup_alter_ne by exact Hne.
  reflexivity.
Qed.

Lemma modE_is_Some (i j : nat) (f : Entity -> Entity) (es : list Entity) :
  is_Some (es !! j) -> is_Some (modE i f es !! j).
Proof.
  intros [e He]. unfold modE. rewrite list_lookup_alter.
  destruct (decide (i = j)) as [->|_]; [rewrite He|]; eauto.
Qed.

(** X26.  The attack branch of a tick strikes only when the attacker is off
    cooldown.  With no cooldown, or one that has run down to zero or below,
    the target loses exactly the attacker's damage (0 if it has none), the
    attacker's owner is recorded as the target's last attacker and the
    attacker's cooldown is set to 1.  While the cooldown is positive the
    target's hp and last attacker are left as they were.  No other entity
    is touched, and none is added or removed. *)
Theorem attack_effect (i target : nat) (es : list Entity)
    (attacker victim : Entity) :
  es !! i = Some attacker -> es !! target = Some victim -> i <> target ->
  let es' := attack i target es in
  length es' = length es /\
  (forall j, j <> i -> j <> target -> es' !! j = es !! j) /\
  ((forall c, Entity.attackCooldown attacker = Some c -> (c <= 0)%R) ->
   Entity.hp (getE es' target)
   = Entity.hp victim - default 0 (Entity.damage attacker) /\
   Entity.lastAttackerId (getE es' target) = Some (Entity.ownerId attacker) /\
   Entity.attackCooldown (getE es' i) = Some 1%R) /\
  ((exists c, Entity.attackCooldown attacker = Some c /\ (0 < c)%R) ->
   Entity.hp (getE es' target) = Entity.hp victim /\
   Entity.lastAttackerId (getE es' target) = Entity.lastAttackerId victim /\
   Entity.attackCooldown (getE es' i) = Entity.attackCooldown attacker).
Proof.
  intros Hi Ht Hne. cbv zeta.
  assert (getE es i = attacker) as Ha by (unfold getE; rewrite Hi; reflexivity).
  assert (getE es target = victim) as Hv
    by (unfold getE; rewrite Ht; reflexivity).
  unfold attack. cbv zeta.
  set (es5 := modE i (Entity.set_pathIndex None) _).
  assert (length es5 = length es) as Hlen5.
  { subst es5. unfold modE. rewrite !length_alter. reflexivity. }
  assert (forall j, j <> i -> es5 !! j = es !! j) as Hother5.
  { intros j Hj. subst es5. unfold modE.
    rewrite !list_lookup_alter_ne by auto. reflexivity. }
  assert (is_Some (es5 !! i)) as Hi5.
  { subst es5. repeat apply modE_is_Some. eauto. }
  assert (is_Some (es5 !! target)) as Ht5.
  { rewrite Hother5 by auto. eauto. }
  assert (getE es5 target = victim) as Hv5.
  { unfold getE. rewrite Hother5 by auto. rewrite Ht. reflexivity. }
  assert (Entity.attackCooldown (getE es5 i) = Entity.attackCooldown attacker
          /\ Entity.ownerId (getE es5 i) = Entity.ownerId attacker
          /\ Entity.damage (getE es5 i) = Entity.damage attacker)
    as (Hcd5 & Hown5 & Hdmg5).
  { subst es5. rewrite !getE_modE_eq by (repeat apply modE_is_Some; eauto).
    rewrite Ha. destruct attacker; repeat split. }
  rewrite Hcd5. clearbody es5.
  destruct (Entity.attackCooldown attacker) as [c|] eqn:Hc.
  - destruct (Reqb c 0 || Rleb c 0) eqn:Hready.
    + assert (c <= 0)%R as Hc0.
      { apply orb_true_iff in Hready as [H|H];
          [apply Reqb_true in H; lra|apply Rleb_true in H; exact H]. }
      split; [unfold modE; rewrite !length_alter; exact Hlen5|].
      split.
      { intros j Hj1 Hj2. unfold modE.
        rewrite !list_lookup_alter_ne by auto. apply Hother5. exact Hj1. }
      split.
      * intros _.
        rewrite (getE_modE_ne i target) by exact Hne.
        rewrite !getE_modE_eq
          by (repeat apply modE_is_Some; exact Ht5 || exact Hi5).
        rewrite (getE_modE_ne target i) by auto.
        rewrite !Hv5, Hdmg5, Hown5.
        split; [destruct victim; reflexivity|].
        split; [destruct victim; reflexivity|].
        destruct (getE (modE target _ (modE target _ es5)) i); reflexivity.
      * intros (c' & Hc' & Hpos). injection Hc' as <-. lra.
    + assert (0 < c)%R as Hc0.
      { apply orb_false_iff in Hready as [_ H]. apply Rleb_false in H. lra. }
      split; [exact Hlen5|]. split; [intros j Hj _; apply Hother5; exact Hj|].
      split.
      * intros H. specialize (H c eq_refl). lra.
      * intros _. rewrite Hv5, Hcd5. auto.
  - split; [unfold modE; rewrite !length_alter; exact Hlen5|].
    split.
    { intros j Hj1 Hj2. unfold modE.
      rewrite !list_lookup_alter_ne by auto. apply Hother5. exact Hj1. }
    split.
    + intros _.
      rewrite (getE_modE_ne i target) by exact Hne.
      rewrite !getE_modE_eq
        by (repeat apply modE_is_Some; exact Ht5 || exact Hi5).
      rewrite (getE_modE_ne target i) by auto.
      rewrite !Hv5, Hdmg5, Hown5.
      split; [destruct victim; reflexivity|].
      split; [destruct victim; reflexivity|].
      destruct (getE (modE target _ (modE target _ es5)) i); reflexivity.
    + intros (c' & Hc' & _). discriminate.
Qed.

Lemma attack_effect_witness :
  Entity.hp
    (getE (attack 0 1
             [ Entity.mk "z1" ZOMBIE 0 0 35 35 0.4 "enemy" None (Some 0%R)
                 None None None None None None None (Some 6) (Some 0.8%R)
                 (Some 0.8%R) None;
               thinWall ]) 1)
  = 200 - 6.
Proof.
  destruct (attack_effect 0 1
              [ Entity.mk "z1" ZOMBIE 0 0 35 35 0.4 "enemy" None (Some 0%R)
                  None None None None None None None (Some 6) (Some 0.8%R)
                  (Some 0.8%R) None;
                thinWall ]
              (Entity.mk "z1" ZOMBIE 0 0 35 35 0.4 "enemy" None (Some 0%R)
                 None None None None None None None (Some 6) (Some 0.8%R)
                 (Some 0.8%R) None)
              thinWall eq_refl eq_refl) as (_ & _ & H & _); [lia|].
  destruct H as [H _]; [|exact H].
  intros c Hc. injection Hc as <-. lra.
Defined.

(** ** NetworkManager: player ids *)

Lemma NetworkManager_run_wellNumbered (nm : NetworkManager.t)
    (c : NetworkManager.Command) :
  NetworkManager.wellNumbered nm ->
  NetworkManager.wellNumbered (NetworkManager.run nm c).
Proof.
  intros (Hn & Hids & Hinj).
  destruct c as [peerId|]; unfold NetworkManager.wellNumbered; simpl.
  - split; [lia|]. split.
    + intros peer playerId H. destruct (decide (peerId = peer)) as [->|Hne].
      * rewrite lookup_insert_eq in H. injection H as <-.
        exists (NetworkManager.nextPlayerId nm). split; [lia|reflexivity].
      * rewrite lookup_insert_ne in H by exact Hne.
        destruct (Hids peer playerId H) as (k & Hk & ->).
        exists k. split; [lia|reflexivity].
    + assert (forall peer playerId,
                NetworkManager.peerToPlayer nm !! peer = Some playerId ->
                playerId <> "p" +:+ pretty (NetworkManager.nextPlayerId nm))
        as Hfresh.
      { intros peer playerId H Heq.
        destruct (Hids peer playerId H) as (k & Hk & ->).
        simpl in Heq. injection Heq as Heq. apply pretty_Z_inj in Heq. lia. }
      intros peerA peerB playerId HA HB.
      destruct (decide (peerId = peerA)) as [HeqA|HneA];
        destruct (decide (peerId = peerB)) as [HeqB|HneB];
        [congruence|subst peerA|subst peerB|].
      * rewrite lookup_insert_eq in HA. injection HA as <-.
        rewrite lookup_insert_ne in HB by exact HneB.
        exfalso. apply (Hfresh peerB _ HB). reflexivity.
      * rewrite lookup_insert_eq in HB. injection HB as <-.
        rewrite lookup_insert_ne in HA by exact HneA.
        exfalso. apply (Hfresh peerA _ HA). reflexivity.
      * rewrite lookup_insert_ne in HA by exact HneA.
        rewrite lookup_insert_ne in HB by exact HneB.
        apply (Hinj peerA peerB playerId HA HB).
  - split; [lia|]. split.
    + intros peer playerId H. rewrite lookup_empty in H. discriminate.
    + intros peerA peerB playerId H. rewrite lookup_empty in H. discriminate.
Qed.

(** X27.  Player ids of peers.  Right after [assignPlayerToPeer] the peer
    is looked up under the id that the call returned, and the ids of the
    other peers are as before.  Whatever sequence of assignments and
    disconnects a fresh manager goes through, two different peers never
    hold the same player id, and no peer ever holds 'p1', the id of the
    host. *)
Theorem assignPlayerToPeer_ids (commands : list NetworkManager.Command) :
  let nm := fold_left NetworkManager.run commands NetworkManager.initial in
  (forall peerId,
     let '(playerId, nm') := NetworkManager.assignPlayerToPeer peerId nm in
     NetworkManager.getPlayerIdForPeer peerId nm' = Some playerId /\
     forall other, other <> peerId ->
       NetworkManager.getPlayerIdForPeer other nm'
       = NetworkManager.getPlayerIdForPeer other nm) /\
  (forall peerA peerB playerId,
     NetworkManager.getPlayerIdForPeer peerA nm = Some playerId ->
     NetworkManager.getPlayerIdForPeer peerB nm = Some playerId ->
     peerA = peerB) /\
  (forall peerId, NetworkManager.getPlayerIdForPeer peerId nm <> Some "p1").
Proof.
  cbv zeta.
  assert (NetworkManager.wellNumbered
            (fold_left NetworkManager.run commands NetworkManager.initial))
    as (Hn & Hids & Hinj).
  { assert (NetworkManager.wellNumbered NetworkManager.initial) as H0.
    { split; [simpl; lia|]. split.
      - intros peer playerId H. simpl in H. rewrite lookup_empty in H.
        discriminate.
      - intros peerA peerB playerId H. simpl in H. rewrite lookup_empty in H.
        discriminate. }
    revert H0. generalize NetworkManager.initial.
    induction commands as [|c commands IH]; intros nm H0; [exact H0|].
    simpl. apply IH. apply NetworkManager_run_wellNumbered. exact H0. }
  split; [|split].
  - intros peerId. unfold NetworkManager.assignPlayerToPeer,
      NetworkManager.getPlayerIdForPeer. simpl.
    split; [apply lookup_insert_eq|].
    intros other Hne. apply lookup_insert_ne. auto.
  - exact Hinj.
  - intros peerId H. destruct (Hids peerId "p1" H) as (k & Hk & Heq).
    simpl in Heq. injection Heq as Heq.
    change "1"%string with (pretty 1) in Heq.
    apply pretty_Z_inj in Heq. lia.
Qed.

(** ** The tick: hit points *)

Lemma hurtFrame_refl (es : list Entity) : hurtFrame es es.
Proof.
  split; [reflexivity|]. intros k e H. exists e.
  split; [exact H|]. split; [apply sameIdentity_refl|lia].
Qed.

Lemma hurtFrame_trans (a b c : list Entity) :
  hurtFrame a b -> hurtFrame b c -> hurtFrame a c.
Proof.
  intros [L1 H1] [L2 H2]. split; [congruence|]. intros k e Hk.
  destruct (H1 k e Hk) as (e1 & Hk1 & Hi1 & Hp1).
  destruct (H2 k e1 Hk1) as (e2 & Hk2 & Hi2 & Hp2).
  exists e2. split; [exact Hk2|]. split; [eapply sameIdentity_trans; eauto|lia].
Qed.

(** An assignment to a field other than the hit points. *)
Lemma hurtFrame_modE (t : nat) (f : Entity -> Entity) (es X : list Entity) :
  keepsIdentity f -> (forall e, Entity.hp (f e) = Entity.hp e) ->
  hurtFrame es X -> hurtFrame es (modE t f X).
Proof.
  intros Hf Hp HX. eapply hurtFrame_trans; [exact HX|]. unfold modE.
  split; [apply length_alter|]. intros k e Hk.
  destruct (decide (t = k)) as [->|Hne].
  - exists (f e). rewrite list_lookup_alter_eq, Hk. split; [reflexivity|].
    split; [apply Hf|]. rewrite Hp. lia.
  - exists e. rewrite list_lookup_alter_ne by exact Hne. split; [exact Hk|].
    split; [apply sameIdentity_refl|lia].
Qed.

(** The assignment [target.hp -= d]. *)
Lemma hurtFrame_hit (t : nat) (d : Z) (es X : list Entity) :
  0 <= d -> hurtFrame es X ->
  hurtFrame es (modE t (Entity.set_hp (Entity.hp (getE X t) - d)) X).
Proof.
  intros Hd HX. eapply hurtFrame_trans; [exact HX|]. unfold modE.
  split; [apply length_alter|]. intros k e Hk.
  destruct (decide (t = k)) as [->|Hne].
  - eexists. rewrite list_lookup_alter_eq, Hk. split; [reflexivity|].
    unfold getE. rewrite Hk. destruct e; simpl. split; [repeat split|lia].
  - exists e. rewrite list_lookup_alter_ne by exact Hne. split; [exact Hk|].
    split; [apply sameIdentity_refl|lia].
Qed.

Lemma hurtFrame_damage (es X : list Entity) (i : nat) :
  noNegativeDamage es -> hurtFrame es X ->
  0 <= default 0 (Entity.damage (getE X i)).
Proof.
  intros Hn [HL HF]. unfold getE.
  destruct (es !! i) as [e|] eqn:He.
  - destruct (HF i e He) as (e' & He' & Hid & _). rewrite He'. simpl.
    destruct Hid as (_ & _ & _ & _ & _ & -> & _).
    apply Hn. eapply list_elem_of_lookup_2. exact He.
  - apply lookup_ge_None in He. rewrite <- HL in He.
    apply lookup_ge_None in He. rewrite He. simpl. lia.
Qed.

Ltac hframe :=
  repeat first
    [ assumption
    | apply hurtFrame_refl
    | apply hurtFrame_modE; [intros []; repeat split|intros []; reflexivity|]
    | match goal with
      | |- hurtFrame _ (if ?b then _ else _) => destruct b
      | |- hurtFrame _ (match ?x with _ => _ end) => destruct x
      end ].

Lemma tickCooldown_hurtFrame (deltaTime : R) (i : nat) (es X : list Entity) :
  hurtFrame es X -> hurtFrame es (tickCooldown deltaTime i X).
Proof. intros HX. unfold tickCooldown. hframe. Qed.

Lemma onBlockedStep_hurtFrame (i : nat) (es X : list Entity) :
  hurtFrame es X -> hurtFrame es (onBlockedStep i X).
Proof. intros HX. unfold onBlockedStep. cbv zeta. hframe. Qed.

Lemma moveTo_hurtFrame (i : nat) (newX newY dx dy len : R)
    (es X : list Entity) :
  hurtFrame es X -> hurtFrame es (moveTo i newX newY dx dy len X).
Proof. intros HX. unfold moveTo. cbv zeta. hframe. Qed.

Lemma attack_hurtFrame (i target : nat) (es X : list Entity) :
  noNegativeDamage es ->
  hurtFrame es X -> hurtFrame es (attack i target X).
Proof.
  intros Hn HX. unfold attack. cbv zeta.
  set (X5 := modE i (Entity.set_pathIndex None) _).
  assert (hurtFrame es X5) as H5 by (subst X5; hframe).
  clearbody X5.
  match goal with |- hurtFrame _ (if ?b then _ else _) => destruct b end;
    [|exact H5].
  apply hurtFrame_modE; [intros []; repeat split|intros []; reflexivity|].
  apply hurtFrame_modE; [intros []; repeat split|intros []; reflexivity|].
  apply hurtFrame_hit; [|exact H5].
  apply (hurtFrame_damage es X5 i Hn H5).
Qed.

Lemma followPath_hurtFrame (deltaTime speed : R) (i : nat)
    (waypoint : Vector2) (es X : list Entity) :
  hurtFrame es X -> hurtFrame es (followPath deltaTime speed i waypoint X).
Proof.
  intros HX. unfold followPath. cbv zeta.
  destruct (Rltb 0 _); [|exact HX].
  match goal with
  | |- hurtFrame _ (if _ then modE _ _ ?Y else ?Y) =>
    assert (hurtFrame es Y) as HY
  end.
  { destruct (_ && _); [apply moveTo_hurtFrame|apply onBlockedStep_hurtFrame];
      exact HX. }
  hframe.
Qed.

Lemma moveDirect_hurtFrame (deltaTime speed : R) (i target : nat)
    (es X : list Entity) :
  hurtFrame es X -> hurtFrame es (moveDirect deltaTime speed i target X).
Proof.
  intros HX. unfold moveDirect. cbv zeta.
  destruct (Rltb 0 _); [|exact HX].
  destruct (_ && _); [apply moveTo_hurtFrame|apply onBlockedStep_hurtFrame];
    exact HX.
Qed.

Lemma actOn_hurtFrame (deltaTime speed dist radius : R) (i target : nat)
    (es X : list Entity) :
  noNegativeDamage es ->
  hurtFrame es X ->
  hurtFrame es (actOn deltaTime speed dist radius i target X).
Proof.
  intros Hn HX. unfold actOn. cbv zeta.
  destruct (_ && _); [apply attack_hurtFrame; assumption|].
  destruct (Entity.path _) as [path|];
    [destruct (Entity.pathIndex _) as [idx|];
     [destruct (path !! idx); [apply followPath_hurtFrame; exact HX|]|]|];
    (destruct (_ && _); [apply moveDirect_hurtFrame; exact HX|exact HX]).
Qed.

Lemma planPath_hurtFrame (blockedTiles : gset Tile) (i target : nat)
    (es X : list Entity) :
  hurtFrame es X -> hurtFrame es (fst (planPath blockedTiles i target X)).
Proof.
  intros HX. unfold planPath. cbv zeta.
  match goal with
  | |- hurtFrame _ (fst (let '(d, p) := ?c in _)) => destruct c as [d p]
  end.
  simpl fst.
  apply hurtFrame_modE; [intros []; repeat split|intros []; reflexivity|].
  apply hurtFrame_modE; [intros []; repeat split|intros []; reflexivity|].
  hframe.
Qed.

Lemma pursue_hurtFrame (deltaTime : R) (players : gmap string PlayerState)
    (bd bi : gset Tile) (i target : nat) (es X : list Entity) :
  noNegativeDamage es ->
  hurtFrame es X ->
  hurtFrame es (pursue deltaTime players bd bi i target X).
Proof.
  intros Hn HX. unfold pursue.
  set (speed := speedOf (getE X i)).
  set (isZombie := bool_decide (Entity.type (getE X i) = ZOMBIE)).
  set (bt := if isZombie then bi else bd).
  set (X1 := modE i (Entity.set_pathCooldown _) X).
  assert (hurtFrame es X1) as H1
    by (apply hurtFrame_modE;
        [intros []; repeat split|intros []; reflexivity|exact HX]).
  cbv zeta.
  match goal with
  | |- hurtFrame _ (let '(a, b) := ?c in _) =>
    assert (hurtFrame es (fst c)) as H2; [|destruct c as [X2 t2]]
  end.
  { destruct (_ && _); [apply planPath_hurtFrame; exact H1|].
    destruct (_ && _); [|exact H1].
    destruct (findLockedTarget _ _); exact H1. }
  simpl fst in H2.
  destruct (_ && _); [|apply actOn_hurtFrame; assumption].
  match goal with
  | |- hurtFrame _ (if _ then match _ with Some _ => _ | None => ?Y end else _) =>
    assert (hurtFrame es Y) as H3
  end.
  { hframe. }
  destruct isZombie; [|exact H3].
  destruct (findClosestTarget _ _ _ _); [apply actOn_hurtFrame|]; assumption.
Qed.

Lemma entityStep_hurtFrame (deltaTime : R) (players : gmap string PlayerState)
    (bd bi : gset Tile) (i : nat) (es X : list Entity) :
  noNegativeDamage es ->
  hurtFrame es X -> hurtFrame es (entityStep deltaTime players bd bi X i).
Proof.
  intros Hn HX. unfold entityStep. cbv zeta.
  pose proof (tickCooldown_hurtFrame deltaTime i es X HX) as H.
  destruct (_ || _); [|exact H].
  destruct (acquireTarget _ _ _); [apply pursue_hurtFrame|]; assumption.
Qed.

Lemma updateEntities_hurtFrame (deltaTime : R) (s : GameState) :
  noNegativeDamage (GameState.entities s) ->
  hurtFrame (GameState.entities s) (updateEntities deltaTime s).
Proof.
  intros Hn. unfold updateEntities. cbv zeta.
  generalize (seq 0 (length (GameState.entities s))). intros indices.
  assert (forall X, hurtFrame (GameState.entities s) X ->
                    hurtFrame (GameState.entities s)
                      (fold_left
                         (entityStep deltaTime (GameState.players s)
                            (buildBlockedTiles (GameState.entities s) None None)
                            (buildBlockedTiles (GameState.entities s)
                               (Some [ENEMY_BASE]) None)) indices X)) as H.
  { induction indices as [|i indices IH]; intros X HX; [exact HX|].
    simpl. apply IH. apply entityStep_hurtFrame; assumption. }
  apply H. apply hurtFrame_refl.
Qed.

(** X28.  A tick never heals.  Provided no entity carries a negative
    damage, every entity that is there after the call was there before it
    with the same identity (id, type, owner, maxHp, damage and so on) and
    with at least as many hit points: hp changes only by attacks, and only
    downwards. *)
Theorem update_never_heals (deltaTime : R) (s : GameState) (e' : Entity) :
  noNegativeDamage (GameState.entities s) ->
  e' ∈ GameState.entities (update deltaTime s) ->
  exists e,
    e ∈ GameState.entities s /\ sameIdentity e e' /\
    Entity.hp e' <= Entity.hp e.
Proof.
  intros Hn He'. destruct (GameState.gameOver s) eqn:Hg.
  - unfold update in He'. rewrite Hg in He'. exists e'.
    split; [exact He'|]. split; [apply sameIdentity_refl|lia].
  - destruct (update_entities deltaTime s Hg) as [Hes _]. rewrite Hes in He'.
    destruct (updateEntities_hurtFrame deltaTime s Hn) as [HL HF].
    apply list_elem_of_In, filter_In in He' as [He' _].
    apply list_elem_of_In, list_elem_of_lookup in He' as [k Hk].
    assert (is_Some (GameState.entities s !! k)) as [e He].
    { apply lookup_lt_is_Some. rewrite <- HL. eapply lookup_lt_Some. exact Hk. }
    destruct (HF k e He) as (e1 & Hk1 & Hid & Hhp).
    rewrite Hk in Hk1. injection Hk1 as <-.
    exists e. split; [|auto]. eapply list_elem_of_lookup_2. exact He.
Qed.

Lemma update_never_heals_witness :
  exists e,
    e ∈ GameState.entities fallenBaseState /\
    sameIdentity e (mkBuilding "enemy_base" ENEMY_BASE 54 10 4000 2 "enemy") /\
    Entity.hp (mkBuilding "enemy_base" ENEMY_BASE 54 10 4000 2 "enemy")
    <= Entity.hp e.
Proof.
  apply (update_never_heals 1 fallenBaseState).
  - intros e He. simpl in He.
    apply elem_of_cons in He as [->|He]; [simpl; lia|].
    apply list_elem_of_singleton in He as ->. simpl. lia.
  - left.
Defined.

(** ** The earlier engine: who is paid for a zombie *)

Lemma legacy_sweepEntity_survivor (players : gmap string PlayerState)
    (e : Entity) (pid : string) (p1 : PlayerState) :
  fst (Legacy.sweepEntity players e) !! pid = Some p1 ->
  PlayerState.defeated p1 = false ->
  exists p,
    players !! pid = Some p /\ PlayerState.defeated p = false /\
    PlayerState.gold p1
    = PlayerState.gold p
      + ZOMBIE_BOUNTY * Z.of_nat (length (Legacy.deadZombies [e])).
Proof.
  unfold Legacy.sweepEntity, Legacy.deadZombies. simpl.
  destruct (Entity.hp e <=? 0); simpl.
  2:{ intros H Hd. exists p1. repeat split; auto. lia. }
  destruct (Entity.type e) eqn:Hty; simpl.
  all: try (intros H Hd; exists p1; repeat split; auto; lia).
  all: revert Hty; intros Hty.
  all: repeat match goal with
       | |- context [bool_decide (?a = ?b)] =>
         first [ rewrite (bool_decide_eq_true_2 (a = b)) by reflexivity
               | rewrite (bool_decide_eq_false_2 (a = b)) by discriminate ]
       end; simpl.
  all: try (intros H Hd; exists p1; repeat split; auto; lia).
  all: intros H Hd.
  all: try (rewrite lookup_fmap in H;
            destruct (players !! pid) as [p|] eqn:Hp; [|discriminate];
            simpl in H; injection H as <-; exists p;
            destruct (PlayerState.defeated p) eqn:Hdp; simpl in *;
            [congruence|];
            split; [reflexivity|]; split; [reflexivity|];
            destruct p; simpl; unfold ZOMBIE_BOUNTY; lia).
  all: repeat match type of H with
       | context [if negb (String.eqb ?a ?b) then _ else _] =>
         destruct (String.eqb a b); simpl in H
       end.
  all: try (exists p1; repeat split; auto; lia).
  all: destruct (players !! Entity.ownerId e) as [owner|] eqn:Ho;
    try (exists p1; repeat split; auto; lia).
  all: destruct (decide (Entity.ownerId e = pid)) as [Heq|Hne];
    [rewrite Heq in H; rewrite lookup_insert_eq in H; injection H as <-;
     rewrite Heq in Ho
    |rewrite lookup_insert_ne in H by exact Hne;
     exists p1; repeat split; auto; lia].
  all: try (simpl in Hd; destruct owner; discriminate).
  all: exists owner; split; [exact Ho|]; destruct owner; simpl in *;
    split; [exact Hd|lia].
Qed.

(** X29.  In the earlier engine (services/GameEngine.ts) every player who
    is still undefeated after the removal sweep has been paid ZOMBIE_BOUNTY
    for each zombie that the sweep removed, whoever killed it: the player's
    gold has grown by exactly ZOMBIE_BOUNTY times the number of entities of
    type zombie with hp <= 0 in the list. *)
Theorem legacy_sweep_pays_every_survivor (es : list Entity) :
  forall (players : gmap string PlayerState) (pid : string)
         (p' : PlayerState),
    fst (Legacy.sweep players es) !! pid = Some p' ->
    PlayerState.defeated p' = false ->
    exists p,
      players !! pid = Some p /\ PlayerState.defeated p = false /\
      PlayerState.gold p'
      = PlayerState.gold p
        + ZOMBIE_BOUNTY * Z.of_nat (length (Legacy.deadZombies es)).
Proof.
  induction es as [|e es IH]; intros players pid p' H Hd.
  - simpl in H. exists p'. repeat split; auto. simpl. lia.
  - simpl in H.
    pose proof (legacy_sweepEntity_survivor players e pid) as Hstep.
    destruct (Legacy.sweepEntity players e) as [players1 keep].
    pose proof (IH players1 pid p') as IH'.
    destruct (Legacy.sweep players1 es) as [players2 kept]. simpl in *.
    destruct (IH' H Hd) as (p1 & Hp1 & Hd1 & Hg1).
    destruct (Hstep p1 Hp1 Hd1) as (p & Hp & Hdp & Hg).
    exists p. split; [exact Hp|]. split; [exact Hdp|].
    rewrite Hg1, Hg. unfold Legacy.deadZombies. simpl.
    destruct ((Entity.hp e <=? 0) && bool_decide (Entity.type e = ZOMBIE));
      simpl length; lia.
Qed.

Lemma legacy_sweep_pays_every_survivor_witness :
  exists p,
    ({[ "p1" := samplePlayer ]} : gmap string PlayerState) !! "p1" = Some p /\
    PlayerState.defeated p = false /\
    PlayerState.gold (PlayerState.set_gold 110 samplePlayer)
    = PlayerState.gold p + ZOMBIE_BOUNTY * Z.of_nat 1.
Proof.
  apply (legacy_sweep_pays_every_survivor
           [ Entity.mk "z1" ZOMBIE 50 12 0 35 0.4 "enemy" None (Some 0%R)
               None None None None None None None (Some 6) (Some 0.8%R)
               (Some 0.8%R) None ]
           {[ "p1" := samplePlayer ]} "p1"
           (PlayerState.set_gold 110 samplePlayer)); reflexivity.
Defined.

(** ** The bounty over a whole tick *)








(** ** Walls of a session *)











(** ** The wave number of a session *)

Lemma applyOp_waveNumber (s : GameState) (op : Operation) :
  GameState.waveNumber (applyOp s op) = GameState.waveNumber s.
Proof.
  destruct op as [dt|newId rnd pid k|newId pid x y|newId pid x y|newId pid x y
                 |pc newId rnd]; cbn [applyOp].
  - unfold update. destruct (GameState.gameOver s); [reflexivity|].
    destruct (sweep _ _) as [players entities].
    unfold checkGameOver. cbv zeta.
    destruct (_ =? _)%nat; [destruct s; reflexivity|].
    destruct (List.find _ _); destruct s; reflexivity.
  - unfold spawnUnit.
    destruct (GameState.players s !! pid) as [player|]; [|reflexivity].
    destruct (PlayerState.defeated player); [reflexivity|]. cbv zeta.
    destruct (_ <=? _); [|reflexivity]. destruct (_ <? _); [|reflexivity].
    destruct s; reflexivity.
  - unfold buildHouse.
    destruct (GameState.players s !! pid) as [player|]; [|reflexivity].
    destruct (PlayerState.defeated player); [reflexivity|]. cbv zeta.
    destruct (_ && _); [|reflexivity]. destruct s; reflexivity.
  - unfold buildMine.
    destruct (GameState.players s !! pid) as [player|]; [|reflexivity].
    destruct (PlayerState.defeated player); [reflexivity|]. cbv zeta.
    destruct (_ && _); [|reflexivity]. destruct s; reflexivity.
  - unfold buildWall.
    destruct (GameState.players s !! pid) as [player|]; [|reflexivity].
    destruct (PlayerState.defeated player); [reflexivity|]. cbv zeta.
    destruct (_ && _); [|reflexivity]. destruct s; reflexivity.
  - pose proof (spawnZombie_appends pc newId rnd s) as Hz.
    destruct (List.find _ _); [|rewrite Hz; reflexivity].
    destruct Hz as (z & -> & _). destruct s; reflexivity.
Qed.

(** No operation assigns the wave number: it is 1 in every state of a
    session. *)
Lemma reachable_waveNumber (s : GameState) :
  reachable s -> GameState.waveNumber s = 1.
Proof.
  intros (now & n & lobby & s0 & ops & Hinit & ->).
  assert (GameState.waveNumber s0 = 1) as H0.
  { unfold createInitialState in Hinit.
    destruct (addPlayers _ _ _) as [[players entities]|]; [|discriminate].
    injection Hinit as <-. reflexivity. }
  clear Hinit. revert s0 H0.
  induction ops as [|op ops IH]; intros s0 H0; [exact H0|].
  simpl. apply IH. rewrite applyOp_waveNumber. exact H0.
Qed.
